(** * File converter: drag-and-drop ingestion, extension renaming,
      persistence and streamed-chat reassembly

    A shallow embedding of the TypeScript sources of the converter
    (the [App] component with its helpers, [ChatSidebar], and the
    [POST] handler of the chat endpoint).

    Conventions of the embedding.
    - A JavaScript string is a [string]: a sequence of code units, here
      the code units 0..255.  An [ArrayBuffer] is a [list byte].
    - A promise that has settled is an [outcome]: fulfilled with a value
      or rejected with a reason.
    - [localStorage] is a finite map from keys to strings, with a quota:
      [setItem] throws where the store with the new item is over it.
      A store that cannot be accessed at all is not modelled.
    - The texts read back from [localStorage] are modelled where they
      are arrays of objects of strings; on any other text the load
      functions are [None], and nothing is said of the code.
    - React state is passed explicitly; an effect that depends on a piece
      of state is run by the setter of that piece.
    - A recursion that goes through callbacks or promises takes [fuel];
      [None] is a computation that has not come to an end.
    - An effect that throws (a write of a setting to a store that is
      full) removes the application: it has no error boundary.
    - The archive of a download is a finite map from the names of the
      files added to it to their bytes; the entries JSZip makes for
      folders are left out.
    - Text encoders and decoders are parameters. *)

From Stdlib Require Import Strings.String Strings.Ascii Strings.Byte.
From Stdlib Require Import NArith List Lia Permutation DecimalString.
From Stdlib Require DecimalPos DecimalN.
From stdpp Require Import gmap strings list.
Import ListNotations.

(** ** JavaScript strings and arrays *)

Module JS.

(** [s.includes(c)] for a one-character [c]. *)
Fixpoint has_char (c : ascii) (s : string) : bool :=
  match s with
  | EmptyString => false
  | String a s' => if Ascii.eqb a c then true else has_char c s'
  end.

(** [s.split(sep)] for a one-character separator: never the empty array. *)
Fixpoint split (sep : ascii) (s : string) : list string :=
  match s with
  | EmptyString => [EmptyString]
  | String a s' =>
      if Ascii.eqb a sep then EmptyString :: split sep s'
      else match split sep s' with
           | h :: t => String a h :: t
           | [] => [String a EmptyString]
           end
  end.

(** [parts.join(sep)]. *)
Fixpoint join (sep : string) (parts : list string) : string :=
  match parts with
  | [] => EmptyString
  | x :: rest =>
      match rest with
      | [] => x
      | _ :: _ => x +:+ sep +:+ join sep rest
      end
  end.

(** [s.startsWith(p)]. *)
Definition startsWith (s p : string) : bool := String.prefix p s.

(** Truthiness of a string, as in [filter(Boolean)] and [s || d]. *)
Definition Boolean (s : string) : bool :=
  match s with EmptyString => false | String _ _ => true end.

(** [s || d] on strings. *)
Definition or_else (s d : string) : string := if Boolean s then s else d.

(** [parts.pop()]: the last element ([None] is [undefined]) and the
    array that is left. *)
Definition pop (parts : list string) : option string * list string :=
  (last parts, removelast parts).

(** [String(n)] for a non-negative integer below 10^21, where
    JavaScript writes all the digits. *)
Definition String_of_N (n : N) : string :=
  NilZero.string_of_uint (N.to_uint n).

(** [String(z)] for an integer of either sign, as far as JavaScript
    writes all the digits. *)
Definition String_of_Z (z : Z) : string :=
  if (z <? 0)%Z then "-" +:+ String_of_N (Z.abs_N z)
  else String_of_N (Z.to_N z).

(** *** Promises *)

(** A settled promise. *)
Inductive outcome (A E : Type) : Type :=
| Fulfilled (value : A)
| Rejected (reason : E).
Arguments Fulfilled {A E} value.
Arguments Rejected {A E} reason.

Section PromiseAll.
Context {A E : Type}.

(** One call of [Promise.all]: the result array, one slot per input
    promise and filled by index, and the settlement once there is one. *)
Record all_state : Type := AllState {
  values : list (option A);
  settled : option (outcome (list A) E)
}.

Definition all_start (n : nat) : all_state :=
  let values := replicate n None in
  AllState values (Fulfilled <$> mapM id values).

(** The input promise of index [i] settles with [r].  A fulfilment
    fills slot [i], and fulfils the whole once no slot is empty; a
    rejection rejects the whole; a settled whole ignores both. *)
Definition settle_element (i : nat) (r : outcome A E) (st : all_state)
  : all_state :=
  match settled st with
  | Some _ => st
  | None =>
      match r with
      | Rejected e => AllState (values st) (Some (Rejected e))
      | Fulfilled v =>
          let values := <[i := Some v]> (values st) in
          AllState values (Fulfilled <$> mapM id values)
      end
  end.

(** [Promise.all(promises)] when the inputs settle in the order
    [schedule] (a list of indices); [None] while it is pending. *)
Definition Promise_all (promises : list (outcome A E)) (schedule : list nat)
  : option (outcome (list A) E) :=
  settled
    (foldl (fun st i =>
              match promises !! i with
              | Some r => settle_element i r st
              | None => st
              end)
           (all_start (length promises)) schedule).

(** The inputs settle in index order. *)
Definition Promise_all_in_order (promises : list (outcome A E))
  : option (outcome (list A) E) :=
  Promise_all promises (seq 0 (length promises)).

(** Two invariants of a run, for the proofs.  [filling]: what holds of
    the state while the inputs [vs] fulfil one after another, those in
    [settled_inputs] having done so.  [failing]: what holds of it when
    the input [k] is rejected. *)
Definition filling (vs : list A) (settled_inputs : list nat) (st : all_state)
  : Prop :=
  length (values st) = length vs
  /\ (forall i v, values st !! i = Some (Some v) -> vs !! i = Some v)
  /\ (forall i v, i ∈ settled_inputs -> vs !! i = Some v ->
                  values st !! i = Some (Some v))
  /\ settled st = Fulfilled <$> mapM id (values st).

Definition failing (promises : list (outcome A E)) (k : nat) (st : all_state)
  : Prop :=
  values st !! k = Some None
  /\ (settled st = None
      \/ exists e j, settled st = Some (Rejected e)
                     /\ promises !! j = Some (Rejected e)).
End PromiseAll.

End JS.

(** ** [btoa] and [atob] *)

(** The browser's base64 functions, after the algorithms of the HTML
    standard (forgiving-base64 encode and decode).  Code units are
    handled as numbers below 256, sextets as numbers below 64. *)

Module Base64.

Definition char_of_sextet (n : N) : ascii :=
  ascii_of_N
    (if n <? 26 then n + 65          (* A-Z *)
     else if n <? 52 then n + 71     (* a-z *)
     else if n <? 62 then n - 4      (* 0-9 *)
     else if n =? 62 then 43         (* + *)
     else 47)%N.                     (* / *)

Definition sextet_of_char (c : ascii) : option N :=
  let n := N_of_ascii c in
  (if (65 <=? n) && (n <=? 90) then Some (n - 65)
   else if (97 <=? n) && (n <=? 122) then Some (n - 71)
   else if (48 <=? n) && (n <=? 57) then Some (n + 4)
   else if n =? 43 then Some 62
   else if n =? 47 then Some 63
   else None)%N.

Definition pad : ascii := "="%char.

(** Three bytes make four characters; one or two bytes left at the end
    make two or three characters and the padding. *)
Fixpoint encode (bytes : list N) : list ascii :=
  match bytes with
  | [] => []
  | [a] =>
      [char_of_sextet (a / 4); char_of_sextet ((a mod 4) * 16); pad; pad]
  | [a; b] =>
      [char_of_sextet (a / 4); char_of_sextet ((a mod 4) * 16 + b / 16);
       char_of_sextet ((b mod 16) * 4); pad]
  | a :: b :: c :: rest =>
      [char_of_sextet (a / 4); char_of_sextet ((a mod 4) * 16 + b / 16);
       char_of_sextet ((b mod 16) * 4 + c / 64); char_of_sextet (c mod 64)]
      ++ encode rest
  end%N.

(** The sextets of the bytes, and the padding that follows them. *)
Fixpoint sextets (bytes : list N) : list N :=
  (match bytes with
  | [] => []
  | [a] => [a / 4; (a mod 4) * 16]
  | [a; b] => [a / 4; (a mod 4) * 16 + b / 16; (b mod 16) * 4]
  | a :: b :: c :: rest =>
      [a / 4; (a mod 4) * 16 + b / 16; (b mod 16) * 4 + c / 64; c mod 64]
      ++ sextets rest
  end)%N.

Fixpoint padding (bytes : list N) : list ascii :=
  match bytes with
  | [] => []
  | [_] => [pad; pad]
  | [_; _] => [pad]
  | _ :: _ :: _ :: rest => padding rest
  end.

(** [btoa(s)].  It throws on a code unit above 255; a [string] has none. *)
Definition btoa (s : string) : string :=
  string_of_list_ascii (encode (map N_of_ascii (list_ascii_of_string s))).

(** ASCII whitespace: tab, line feed, form feed, carriage return, space. *)
Definition is_ascii_whitespace (c : ascii) : bool :=
  let n := N_of_ascii c in
  ((n =? 9) || (n =? 10) || (n =? 12) || (n =? 13) || (n =? 32))%N.

(** One or two padding characters at the end are removed. *)
Definition strip_padding (data : list ascii) : list ascii :=
  match rev data with
  | c1 :: c2 :: r =>
      if Ascii.eqb c1 pad then
        if Ascii.eqb c2 pad then rev r else rev (c2 :: r)
      else data
  | [c1] => if Ascii.eqb c1 pad then [] else data
  | [] => data
  end.

(** Four sextets make three bytes; of two or three sextets left at the
    end, the last four or two bits are discarded. *)
Fixpoint decode (sextets : list N) : list N :=
  match sextets with
  | s1 :: s2 :: s3 :: s4 :: rest =>
      [s1 * 4 + s2 / 16; (s2 mod 16) * 16 + s3 / 4; (s3 mod 4) * 64 + s4]
      ++ decode rest
  | [s1; s2; s3] => [s1 * 4 + s2 / 16; (s2 mod 16) * 16 + s3 / 4]
  | [s1; s2] => [s1 * 4 + s2 / 16]
  | _ => []
  end%N.

(** [atob(data)]; [None] is the [InvalidCharacterError] it throws. *)
Definition atob (data : string) : option string :=
  let data :=
    List.filter (fun c => negb (is_ascii_whitespace c))
                (list_ascii_of_string data) in
  let data := if length data mod 4 =? 0 then strip_padding data else data in
  if length data mod 4 =? 1 then None
  else match mapM sextet_of_char data with
       | None => None
       | Some sextets => Some (string_of_list_ascii (map ascii_of_N (decode sextets)))
       end.

End Base64.

(** ** [JSON.stringify] and [JSON.parse] *)

(** The documents the application stores are arrays of objects whose
    members are strings.  [stringify] writes such a document as
    [JSON.stringify] does; [parse] reads one as [JSON.parse] does, and is
    [None] where [JSON.parse] throws a [SyntaxError].  Only this shape is
    modelled: on a well-formed text of another shape [parse] is [None]
    too. *)

Module JSON.

Definition object : Type := list (string * string).

Definition quotation_mark : ascii := "034"%char.
Definition reverse_solidus : ascii := "\"%char.

Definition hex_digit (n : N) : ascii :=
  ascii_of_N (if n <? 10 then n + 48 else n + 87)%N.

(** [QuoteJSONString], one code unit at a time. *)
Definition escape_char (a : ascii) : string :=
  let n := N_of_ascii a in
  (if n =? 8 then "\b"
   else if n =? 9 then "\t"
   else if n =? 10 then "\n"
   else if n =? 12 then "\f"
   else if n =? 13 then "\r"
   else if n =? 34 then String reverse_solidus (String quotation_mark "")
   else if n =? 92 then "\\"
   else if n <? 32 then
     "\u00" +:+ String (hex_digit (n / 16)) (String (hex_digit (n mod 16)) "")
   else String a "")%N.

Fixpoint escape (s : string) : string :=
  match s with
  | EmptyString => EmptyString
  | String a s' => escape_char a +:+ escape s'
  end.

Definition quote (s : string) : string :=
  String quotation_mark (escape s +:+ String quotation_mark "").

Definition stringify_member (m : string * string) : string :=
  quote (fst m) +:+ ":" +:+ quote (snd m).

Definition stringify_object (o : object) : string :=
  "{" +:+ JS.join "," (map stringify_member o) +:+ "}".

Definition stringify (doc : list object) : string :=
  "[" +:+ JS.join "," (map stringify_object doc) +:+ "]".

(** Reading. *)

Definition is_whitespace (c : ascii) : bool :=
  let n := N_of_ascii c in
  ((n =? 32) || (n =? 9) || (n =? 10) || (n =? 13))%N.

Fixpoint skip_whitespace (s : string) : string :=
  match s with
  | EmptyString => EmptyString
  | String c s' => if is_whitespace c then skip_whitespace s' else s
  end.

Definition hex_value (c : ascii) : option N :=
  let n := N_of_ascii c in
  (if (48 <=? n) && (n <=? 57) then Some (n - 48)
   else if (97 <=? n) && (n <=? 102) then Some (n - 87)
   else if (65 <=? n) && (n <=? 70) then Some (n - 55)
   else None)%N.

(** The code unit of [\uXXXX]; one above 255 is outside the model. *)
Definition unicode_escape (h1 h2 h3 h4 : ascii) : option ascii :=
  match hex_value h1, hex_value h2, hex_value h3, hex_value h4 with
  | Some a, Some b, Some c, Some d =>
      let n := (((a * 16 + b) * 16 + c) * 16 + d)%N in
      if (n <? 256)%N then Some (ascii_of_N n) else None
  | _, _, _, _ => None
  end.

Definition simple_escape (e : ascii) : option ascii :=
  let n := N_of_ascii e in
  (if n =? 34 then Some quotation_mark
   else if n =? 92 then Some reverse_solidus
   else if n =? 47 then Some "/"%char
   else if n =? 98 then Some "008"%char
   else if n =? 102 then Some "012"%char
   else if n =? 110 then Some "010"%char
   else if n =? 114 then Some "013"%char
   else if n =? 116 then Some "009"%char
   else None)%N.

Definition prepend (a : option ascii) (r : option (string * string))
  : option (string * string) :=
  match a, r with
  | Some a, Some (str, rest) => Some (String a str, rest)
  | _, _ => None
  end.

(** The characters of a string literal after its opening quotation
    mark: the string read, and the text after the closing mark. *)
Fixpoint parse_chars (s : string) : option (string * string) :=
  match s with
  | EmptyString => None
  | String c s' =>
      if Ascii.eqb c quotation_mark then Some (EmptyString, s')
      else if Ascii.eqb c reverse_solidus then
        match s' with
        | EmptyString => None
        | String e s'' =>
            if Ascii.eqb e "u" then
              match s'' with
              | String h1 (String h2 (String h3 (String h4 s3))) =>
                  prepend (unicode_escape h1 h2 h3 h4) (parse_chars s3)
              | _ => None
              end
            else prepend (simple_escape e) (parse_chars s'')
        end
      else if (N_of_ascii c <? 32)%N then None
      else prepend (Some c) (parse_chars s')
  end.

Definition parse_string (s : string) : option (string * string) :=
  match skip_whitespace s with
  | String c s' => if Ascii.eqb c quotation_mark then parse_chars s' else None
  | EmptyString => None
  end.

(** [expect c s]: the text after the token [c]. *)
Definition expect (c : ascii) (s : string) : option string :=
  match skip_whitespace s with
  | String a s' => if Ascii.eqb a c then Some s' else None
  | EmptyString => None
  end.

(** The members of an object after its first brace, one per unit of
    [fuel]: [string : string], then a comma or the closing brace. *)
Fixpoint parse_members (fuel : nat) (s : string)
  : option (object * string) :=
  match fuel with
  | O => None
  | S fuel =>
      match parse_string s with
      | None => None
      | Some (key, s1) =>
          match expect ":" s1 with
          | None => None
          | Some s2 =>
              match parse_string s2 with
              | None => None
              | Some (value, s3) =>
                  match skip_whitespace s3 with
                  | String c s4 =>
                      if Ascii.eqb c "}" then Some ([(key, value)], s4)
                      else if Ascii.eqb c "," then
                        match parse_members fuel s4 with
                        | Some (o, rest) => Some ((key, value) :: o, rest)
                        | None => None
                        end
                      else None
                  | EmptyString => None
                  end
              end
          end
      end
  end.

Definition parse_object (fuel : nat) (s : string) : option (object * string) :=
  match expect "{" s with
  | None => None
  | Some s1 =>
      match expect "}" s1 with
      | Some rest => Some ([], rest)
      | None => parse_members fuel s1
      end
  end.

(** The elements of an array after its first bracket. *)
Fixpoint parse_elements (fuel : nat) (s : string)
  : option (list object * string) :=
  match fuel with
  | O => None
  | S fuel =>
      match parse_object (String.length s) s with
      | None => None
      | Some (o, s1) =>
          match skip_whitespace s1 with
          | String c s2 =>
              if Ascii.eqb c "]" then Some ([o], s2)
              else if Ascii.eqb c "," then
                match parse_elements fuel s2 with
                | Some (l, rest) => Some (o :: l, rest)
                | None => None
                end
              else None
          | EmptyString => None
          end
      end
  end.

(** [JSON.parse(text)] on the text of an array of objects of strings.
    [None] on every other text: there [JSON.parse] throws, or returns a
    value of another shape, and the functions that call it here give
    no answer. *)
Definition parse (text : string) : option (list object) :=
  match expect "[" text with
  | None => None
  | Some s1 =>
      let result :=
        match expect "]" s1 with
        | Some rest => Some ([], rest)
        | None => parse_elements (String.length text) s1
        end in
      match result with
      | Some (doc, rest) =>
          match skip_whitespace rest with
          | EmptyString => Some doc
          | String _ _ => None
          end
      | None => None
      end
  end.

End JSON.

(** ** The converter application ([App]) *)

Module App.
Import JS.

(** *** Data model ([types.ts] and the browser's [File]) *)

Definition DOMException : Type := string.

(** A [File]: its name, size (an [unsigned long long]) and time stamp
    (a [long long], negative before 1970), and what reading it with a
    [FileReader] ends in ([onload] with the bytes, or [onerror]). *)
Record File : Type := {
  fileName : string;
  fileSize : N;
  lastModified : Z;
  readAsArrayBuffer : outcome (list byte) DOMException
}.

Record FileWithRelativePath : Type := {
  file : File;
  path : string
}.

Record ProcessedFile : Type := {
  fileId : string;
  originalPath : string;
  newPath : string;
  content : list byte;
  originalType : string;
  newType : string
}.

(** A [FileSystemEntry] of a drop.  A directory holds what its reader
    returns call after call (a batch or an error); once that list is
    used up the reader returns empty batches. *)
#[warnings="-register-all"]
Inductive Entry : Type :=
| FileEntry (fullPath : string) (getFile : outcome File DOMException)
| DirectoryEntry (fullPath : string)
                 (reader : list (outcome (list Entry) DOMException))
| OtherEntry.

(** [webkitGetAsEntry]: [None] where the item has no such method, else
    what the call returns ([None] for [null]). *)
Record DataTransferItem : Type := {
  webkitGetAsEntry : option (option Entry)
}.

Record DataTransfer : Type := {
  items : list DataTransferItem;
  files : list File
}.

(** *** [localStorage] persistence helpers *)

(** [arrayBufferToBase64]: the loop appends one code unit per byte. *)
Definition arrayBufferToBase64 (buffer : list byte) : string :=
  let binary :=
    fold_left (fun binary b => binary +:+ String (ascii_of_byte b) EmptyString)
              buffer EmptyString in
  Base64.btoa binary.

(** [base64ToArrayBuffer]: [bytes[i] = binary_string.charCodeAt(i)];
    [None] where [atob] throws. *)
Definition base64ToArrayBuffer (base64 : string) : option (list byte) :=
  match Base64.atob base64 with
  | None => None
  | Some binary_string =>
      Some (map byte_of_ascii (list_ascii_of_string binary_string))
  end.

Definition fileConverterState : string := "fileConverterState".

(** [{...file, content: arrayBufferToBase64(file.content)}], the members
    in the order the record was built in. *)
Definition serializable (f : ProcessedFile) : JSON.object :=
  [ ("id", fileId f);
    ("originalPath", originalPath f);
    ("newPath", newPath f);
    ("content", arrayBufferToBase64 (content f));
    ("originalType", originalType f);
    ("newType", newType f) ]%string.

(** [localStorage.setItem(key, value)] on a store with the quota
    [quota] (the stores the browser can hold): the store with the item,
    or [None] where it throws a [QuotaExceededError]. *)
Definition setItem (quota : gmap string string -> bool) (key value : string)
    (localStorage : gmap string string) : option (gmap string string) :=
  let stored := <[key := value]> localStorage in
  if quota stored then Some stored else None.

(** The code units of the keys and values of a store, for the quotas
    that are a number of them. *)
Definition used (localStorage : gmap string string) : N :=
  map_fold (fun key value n =>
              (n + N.of_nat (String.length key) + N.of_nat (String.length value))%N)
           0%N localStorage.

(** The error of [setItem] is caught and logged: the store is then as
    it was. *)
Definition saveStateToLocalStorage (quota : gmap string string -> bool)
    (processedFiles : list ProcessedFile)
    (localStorage : gmap string string) : gmap string string :=
  if length processedFiles =? 0 then delete fileConverterState localStorage
  else
    let serializableFiles := map serializable processedFiles in
    match setItem quota fileConverterState (JSON.stringify serializableFiles)
                  localStorage with
    | Some stored => stored
    | None => localStorage
    end.

(** [o[key]]: the last member of that name; [None] is [undefined]. *)
Definition member (key : string) (o : JSON.object) : option string :=
  snd <$> last (List.filter (fun m => String.eqb (fst m) key) o).

(** What reading one stored object back ends in: a record, an error
    thrown, or a value that is not of the type [ProcessedFile]. *)
Inductive Deserialized : Type :=
| Loaded (file : ProcessedFile)
| Throws
| OffType.

(** The names of the members of a stored record, in the order
    [onload] and the spread write them in. *)
Definition memberNames : list string :=
  ["id"; "originalPath"; "newPath"; "content"; "originalType"; "newType"]%string.

(** [{...file, content: base64ToArrayBuffer(file.content)}].  Only
    [content] is read: [atob] gets its text, or ["undefined"] where the
    member is missing, and throws on what is not base64.  Every other
    member is copied as it is, in its place; the result is a
    [ProcessedFile] as [onload] builds them where the members are the
    six, in their order. *)
Definition deserialize (o : JSON.object) : Deserialized :=
  match base64ToArrayBuffer (default "undefined"%string (member "content" o)) with
  | None => Throws
  | Some buffer =>
      if bool_decide (map fst o = memberNames) then
        match member "id" o, member "originalPath" o, member "newPath" o,
              member "originalType" o, member "newType" o with
        | Some i, Some op, Some np, Some ot, Some nt =>
            Loaded (Build_ProcessedFile i op np buffer ot nt)
        | _, _, _, _, _ => OffType
        end
      else OffType
  end.

Definition throws (d : Deserialized) : bool :=
  match d with Throws => true | _ => false end.

Definition record_of (d : Deserialized) : option ProcessedFile :=
  match d with Loaded file => Some file | _ => None end.

(** [loadStateFromLocalStorage].  An error thrown by [map] is caught,
    logged, and answered with the empty array.  [None] is no answer of
    the code: the text stored is not an array of objects of strings
    (then [JSON.parse] throws, or returns a value of another shape), or
    a record read is not of the type [ProcessedFile]. *)
Definition loadStateFromLocalStorage (localStorage : gmap string string)
  : option (list ProcessedFile) :=
  match localStorage !! fileConverterState with
  | Some savedState =>
      if Boolean savedState then
        match JSON.parse savedState with
        | Some serializableFiles =>
            let read := map deserialize serializableFiles in
            if existsb throws read then Some []
            else mapM record_of read
        | None => None
        end
      else Some []
  | None => Some []
  end.

(** *** Directory traversal *)

Section DirectoryReader.
Context {Reader Ent : Type}.
(** [readEntries]: the reply of one call, and the reader after it. *)
Variable readEntries : Reader -> outcome (list Ent) DOMException * Reader.

(** The inner [readEntries()] of [readAllDirectoryEntries]: one call
    of the reader per unit of [fuel]. *)
Fixpoint readEntries_loop (fuel : nat) (allEntries : list Ent)
    (directoryReader : Reader) : option (outcome (list Ent) DOMException) :=
  match fuel with
  | O => None
  | S fuel =>
      match readEntries directoryReader with
      | (Fulfilled entries, directoryReader) =>
          if length entries =? 0 then Some (Fulfilled allEntries)
          else readEntries_loop fuel (allEntries ++ entries) directoryReader
      | (Rejected e, _) => Some (Rejected e)
      end
  end.

Definition readAllDirectoryEntries (fuel : nat) (directoryReader : Reader)
  : option (outcome (list Ent) DOMException) :=
  readEntries_loop fuel [] directoryReader.

(** [returns r batches r']: the calls of [readEntries] made one after
    another from the reader [r] return [batches], in this order, and
    leave the reader [r']. *)
Inductive returns : Reader -> list (list Ent) -> Reader -> Prop :=
| returns_nil r : returns r [] r
| returns_cons r entries r' batches r'' :
    readEntries r = (Fulfilled entries, r') ->
    returns r' batches r'' ->
    returns r (entries :: batches) r''.
End DirectoryReader.

(** The reader of a [DirectoryEntry]. *)
Definition next_batch (reader : list (outcome (list Entry) DOMException))
  : outcome (list Entry) DOMException
    * list (outcome (list Entry) DOMException) :=
  match reader with
  | [] => (Fulfilled [], [])
  | reply :: reader => (reply, reader)
  end.

(** The entries a reader of a directory can return. *)
Definition children (reader : list (outcome (list Entry) DOMException))
  : list Entry :=
  concat (omap (fun reply => match reply with
                             | Fulfilled entries => Some entries
                             | Rejected _ => None
                             end) reader).

(** [s.substring(1)]. *)
Definition substring1 (s : string) : string :=
  match s with EmptyString => EmptyString | String _ s' => s' end.

(** [getFilesFromEntry]; [fuel] bounds the depth of the walk and the
    number of batches read per directory.  The promises of the children
    settle in index order here: the order decides only which reason a
    rejection carries, and [handleDroppedItems] does not look at it. *)
Fixpoint getFilesFromEntry (fuel : nat) (entry : option Entry)
  : option (outcome (list FileWithRelativePath) DOMException) :=
  match fuel with
  | O => None
  | S fuel =>
      match entry with
      | None => Some (Fulfilled [])
      | Some (FileEntry fullPath getFile) =>
          match getFile with
          | Fulfilled f =>
              let path :=
                if startsWith fullPath "/" then substring1 fullPath
                else fullPath in
              Some (Fulfilled [Build_FileWithRelativePath f path])
          | Rejected e => Some (Rejected e)
          end
      | Some (DirectoryEntry _ reader) =>
          match readAllDirectoryEntries next_batch fuel reader with
          | None => None
          | Some (Rejected e) => Some (Rejected e)
          | Some (Fulfilled entries) =>
              match mapM (fun e => getFilesFromEntry fuel (Some e)) entries with
              | None => None
              | Some promises =>
                  match Promise_all_in_order promises with
                  | None => None
                  | Some (Rejected e) => Some (Rejected e)
                  | Some (Fulfilled nestedFiles) =>
                      Some (Fulfilled (concat nestedFiles))
                  end
              end
          end
      | Some OtherEntry => Some (Fulfilled [])
      end
  end.

(** [!f.path.split('/').pop()?.startsWith('.')]. *)
Definition not_hidden (f : FileWithRelativePath) : bool :=
  match fst (pop (split "/" (path f))) with
  | Some leaf => negb (startsWith leaf ".")
  | None => true
  end.

(** [items.length > 0 && items[0].webkitGetAsEntry]: the drop comes
    with directory entries. *)
Definition hierarchical (dataTransfer : DataTransfer) : bool :=
  match items dataTransfer with
  | item :: _ => bool_decide (is_Some (webkitGetAsEntry item))
  | [] => false
  end.

(** [extractFilesFromDataTransfer]. *)
Definition extractFilesFromDataTransfer (fuel : nat) (dataTransfer : DataTransfer)
  : option (outcome (list FileWithRelativePath) DOMException) :=
  if hierarchical dataTransfer then
    match mapM webkitGetAsEntry (items dataTransfer) with
    | None => Some (Rejected "TypeError"%string)
    | Some got =>
        let entries := omap id got in
        match mapM (fun e => getFilesFromEntry fuel (Some e)) entries with
        | None => None
        | Some filesPromises =>
            match Promise_all_in_order filesPromises with
            | None => None
            | Some (Rejected e) => Some (Rejected e)
            | Some (Fulfilled filesArrays) =>
                let allFiles := concat filesArrays in
                Some (Fulfilled (List.filter not_hidden allFiles))
            end
        end
    end
  else
    Some (Fulfilled
      (map (fun f => Build_FileWithRelativePath f (fileName f))
           (List.filter
              (fun f => negb (startsWith (fileName f) ".") && (0 <? fileSize f)%N)
              (files dataTransfer)))).

(** *** Extension renaming (the body of the [onload] handler) *)

(** [getFileType]: [name.split('.').pop() || 'file']. *)
Definition getFileType (name : string) : string :=
  or_else (default EmptyString (fst (pop (split "." name)))) "file".

(** [newName]: the leaf name with the part after its last ['.'] dropped
    (when there is a ['.']) and ['.' + targetConversionType] appended. *)
Definition newName_of (nameAndExt targetConversionType : string) : string :=
  let nameParts := split "." nameAndExt in
  let nameParts :=
    if 1 <? length nameParts then snd (pop nameParts) else nameParts in
  join "." nameParts +:+ "." +:+ targetConversionType.

(** [newPath]: [[...pathParts, newName].filter(Boolean).join('/')].
    [pathParts.pop()!] is never [undefined], [split] being non-empty. *)
Definition newPath_of (originalPath targetConversionType : string) : string :=
  let pathParts := split "/" originalPath in
  let (popped, pathParts) := pop pathParts in
  let nameAndExt := default EmptyString popped in
  let newName := newName_of nameAndExt targetConversionType in
  join "/" (List.filter Boolean (pathParts ++ [newName])).

(** *** The component: state, effects and handlers *)

Inductive View : Type := upload | filesView.

Record State : Type := {
  processedFiles : list ProcessedFile;
  view : View;
  targetConversionType : string;
  isDragging : bool;
  isLoading : bool
}.

(** The component's state, the browser's [localStorage], the alerts
    shown so far (oldest first), and the quota of the store: the stores
    the browser can hold. *)
Record World : Type := {
  state : State;
  localStorage : gmap string string;
  alerts : list string;
  quota : gmap string string -> bool
}.

Definition setView (v : View) (w : World) : World :=
  let st := state w in
  Build_World
    (Build_State (processedFiles st) v (targetConversionType st)
                 (isDragging st) (isLoading st))
    (localStorage w) (alerts w) (quota w).

Definition setIsLoading (b : bool) (w : World) : World :=
  let st := state w in
  Build_World
    (Build_State (processedFiles st) (view st) (targetConversionType st)
                 (isDragging st) b)
    (localStorage w) (alerts w) (quota w).

Definition setIsDragging (b : bool) (w : World) : World :=
  let st := state w in
  Build_World
    (Build_State (processedFiles st) (view st) (targetConversionType st)
                 b (isLoading st))
    (localStorage w) (alerts w) (quota w).

(** [setProcessedFiles], with the effect that depends on
    [processedFiles]: the state is saved, and the view follows it. *)
Definition setProcessedFiles (newFiles : list ProcessedFile) (w : World)
  : World :=
  let st := state w in
  Build_World
    (Build_State newFiles
                 (if length newFiles =? 0 then upload else filesView)
                 (targetConversionType st) (isDragging st) (isLoading st))
    (saveStateToLocalStorage (quota w) newFiles (localStorage w))
    (alerts w) (quota w).

Definition alert (message : string) (w : World) : World :=
  Build_World (state w) (localStorage w) (alerts w ++ [message]) (quota w).

(** [reader.onload]: the record of one item. *)
Definition onload (item : FileWithRelativePath) (targetConversionType : string)
    (result : list byte) : ProcessedFile :=
  let originalPath := path item in
  {| fileId :=
       originalPath +:+ "-" +:+ String_of_Z (lastModified (file item))
                    +:+ "-" +:+ String_of_N (fileSize (file item));
     originalPath := originalPath;
     newPath := newPath_of originalPath targetConversionType;
     content := result;
     originalType := getFileType originalPath;
     newType := targetConversionType |}.

(** The promise made for one item: it is fulfilled by [onload], and
    rejected by [onerror] with [{ error, file }]. *)
Definition filePromise (targetConversionType : string)
    (item : FileWithRelativePath)
  : outcome ProcessedFile (DOMException * File) :=
  match readAsArrayBuffer (file item) with
  | Fulfilled result => Fulfilled (onload item targetConversionType result)
  | Rejected error => Rejected (error, file item)
  end.

(** [handleFileProcessing(items)], the reads completing in the order
    [schedule].  While [Promise.all] is pending nothing after the
    [await] runs. *)
Definition handleFileProcessing (schedule : list nat)
    (items : list FileWithRelativePath) (w : World) : World :=
  if length items =? 0 then setIsLoading false w
  else
    let w := setIsLoading true w in
    let filePromises :=
      map (filePromise (targetConversionType (state w))) items in
    match Promise_all filePromises schedule with
    | None => w
    | Some (Fulfilled newFiles) =>
        setIsLoading false (setView filesView (setProcessedFiles newFiles w))
    | Some (Rejected (_, f)) =>
        setIsLoading false
          (alert ("An error occurred while reading file: "
                  +:+ fileName f +:+ ".") w)
    end.

(** [handleDroppedItems(dataTransfer)]. *)
Definition handleDroppedItems (fuel : nat) (schedule : list nat)
    (dataTransfer : DataTransfer) (w : World) : World :=
  let w := setIsLoading true (setIsDragging false w) in
  match extractFilesFromDataTransfer fuel dataTransfer with
  | None => w
  | Some (Fulfilled items) => handleFileProcessing schedule items w
  | Some (Rejected _) =>
      setIsLoading false (alert "Could not read dropped items." w)
  end.

Definition handleClear (w : World) : World := setProcessedFiles [] w.

Definition ConversionOptions : list string :=
  ["ts"; "tsx"; "js"; "jsx"; "json"; "txt"; "html"; "css"; "md"]%string.

End App.

(** ** The chat panel ([ChatSidebar]) *)

Module Chat.
Import JS.

Inductive Role : Type := user | model.

Record Message : Type := {
  role : Role;
  text : string;
  image : option string
}.

(** The image picked for the next question: what reading it as a data
    URL ends in, its media type, and its object URL. *)
Record AttachedImage : Type := {
  readAsDataURL : outcome string App.DOMException;
  mimeType : string;
  url : string
}.

(** A part of the request's [contents]. *)
Inductive Part : Type :=
| inlineData (mimeType : string) (data : option string)
| textPart (text : string).

(** The body of a response as its reader delivers it: the chunks in
    arrival order, then the end of the stream ([done]) or a failed
    [read()] with the message of its error. *)
Record ReadableStream : Type := {
  chunks : list (list byte);
  ending : outcome unit string
}.

(** A response of the endpoint.  [json] is what [response.json()] ends
    in: the [error] member of the object read ([None] where it has
    none), or a rejection where the body is not JSON. *)
Record Response : Type := {
  ok : bool;
  statusText : string;
  json : outcome (option string) unit;
  body : option ReadableStream
}.

Record State : Type := {
  messages : list Message;
  input : string;
  isLoading : bool;
  attachedImage : option AttachedImage
}.

(** White space and line terminators among the code units 0..255. *)
Definition is_space (c : ascii) : bool :=
  let n := N_of_ascii c in
  ((9 <=? n) && (n <=? 13) || (n =? 32) || (n =? 160))%N.

Fixpoint trimStart (s : string) : string :=
  match s with
  | EmptyString => EmptyString
  | String c s' => if is_space c then trimStart s' else s
  end.

Fixpoint trimEnd (s : string) : string :=
  match s with
  | EmptyString => EmptyString
  | String c s' =>
      match trimEnd s' with
      | EmptyString => if is_space c then EmptyString else String c EmptyString
      | String _ _ as t => String c t
      end
  end.

Definition trim (s : string) : string := trimEnd (trimStart s).

Definition LF : string := String "010" EmptyString.

(** The texts one after another. *)
Definition concat_texts (texts : list string) : string :=
  fold_right String.append EmptyString texts.

(** [text.includes(x)], as a proposition. *)
Definition includes (text x : string) : Prop :=
  exists before after, text = before +:+ x +:+ after.

(** [fileToBase64]: the data URL after its first comma.  A failed read
    rejects with the event, which the handler prints with [String]. *)
Definition fileToBase64 (img : AttachedImage) : outcome (option string) string :=
  match readAsDataURL img with
  | Fulfilled result => Fulfilled (split "," result !! 1)
  | Rejected _ => Rejected "[object ProgressEvent]"%string
  end.

(** The updater of every chunk after the first: the last message, when
    it is the model's, gets the chunk appended. *)
Definition appendChunk (chunk : string) (prev : list Message) : list Message :=
  let lastMessageIndex := length prev - 1 in
  match prev !! lastMessageIndex with
  | Some m =>
      match role m with
      | model =>
          <[lastMessageIndex :=
              {| role := role m; text := text m +:+ chunk; image := image m |}]>
            prev
      | user => prev
      end
  | None => prev
  end.

Section Handler.

(** [new TextDecoder('utf-8').decode(buffer)] of the file context;
    [None] where it throws. *)
Variable TextDecoder_decode : list byte -> option string.

(** The decoder of the response: its state between chunks, the state of
    a new decoder, and [decode(value, { stream: true })]. *)
Context {Decoder : Type}.
Variable new_TextDecoder : Decoder.
Variable decode_stream : Decoder -> list byte -> string * Decoder.

(** [fetch('/api/chat', ...)] with the given [contents]: a response, or
    a rejection with the message of its error. *)
Variable fetch : list Part -> outcome Response string.

Definition decodeFileContent (buffer : list byte) : string :=
  default "[Error: Could not decode file content]"%string
          (TextDecoder_decode buffer).

Definition promptText_of (files : list App.ProcessedFile)
    (userMessageText : string) : string :=
  if 0 <? length files then
    let fileContents :=
      join (LF +:+ LF)
        (map (fun f =>
                "--- START OF FILE: " +:+ App.originalPath f +:+ " ---" +:+ LF
                +:+ decodeFileContent (App.content f) +:+ LF
                +:+ "--- END OF FILE: " +:+ App.originalPath f +:+ " ---")
             files) in
    "Based on the following file contents, please answer the user's question."
    +:+ LF +:+ LF +:+ "FILE CONTEXT:" +:+ LF +:+ fileContents
    +:+ LF +:+ LF +:+ "USER QUESTION:" +:+ LF +:+ userMessageText
  else userMessageText.

(** The [contents] of the request: the image part, when an image is
    attached, then the text part.  A failed read of the image throws. *)
Definition contents_of (files : list App.ProcessedFile)
    (tempAttachedImage : option AttachedImage) (userMessageText : string)
  : outcome (list Part) string :=
  let image_part :=
    match tempAttachedImage with
    | Some img =>
        match fileToBase64 img with
        | Fulfilled base64Image =>
            Fulfilled [inlineData (mimeType img) base64Image]
        | Rejected e => Rejected e
        end
    | None => Fulfilled []
    end in
  match image_part with
  | Rejected e => Rejected e
  | Fulfilled contents =>
      Fulfilled (contents ++ [textPart (promptText_of files userMessageText)])
  end.

(** The texts the decoder yields for the chunks, one per chunk. *)
Fixpoint decoded (decoder : Decoder) (chunks : list (list byte)) : list string :=
  match chunks with
  | [] => []
  | value :: chunks =>
      let (chunk, decoder) := decode_stream decoder value in
      chunk :: decoded decoder chunks
  end.

(** The [while (true)] loop over [reader.read()]: the messages after
    the last update, and the message of the error thrown, if any. *)
Fixpoint readLoop (decoder : Decoder) (isFirstChunk : bool)
    (chunks : list (list byte)) (ending : outcome unit string)
    (messages : list Message) : list Message * option string :=
  match chunks with
  | [] =>
      (messages,
       match ending with Fulfilled _ => None | Rejected e => Some e end)
  | value :: chunks =>
      let (chunk, decoder) := decode_stream decoder value in
      if isFirstChunk then
        readLoop decoder false chunks ending
                 (messages ++ [{| role := model; text := chunk; image := None |}])
      else
        readLoop decoder false chunks ending (appendChunk chunk messages)
  end.

(** The message of the error thrown for a response that is not [ok] or
    has no body. *)
Definition responseError (response : Response) : string :=
  let errorBody_error :=
    match json response with
    | Fulfilled error => error
    | Rejected _ => Some "Failed to parse error response."%string
    end in
  or_else (or_else (default EmptyString errorBody_error) (statusText response))
          "Failed to get a response from the server.".

(** The [try] block: the messages after it, and the message of the
    error it threw, if any. *)
Definition tryBlock (files : list App.ProcessedFile)
    (tempAttachedImage : option AttachedImage) (userMessageText : string)
    (messages : list Message) : list Message * option string :=
  match contents_of files tempAttachedImage userMessageText with
  | Rejected e => (messages, Some e)
  | Fulfilled contents =>
      match fetch contents with
      | Rejected e => (messages, Some e)
      | Fulfilled response =>
          match ok response, body response with
          | true, Some stream =>
              readLoop new_TextDecoder true (chunks stream) (ending stream)
                       messages
          | _, _ => (messages, Some (responseError response))
          end
      end
  end.

(** [handleSendMessage]. *)
Definition handleSendMessage (files : list App.ProcessedFile) (st : State)
  : State :=
  if (negb (Boolean (trim (input st))) && negb (bool_decide (is_Some (attachedImage st))))
     || isLoading st
  then st
  else
    let userMessageText := trim (input st) in
    let userMessage :=
      {| role := user; text := userMessageText;
         image := url <$> attachedImage st |} in
    let messages := messages st ++ [userMessage] in
    let tempAttachedImage := attachedImage st in
    let (messages, thrown) :=
      tryBlock files tempAttachedImage userMessageText messages in
    let messages :=
      match thrown with
      | Some errorMessageText =>
          messages ++
          [{| role := model;
              text := "Sorry, an error occurred: " +:+ errorMessageText;
              image := None |}]
      | None => messages
      end in
    {| messages := messages; input := EmptyString; isLoading := false;
       attachedImage := None |}.

End Handler.

End Chat.

(** ** The renaming as the specification words it *)

(** "[newPath] is [originalPath] with only the final extension segment
    replaced; directory segments are preserved verbatim", and "if no
    ['.'] exists, the whole leaf is the base".  These definitions work
    on the text of the path, with no splitting and joining, and are what
    the code of [App.newPath_of] is compared with. *)

Module RenameSpec.
Import JS.

(** The text up to and with the last [c]; empty when there is none. *)
Fixpoint upto_last (c : ascii) (s : string) : string :=
  match s with
  | EmptyString => EmptyString
  | String a s' => if has_char c s then String a (upto_last c s') else EmptyString
  end.

(** The text after the last [c]; all of it when there is none. *)
Fixpoint after_last (c : ascii) (s : string) : string :=
  match s with
  | EmptyString => EmptyString
  | String a s' => if has_char c s then after_last c s' else s
  end.

(** The text before the last [c]; all of it when there is none. *)
Fixpoint before_last (c : ascii) (s : string) : string :=
  match s with
  | EmptyString => EmptyString
  | String a s' =>
      if has_char c s' then String a (before_last c s')
      else if Ascii.eqb a c then EmptyString
      else s
  end.

Definition directory (p : string) : string := upto_last "/" p.
Definition leaf (p : string) : string := after_last "/" p.
Definition base (p : string) : string := before_last "." (leaf p).

(** The path with only the extension of its leaf replaced by [e]. *)
Definition replace_extension (p e : string) : string :=
  directory p +:+ base p +:+ "." +:+ e.

(** The path has no empty directory segment: it does not start with
    ['/'], and no ['/'] follows another. *)
Definition no_empty_directory (p : string) : bool :=
  forallb Boolean (snd (pop (split "/" p))).

(** Two notions of the proofs: the name parts the code keeps (all but
    the last of two or more), and directory segments written out, each
    followed by the separator. *)
Definition kept (nameParts : list string) : list string :=
  if 1 <? length nameParts then snd (pop nameParts) else nameParts.

Definition with_slashes (sep : ascii) (dirs : list string) : string :=
  fold_right (fun d acc => d +:+ String sep acc) EmptyString dirs.

End RenameSpec.

(** ** Sample data *)

(** Files, drops, worlds and responses that the worked examples below
    are stated on. *)

Module Sample.
Import JS App.

Definition bytes (s : string) : list byte := list_byte_of_string s.

Definition readme : File :=
  {| fileName := "README.md"; fileSize := 5; lastModified := 1700000000000;
     readAsArrayBuffer := Fulfilled (bytes "hello") |}.

Definition button : File :=
  {| fileName := "Button.tsx"; fileSize := 3; lastModified := 1700000000001;
     readAsArrayBuffer := Fulfilled (bytes "tsx") |}.

Definition locked : File :=
  {| fileName := "locked.bin"; fileSize := 9; lastModified := 1700000000002;
     readAsArrayBuffer := Rejected "NotReadableError"%string |}.

Definition empty : File :=
  {| fileName := "empty.txt"; fileSize := 0; lastModified := 1700000000003;
     readAsArrayBuffer := Fulfilled [] |}.

Definition two_items : list FileWithRelativePath :=
  [ {| file := button; path := "src/components/Button.tsx" |};
    {| file := readme; path := "README.md" |} ].

Definition three_items : list FileWithRelativePath :=
  [ {| file := button; path := "src/components/Button.tsx" |};
    {| file := locked; path := "locked.bin" |};
    {| file := readme; path := "README.md" |} ].

Definition doubled_slash : FileWithRelativePath :=
  {| file := readme; path := "a//b.txt" |}.

(** A quota of five MiB of code units. *)
Definition five_MiB (store : gmap string string) : bool :=
  (used store <=? 5242880)%N.

Definition fresh : World :=
  {| state := {| processedFiles := []; view := upload;
                 targetConversionType := "ts";
                 isDragging := false; isLoading := false |};
     localStorage := ∅;
     alerts := [];
     quota := five_MiB |}.

(** A world that holds one record already. *)
Definition old_record : ProcessedFile :=
  onload {| file := readme; path := "README.md" |} "md" (bytes "hello").

Definition loaded : World := setProcessedFiles [old_record] fresh.

(** A directory whose reader returns two batches, then the empty one. *)
Definition first_batch : list Entry :=
  [FileEntry "/docs/README.md" (Fulfilled readme)].
Definition second_batch : list Entry :=
  [FileEntry "/docs/Button.tsx" (Fulfilled button); OtherEntry].
Definition two_batches : list (outcome (list Entry) DOMException) :=
  [Fulfilled first_batch; Fulfilled second_batch; Fulfilled []].

(** One dropped file of no bytes, as an entry and in the flat list. *)
Definition drop_with_entries : DataTransfer :=
  {| items := [ {| webkitGetAsEntry :=
                     Some (Some (FileEntry "/empty.txt" (Fulfilled empty))) |} ];
     files := [empty] |}.

Definition drop_without_entries : DataTransfer :=
  {| items := [ {| webkitGetAsEntry := None |} ];
     files := [empty] |}.

(** A decoder of one code unit per byte, with nothing to remember. *)
Definition latin1 (buffer : list byte) : option string :=
  Some (string_of_list_byte buffer).
Definition latin1_stream (_ : unit) (value : list byte) : string * unit :=
  (string_of_list_byte value, tt).

Definition asking : Chat.State :=
  {| Chat.messages := []; Chat.input := " hi "; Chat.isLoading := false;
     Chat.attachedImage := None |}.

Definition hello_world : Chat.Response :=
  {| Chat.ok := true; Chat.statusText := "OK"; Chat.json := Rejected tt;
     Chat.body :=
       Some {| Chat.chunks := [bytes "> "; bytes "Hel"; bytes "lo wo"; bytes "rld"];
               Chat.ending := Fulfilled tt |} |}.

Definition nothing : Chat.Response :=
  {| Chat.ok := true; Chat.statusText := "OK"; Chat.json := Rejected tt;
     Chat.body := Some {| Chat.chunks := []; Chat.ending := Fulfilled tt |} |}.

Definition no_key : Chat.Response :=
  {| Chat.ok := false; Chat.statusText := "Internal Server Error";
     Chat.json :=
       Fulfilled (Some "API_KEY environment variable not set on the server."%string);
     Chat.body := Some {| Chat.chunks := []; Chat.ending := Fulfilled tt |} |}.

Definition answering (response : Chat.Response) (_ : list Chat.Part)
  : outcome Chat.Response string := Fulfilled response.

End Sample.

(** ** The rest of [App]: settings, file picker, downloads, dragging *)

Module Shell.
Import JS App.

(** *** The settings kept in [localStorage] *)

Definition fileConverterTargetType : string := "fileConverterTargetType".
Definition fileConverterPreserveFolders : string :=
  "fileConverterPreserveFolders".

(** [String(b)] on a boolean. *)
Definition String_of_bool (b : bool) : string :=
  if b then "true" else "false".

(** The component as a whole: the world of [App.World], the check box
    [preserveFolders] and the counter of the drag handlers (a [useRef]). *)
Record Component : Type := {
  world : World;
  preserveFolders : bool;
  dragCounter : Z
}.

(** What the first render ends in: the application, alive; no
    application; or a working set that is not modelled. *)
Inductive Rendered : Type :=
| Live (c : Component)
| Removed
| Unmodelled.

(** The first render on the store [store] with the quota [quota]: the
    initialisers of [useState], then the three effects in the order
    they are declared in.  The first effect saves the state, with the
    error of a write caught, and sets the view, whatever it was at
    first.  The other two write the settings and catch nothing: where
    [setItem] throws, React, with no error boundary in the application,
    removes the application. *)
Definition mount (quota : gmap string string -> bool)
    (store : gmap string string) : Rendered :=
  match loadStateFromLocalStorage store with
  | None => Unmodelled
  | Some processedFiles =>
      let view := if 0 <? length processedFiles then filesView else upload in
      let targetConversionType :=
        or_else (default EmptyString (store !! fileConverterTargetType)) "ts" in
      let preserveFolders :=
        negb (bool_decide (store !! fileConverterPreserveFolders
                           = Some "false"%string)) in
      let store := saveStateToLocalStorage quota processedFiles store in
      let view := if length processedFiles =? 0 then upload else filesView in
      match setItem quota fileConverterTargetType targetConversionType store with
      | None => Removed
      | Some store =>
          match setItem quota fileConverterPreserveFolders
                        (String_of_bool preserveFolders) store with
          | None => Removed
          | Some store =>
              Live {| world :=
                        {| state := {| processedFiles := processedFiles;
                                       view := view;
                                       targetConversionType := targetConversionType;
                                       isDragging := false; isLoading := false |};
                           localStorage := store;
                           alerts := [];
                           quota := quota |};
                      preserveFolders := preserveFolders;
                      dragCounter := 0 |}
          end
      end
  end.

(** A handler of [App.World] run in the component. *)
Definition in_world (handler : World -> World) (c : Component) : Component :=
  {| world := handler (world c);
     preserveFolders := preserveFolders c;
     dragCounter := dragCounter c |}.

(** [setTargetConversionType], with the effect that writes the setting.
    A state that is the same gives no render and no effect; [None]
    where the write throws and the application is removed. *)
Definition setTargetConversionType (newType : string) (c : Component)
  : option Component :=
  let w := world c in
  let st := state w in
  if String.eqb newType (targetConversionType st) then Some c
  else
    match setItem (quota w) fileConverterTargetType newType (localStorage w) with
    | None => None
    | Some store =>
        Some {| world :=
                  Build_World
                    (Build_State (processedFiles st) (view st) newType
                                 (isDragging st) (isLoading st))
                    store (alerts w) (quota w);
                preserveFolders := preserveFolders c;
                dragCounter := dragCounter c |}
    end.

(** [setPreserveFolders], with the effect that writes the setting. *)
Definition setPreserveFolders (value : bool) (c : Component)
  : option Component :=
  let w := world c in
  if Bool.eqb value (preserveFolders c) then Some c
  else
    match setItem (quota w) fileConverterPreserveFolders (String_of_bool value)
                  (localStorage w) with
    | None => None
    | Some store =>
        Some {| world := Build_World (state w) store (alerts w) (quota w);
                preserveFolders := value;
                dragCounter := dragCounter c |}
    end.


(** *** The file picker *)

(** A file of the [<input>]: the [File] and its [webkitRelativePath]
    (empty unless a directory was picked). *)
Record PickedFile : Type := {
  picked : File;
  webkitRelativePath : string
}.

(** The [filesWithPaths] of [handleFileChange]. *)
Definition filesWithPaths (files : list PickedFile)
  : list FileWithRelativePath :=
  map (fun file =>
         {| file := picked file;
            path := or_else (webkitRelativePath file) (fileName (picked file)) |})
      (List.filter
         (fun file =>
            negb (String.eqb (webkitRelativePath file) EmptyString
                  && startsWith (fileName (picked file)) "."))
         files).

(** [handleFileChange]; [files] is [e.target.files], [None] for
    [null]. *)
Definition handleFileChange (schedule : list nat)
    (files : option (list PickedFile)) (w : World) : World :=
  match files with
  | Some ((_ :: _) as files) =>
      handleFileProcessing schedule (filesWithPaths files) w
  | _ => w
  end.

(** *** Downloads *)

(** The name a record gets in the archive. *)
Definition zipPath (preserveFolders : bool) (file : ProcessedFile) : string :=
  if preserveFolders then newPath file
  else or_else (default EmptyString (fst (pop (split "/" (newPath file)))))
               (newPath file).

(** The [forEach] of [handleDownloadZip]: the file entries of the
    archive [zip], by name, after the calls of [zip.file] for the
    records ([zip.file(name, data)] adds the file, or replaces the one
    of that name).  The folder entries JSZip adds for the parents of a
    name are entries of another kind, and are not in the map. *)
Definition zipped (preserveFolders : bool) (zip : gmap string (list byte))
    (files : list ProcessedFile) : gmap string (list byte) :=
  foldl (fun zip file => <[zipPath preserveFolders file := content file]> zip)
        zip files.

(** [handleDownloadZip]: the file entries of the [JSZip] object handed
    to [generateAsync]; [None] where the handler returns at once.  The
    download of the blob is not modelled. *)
Definition handleDownloadZip (preserveFolders : bool)
    (processedFiles : list ProcessedFile) : option (gmap string (list byte)) :=
  if length processedFiles =? 0 then None
  else Some (zipped preserveFolders ∅ processedFiles).

(** [handleSingleFileDownload]: the [download] name of the link and the
    bytes of the blob. *)
Definition handleSingleFileDownload (file : ProcessedFile)
  : string * list byte :=
  (or_else (default EmptyString (fst (pop (split "/" (newPath file)))))
           "downloaded-file",
   content file).

Definition LF : string := String "010" EmptyString.

Section CombinedText.
(** [new TextDecoder('utf-8').decode(buffer)]: this decoder does not
    throw. *)
Variable TextDecoder_decode : list byte -> string.

(** [handleDownloadAsTxt]: the text of the blob; [None] where the
    handler returns at once. *)
Definition handleDownloadAsTxt (processedFiles : list ProcessedFile)
  : option string :=
  if length processedFiles =? 0 then None
  else
    let combinedContent :=
      "Generated by File Converter & AI Analyst" +:+ LF +:+ LF in
    Some (fold_left
            (fun combinedContent file =>
               let combinedContent :=
                 combinedContent
                 +:+ ("--- START OF FILE: " +:+ originalPath file +:+ " ---"
                      +:+ LF +:+ LF) in
               let combinedContent :=
                 combinedContent +:+ TextDecoder_decode (content file) in
               combinedContent
               +:+ (LF +:+ LF +:+ "--- END OF FILE: " +:+ originalPath file
                    +:+ " ---" +:+ LF +:+ LF))
            processedFiles combinedContent).

(** One section of the combined text. *)
Definition section_of (file : ProcessedFile) : string :=
  "--- START OF FILE: " +:+ originalPath file +:+ " ---" +:+ LF +:+ LF
  +:+ TextDecoder_decode (content file)
  +:+ LF +:+ LF +:+ "--- END OF FILE: " +:+ originalPath file +:+ " ---"
  +:+ LF +:+ LF.
End CombinedText.

(** *** The drag handlers of the window *)

(** [handleDragEnter]; [hasItems] is [e.dataTransfer?.items?.length]. *)
Definition handleDragEnter (hasItems : bool) (c : Component) : Component :=
  {| world := if hasItems then setIsDragging true (world c) else world c;
     preserveFolders := preserveFolders c;
     dragCounter := (dragCounter c + 1)%Z |}.

Definition handleDragLeave (c : Component) : Component :=
  let current := (dragCounter c - 1)%Z in
  {| world := if (current =? 0)%Z then setIsDragging false (world c)
              else world c;
     preserveFolders := preserveFolders c;
     dragCounter := current |}.


(** The events of a drag over the window that ends without a drop. *)
Inductive DragEvent : Type := dragenter (hasItems : bool) | dragleave.

Definition on_drag (c : Component) (e : DragEvent) : Component :=
  match e with
  | dragenter hasItems => handleDragEnter hasItems c
  | dragleave => handleDragLeave c
  end.

(** The elements entered and not left after the events. *)
Definition depth (events : list DragEvent) : Z :=
  foldl (fun n e => match e with
                    | dragenter _ => n + 1
                    | dragleave => n - 1
                    end%Z) 0%Z events.

(** *** The handlers, as steps of the component *)




End Shell.

(** ** Entries with names, and entries that cannot be read *)

Module Walk.
Import JS App.

(** The replies of a reader that the walk reads: non-empty batches,
    then what ends the reading. *)
Definition batches_then (batches : list (list Entry))
    (rest : list (outcome (list Entry) DOMException))
  : list (outcome (list Entry) DOMException) :=
  (Fulfilled <$> batches) ++ rest.

(** The path a file entry gets in [getFilesFromEntry]. *)
Definition entryPath (fullPath : string) : string :=
  if startsWith fullPath "/" then substring1 fullPath else fullPath.

(** [named e]: the full path of every file entry under [e] is made of
    names that are not empty, as the paths of the browser are: the path
    the entry gets has no empty directory segment. *)
Fixpoint named (entry : Entry) : bool :=
  match entry with
  | FileEntry fullPath _ => RenameSpec.no_empty_directory (entryPath fullPath)
  | DirectoryEntry _ reader =>
      forallb (fun reply => match reply with
                            | Fulfilled entries => forallb named entries
                            | Rejected _ => true
                            end) reader
  | OtherEntry => true
  end.

(** A drop whose entries are [named], and whose files have a name that
    is no path with an empty directory segment (the name of a [File]
    has no ['/'] at all). *)
Definition named_drop (dataTransfer : DataTransfer) : bool :=
  forallb (fun item => match webkitGetAsEntry item with
                       | Some (Some entry) => named entry
                       | _ => true
                       end) (items dataTransfer)
  && forallb (fun f => RenameSpec.no_empty_directory (fileName f))
             (files dataTransfer).

(** [unreadable e]: the walk of [e] meets a file whose [File] cannot be
    got, or a directory whose reader fails. *)
Inductive unreadable : Entry -> Prop :=
| unreadable_file fullPath e :
    unreadable (FileEntry fullPath (Rejected e))
| unreadable_directory fullPath batches e rest :
    Forall (fun entries => entries <> []) batches ->
    unreadable (DirectoryEntry fullPath (batches_then batches (Rejected e :: rest)))
| unreadable_child fullPath batches rest child :
    Forall (fun entries => entries <> []) batches ->
    rest = [] \/ (exists rest', rest = Fulfilled [] :: rest') ->
    In child (concat batches) ->
    unreadable child ->
    unreadable (DirectoryEntry fullPath (batches_then batches rest)).

End Walk.

(** ** The stored conversation ([ChatSidebar]) *)

Module ChatStore.
Import JS Chat.

Definition chatHistory : string := "chatHistory".

Definition role_name (r : Role) : string :=
  match r with user => "user" | model => "model" end.

(** A message as [JSON.stringify] writes it: a member that is
    [undefined] is left out. *)
Definition serializable (m : Message) : JSON.object :=
  [("role", role_name (role m)); ("text", text m)]%string
  ++ match image m with
     | Some i => [("image"%string, i)]
     | None => []
     end.

(** The error of [setItem] is caught and logged: the store is then as
    it was. *)
Definition saveChatToLocalStorage (quota : gmap string string -> bool)
    (messages : list Message)
    (localStorage : gmap string string) : gmap string string :=
  if length messages =? 0 then delete chatHistory localStorage
  else
    match App.setItem quota chatHistory
                      (JSON.stringify (map serializable messages))
                      localStorage with
    | Some stored => stored
    | None => localStorage
    end.

Definition role_of (s : string) : option Role :=
  if String.eqb s "user" then Some user
  else if String.eqb s "model" then Some model
  else None.

(** An object read as a [Message], as the panel builds them: the
    members [role] and [text], then [image] or nothing, and a role that
    is one of the two; [None] where it is not one. *)
Definition message_of (o : JSON.object) : option Message :=
  if bool_decide (map fst o = ["role"; "text"]%string)
     || bool_decide (map fst o = ["role"; "text"; "image"]%string)
  then
    match App.member "role" o, App.member "text" o with
    | Some r, Some t =>
        match role_of r with
        | Some r => Some {| role := r; text := t; image := App.member "image" o |}
        | None => None
        end
    | _, _ => None
    end
  else None.

(** [loadChatFromLocalStorage].  The code returns what [JSON.parse]
    returns, without a check.  [None] is no answer of the code: the
    text stored is not an array of messages (then [JSON.parse] throws
    and the answer is the empty array, or it returns a value that is no
    list of messages, and that value is the answer). *)
Definition loadChatFromLocalStorage (localStorage : gmap string string)
  : option (list Message) :=
  match localStorage !! chatHistory with
  | Some savedState =>
      if Boolean savedState then
        match JSON.parse savedState with
        | Some doc => mapM message_of doc
        | None => None
        end
      else Some []
  | None => Some []
  end.

End ChatStore.

(** Two notions of the proofs about [handleSendMessage]: the message
    thrown at the end of a stream, and a message of the model without
    an image. *)
Module Sending.
Import JS Chat.

Definition thrown_at (ending : outcome unit string) : option string :=
  match ending with Fulfilled _ => None | Rejected e => Some e end.

Definition answer (text : string) : Message :=
  {| role := model; text := text; image := None |}.

End Sending.

(** ** The chat endpoint ([POST] of the api route) *)

Module Api.
Import JS.

(** The request: what the first statement of the [try] block ends in.
    A body that is not JSON (or is [null]) makes it throw, with a
    message; else [contents] is read ([None] where it is missing or
    falsy). *)
Record Request : Type := {
  json : outcome (option (list Chat.Part)) string
}.

(** The environment of the server: the key, and the call of the model
    with a key and the parts.  The call resolves with a stream, given
    here by [chunk.text] of each of its chunks ([None] is [undefined]),
    or throws with a message; a stream whose iteration throws is not
    modelled. *)
Record Env : Type := {
  API_KEY : option string;
  generateContentStream :
    string -> list Chat.Part -> outcome (list (option string)) string
}.

Inductive Body : Type :=
| JsonBody (text : string)
| StreamBody (stream : Chat.ReadableStream).

Record Response : Type := {
  status : nat;
  contentType : string;
  body : Body
}.

(** [JSON.stringify({ error })]. *)
Definition error_object (error : string) : string :=
  JSON.stringify_object [("error"%string, error)].

Definition json_response (status : nat) (error : string) : Response :=
  {| status := status; contentType := "application/json";
     body := JsonBody (error_object error) |}.

(** The response of the [catch] block. *)
Definition caught (message : string) : Response :=
  json_response 500
    ("An error occurred on the server: " +:+ or_else message "Unknown error").

Section Server.
(** [new TextEncoder().encode(text)]. *)
Variable TextEncoder_encode : string -> list byte.

(** The texts that are enqueued: [if (text)] lets neither [undefined]
    nor the empty text through. *)
Definition enqueued (texts : list (option string)) : list string :=
  omap (fun text =>
          match text with
          | Some text => if Boolean text then Some text else None
          | None => None
          end) texts.

(** The stream of the response: one chunk per text enqueued, then
    [close]. *)
Definition readableStream (apiStream : list (option string))
  : Chat.ReadableStream :=
  {| Chat.chunks := map TextEncoder_encode (enqueued apiStream);
     Chat.ending := Fulfilled tt |}.

Definition POST (env : Env) (req : Request) : Response :=
  match json req with
  | Rejected message => caught message
  | Fulfilled contents =>
      let apiKey := default EmptyString (API_KEY env) in
      if negb (Boolean apiKey) then
        json_response 500 "API_KEY environment variable not set on the server."
      else
        match contents with
        | None =>
            json_response 400
              ("Missing " +:+ String JSON.quotation_mark "contents"
               +:+ String JSON.quotation_mark " in request body")
        | Some contents =>
            match generateContentStream env apiKey contents with
            | Rejected message => caught message
            | Fulfilled apiStream =>
                {| status := 200;
                   contentType := "text/plain; charset=utf-8";
                   body := StreamBody (readableStream apiStream) |}
            end
        end
  end.

(** The response as the page gets it from [fetch]; the status text is
    the transport's.  [response.json()] reads an object and gives its
    [error] member; the page calls it on a response that is not [ok]
    only, so for a streamed body it is left as failing. *)
Definition received (statusText : string) (r : Response) : Chat.Response :=
  {| Chat.ok := (200 <=? status r) && (status r <=? 299);
     Chat.statusText := statusText;
     Chat.json :=
       match body r with
       | JsonBody text =>
           match JSON.parse_object (String.length text) text with
           | Some (o, rest) =>
               match JSON.skip_whitespace rest with
               | EmptyString => Fulfilled (App.member "error" o)
               | String _ _ => Rejected tt
               end
           | None => Rejected tt
           end
       | StreamBody _ => Rejected tt
       end;
     Chat.body :=
       Some match body r with
            | JsonBody text =>
                {| Chat.chunks := [TextEncoder_encode text];
                   Chat.ending := Fulfilled tt |}
            | StreamBody stream => stream
            end |}.

(** [fetch('/api/chat', ...)] answered by [POST]: the body
    [JSON.stringify({ contents })] is read back by [req.json()] as the
    parts it was written from. *)
Definition fetch (env : Env) (statusText : string) (contents : list Chat.Part)
  : outcome Chat.Response string :=
  Fulfilled
    (received statusText (POST env {| json := Fulfilled (Some contents) |})).
End Server.

End Api.

(** ** More sample data *)

Module Fixtures.
Import JS App.

(** Two records with the same leaf name in two directories. *)
Definition index_a : ProcessedFile :=
  onload {| file := Sample.button; path := "a/index.js" |} "ts" (Sample.bytes "A").
Definition index_b : ProcessedFile :=
  onload {| file := Sample.readme; path := "b/index.js" |} "ts" (Sample.bytes "B").

(** A hidden file and a file of no bytes, picked with their directory. *)
Definition picked_directory : list Shell.PickedFile :=
  [ {| Shell.picked :=
         {| fileName := ".env"; fileSize := 0; lastModified := 1;
            readAsArrayBuffer := Fulfilled [] |};
       Shell.webkitRelativePath := "proj/.env" |};
    {| Shell.picked := Sample.readme;
       Shell.webkitRelativePath := "proj/README.md" |} ].

(** A directory with a file that cannot be read, two levels down. *)
Definition broken_tree : Entry :=
  DirectoryEntry "/top"
    [ Fulfilled [ FileEntry "/top/ok.txt" (Fulfilled Sample.readme);
                  DirectoryEntry "/top/sub"
                    [ Fulfilled [FileEntry "/top/sub/bad.bin"
                                           (Rejected "NotFoundError"%string)] ] ] ].

Definition broken_drop : DataTransfer :=
  {| items := [ {| webkitGetAsEntry := Some (Some broken_tree) |} ];
     files := [] |}.

(** Three items, the reads of the last two failing. *)
Definition gone : File :=
  {| fileName := "gone.bin"; fileSize := 7; lastModified := 1700000000004;
     readAsArrayBuffer := Rejected "NotFoundError"%string |}.

Definition two_failures : list FileWithRelativePath :=
  [ {| file := Sample.button; path := "Button.tsx" |};
    {| file := Sample.locked; path := "locked.bin" |};
    {| file := gone; path := "gone.bin" |} ].

(** The directory [docs] of two files, dropped. *)
Definition docs_drop : DataTransfer :=
  {| items := [ {| webkitGetAsEntry :=
                     Some (Some (DirectoryEntry "/docs" Sample.two_batches)) |} ];
     files := [] |}.

(** A world whose store holds forty code units and no more. *)
Definition forty (store : gmap string string) : bool := (used store <=? 40)%N.

Definition full : World :=
  {| state := state Sample.fresh; localStorage := ∅; alerts := [];
     quota := forty |}.

(** The application after its first render on an empty store of five
    MiB, then with the target type set to [md], the check box cleared
    and the directory [docs] dropped. *)
Definition mounted : Shell.Component :=
  {| Shell.world :=
       {| state := state Sample.fresh;
          localStorage :=
            <[Shell.fileConverterPreserveFolders := "true"%string]>
              (<[Shell.fileConverterTargetType := "ts"%string]> ∅);
          alerts := [];
          quota := Sample.five_MiB |};
     Shell.preserveFolders := true;
     Shell.dragCounter := 0 |}.

Definition retargeted : Shell.Component :=
  default mounted (Shell.setTargetConversionType "md" mounted).

Definition unchecked : Shell.Component :=
  default retargeted (Shell.setPreserveFolders false retargeted).

Definition dropped_in : Shell.Component :=
  Shell.in_world (handleDroppedItems 5 [1; 0] docs_drop) unchecked.

(** The application after a reload on the store left there. *)
Definition reloaded : Shell.Component :=
  {| Shell.world :=
       {| state := {| processedFiles := processedFiles (state (Shell.world dropped_in));
                      view := filesView;
                      targetConversionType := "md";
                      isDragging := false; isLoading := false |};
          localStorage := localStorage (Shell.world dropped_in);
          alerts := [];
          quota := Sample.five_MiB |};
     Shell.preserveFolders := false;
     Shell.dragCounter := 0 |}.

(** A stored record whose content is not base64, and one without a
    content. *)
Definition bad_content : JSON.object :=
  [ ("id", "a.txt-1-2"); ("originalPath", "a.txt"); ("newPath", "a.ts");
    ("content", "S*Vs"); ("originalType", "txt"); ("newType", "ts") ]%string.

Definition no_content : JSON.object :=
  [ ("id", "a.txt-1-2"); ("originalPath", "a.txt"); ("newPath", "a.ts");
    ("originalType", "txt"); ("newType", "ts") ]%string.

(** A question with an image, and its answer. *)
Definition conversation : list Chat.Message :=
  [ {| Chat.role := Chat.user; Chat.text := "What is this?";
       Chat.image := Some "data:image/png;base64,iVBORw0KGgo="%string |};
    {| Chat.role := Chat.model; Chat.text := "A <b>logo</b>.";
       Chat.image := None |} ].

(** A response whose stream fails after two chunks. *)
Definition cut_off : Chat.Response :=
  {| Chat.ok := true; Chat.statusText := "OK"; Chat.json := Rejected tt;
     Chat.body :=
       Some {| Chat.chunks := [Sample.bytes "Hel"; Sample.bytes "lo"];
               Chat.ending := Rejected "network error"%string |} |}.

(** A server with a key whose model answers in four chunks, two of them
    without a text. *)
Definition answering_server : Api.Env :=
  {| Api.API_KEY := Some "secret"%string;
     Api.generateContentStream := fun _ _ =>
       Fulfilled [Some "Hel"; None; Some EmptyString; Some "lo"]%string |}.

Definition keyless_server : Api.Env :=
  {| Api.API_KEY := None;
     Api.generateContentStream := fun _ _ => Fulfilled [] |}.

(** A server whose call of the model throws an error without a
    message. *)
Definition failing_server : Api.Env :=
  {| Api.API_KEY := Some "secret"%string;
     Api.generateContentStream := fun _ _ => Rejected EmptyString |}.

End Fixtures.

(* ================================================================= *)
(** * Properties *)

(** ** Splitting and joining *)

Module JSFacts.
Import JS.
#[local] Arguments String.append : simpl nomatch.

Lemma append_nil_r (s : string) : s +:+ EmptyString = s.
Proof. induction s as [|a s IH]; cbn; [reflexivity | now f_equal]. Qed.

Lemma append_assoc (s t u : string) : (s +:+ t) +:+ u = s +:+ (t +:+ u).
Proof. induction s as [|a s IH]; cbn; [reflexivity | now f_equal]. Qed.

Lemma has_char_app c (s t : string) :
  has_char c (s +:+ t) = has_char c s || has_char c t.
Proof.
  induction s as [|a s IH]; simpl; [reflexivity |].
  destruct (Ascii.eqb a c); [reflexivity | exact IH].
Qed.

Lemma split_nonempty sep s : split sep s <> [].
Proof.
  destruct s as [|a s]; simpl; [discriminate |].
  destruct (Ascii.eqb a sep); [discriminate |].
  destruct (split sep s); discriminate.
Qed.

Lemma split_cons_other sep a s :
  Ascii.eqb a sep = false ->
  exists h t, split sep s = h :: t /\ split sep (String a s) = String a h :: t.
Proof.
  intros Ha. simpl. rewrite Ha.
  destruct (split sep s) as [|h t] eqn:E.
  - now destruct (split_nonempty sep s).
  - now exists h, t.
Qed.

(** A string without the separator is its own single segment. *)
Lemma split_free sep s : has_char sep s = false -> split sep s = [s].
Proof.
  induction s as [|a s IH]; simpl; [reflexivity |].
  destruct (Ascii.eqb a sep); [discriminate |].
  intros H. now rewrite (IH H).
Qed.

(** No segment contains the separator. *)
Lemma split_segments_free sep s :
  Forall (fun x => has_char sep x = false) (split sep s).
Proof.
  induction s as [|a s IH]; simpl.
  - repeat constructor.
  - destruct (Ascii.eqb a sep) eqn:Ha.
    + constructor; [reflexivity | exact IH].
    + destruct (split sep s) as [|h t]; [repeat constructor; simpl; now rewrite Ha |].
      inversion IH; subst. constructor; [simpl; now rewrite Ha | assumption].
Qed.

(** Splitting at the first separator, after a separator-free prefix. *)
Lemma split_app_sep sep (a s : string) :
  has_char sep a = false ->
  split sep (a +:+ String sep s) = a :: split sep s.
Proof.
  induction a as [|x a IH]; simpl.
  - intros _. now rewrite Ascii.eqb_refl.
  - destruct (Ascii.eqb x sep); [discriminate |].
    intros H. now rewrite (IH H).
Qed.

(** [split] undoes [join] on a non-empty array of separator-free strings. *)
Lemma split_join sep (l : list string) :
  l <> [] ->
  Forall (fun x => has_char sep x = false) l ->
  split sep (join (String sep EmptyString) l) = l.
Proof.
  induction l as [|x l IH]; [congruence |].
  intros _ Hall. inversion Hall as [|? ? Hx Hl]; subst.
  destruct l as [|y l].
  - simpl. now apply split_free.
  - change (join (String sep EmptyString) (x :: y :: l))
      with (x +:+ String sep (join (String sep EmptyString) (y :: l))).
    rewrite (split_app_sep _ _ _ Hx). f_equal. apply IH; [discriminate | assumption].
Qed.

(** [join] undoes [split]. *)
Lemma join_split sep s : join (String sep EmptyString) (split sep s) = s.
Proof.
  induction s as [|a s IH]; simpl; [reflexivity |].
  destruct (Ascii.eqb a sep) eqn:Ha.
  - apply Ascii.eqb_eq in Ha. subst a.
    destruct (split sep s) as [|h t] eqn:E; [now destruct (split_nonempty sep s) |].
    simpl. simpl in IH. now rewrite IH.
  - destruct (split sep s) as [|h t] eqn:E; [now destruct (split_nonempty sep s) |].
    destruct t as [|h' t]; simpl in *; now rewrite IH.
Qed.

Lemma join_snoc sep (l : list string) x :
  l <> [] -> join sep (l ++ [x]) = join sep l +:+ sep +:+ x.
Proof.
  induction l as [|y l IH]; [congruence |]. intros _.
  destruct l as [|z l]; [reflexivity |].
  change (join sep ((y :: z :: l) ++ [x]))
    with (y +:+ sep +:+ join sep ((z :: l) ++ [x])).
  rewrite IH by discriminate.
  change (join sep (y :: z :: l)) with (y +:+ sep +:+ join sep (z :: l)).
  now rewrite !append_assoc.
Qed.

Lemma pop_snoc (l : list string) x : pop (l ++ [x]) = (Some x, l).
Proof. unfold pop. now rewrite last_snoc, removelast_last. Qed.

Lemma pop_split sep s :
  exists leaf dirs, split sep s = dirs ++ [leaf] /\ pop (split sep s) = (Some leaf, dirs).
Proof.
  destruct (exists_last (split_nonempty sep s)) as (dirs & leaf & E).
  exists leaf, dirs. rewrite E. split; [reflexivity | apply pop_snoc].
Qed.

End JSFacts.

(** ** Extension renaming *)

Module RenameFacts.
Import JS JSFacts App RenameSpec.
#[local] Arguments String.append : simpl nomatch.

#[local] Abbreviation free c := (fun x : string => has_char c x = false).

Lemma has_char_join c sep (l : list string) :
  has_char c sep = false -> Forall (free c) l ->
  has_char c (join sep l) = false.
Proof.
  intros Hsep. induction l as [|x l IH]; intros Hall; [reflexivity |].
  inversion Hall as [|? ? Hx Hl]; subst.
  destruct l as [|y l]; [exact Hx |].
  change (join sep (x :: y :: l)) with (x +:+ sep +:+ join sep (y :: l)).
  rewrite !has_char_app, Hx, Hsep, (IH Hl). reflexivity.
Qed.

(** The segments of a text without [c] have no [c], whatever the
    separator. *)
Lemma split_keeps_free c sep s :
  has_char c s = false -> Forall (free c) (split sep s).
Proof.
  induction s as [|a s IH]; simpl.
  - intros _. repeat constructor.
  - destruct (Ascii.eqb a c) eqn:Hac; [discriminate |]. intros H.
    specialize (IH H).
    destruct (Ascii.eqb a sep).
    + constructor; [reflexivity | exact IH].
    + destruct (split sep s) as [|h t]; [repeat constructor; simpl; now rewrite Hac |].
      inversion IH; subst. constructor; [simpl; now rewrite Hac | assumption].
Qed.

Lemma Forall_removelast {A} (P : A -> Prop) (l : list A) :
  Forall P l -> Forall P (removelast l).
Proof.
  intros H. destruct l as [|x l] using rev_ind; [constructor |].
  rewrite removelast_last. apply Forall_app in H. tauto.
Qed.

Lemma kept_nonempty sep s : kept (split sep s) <> [].
Proof.
  unfold kept. destruct (1 <? length (split sep s)) eqn:H; [| apply split_nonempty].
  apply Nat.ltb_lt in H. unfold pop. simpl snd.
  destruct (split sep s) as [|a [|b l]]; simpl in *; [lia | lia | discriminate].
Qed.

Lemma kept_Forall (P : string -> Prop) (l : list string) :
  Forall P l -> Forall P (kept l).
Proof.
  intros H. unfold kept. destruct (1 <? length l); [|exact H].
  now apply Forall_removelast.
Qed.

Lemma newName_of_kept nameAndExt e :
  newName_of nameAndExt e = join "." (kept (split "." nameAndExt) ++ [e]).
Proof.
  unfold newName_of. fold (kept (split "." nameAndExt)).
  rewrite join_snoc by apply kept_nonempty. reflexivity.
Qed.

Lemma newName_of_free c nameAndExt e :
  has_char c "." = false -> has_char c nameAndExt = false ->
  has_char c e = false -> has_char c (newName_of nameAndExt e) = false.
Proof.
  intros Hdot Hn He. rewrite newName_of_kept. apply has_char_join; [exact Hdot |].
  apply Forall_app. split; [| now repeat constructor].
  apply kept_Forall. now apply split_keeps_free.
Qed.

Lemma Boolean_app_cons (s : string) a t : Boolean (s +:+ String a t) = true.
Proof. destruct s; reflexivity. Qed.

Lemma newName_of_Boolean nameAndExt e : Boolean (newName_of nameAndExt e) = true.
Proof. unfold newName_of. apply Boolean_app_cons. Qed.

(** Renaming a new name again changes nothing, for an extension without
    a dot. *)
Lemma newName_of_idempotent nameAndExt e :
  has_char "." e = false ->
  newName_of (newName_of nameAndExt e) e = newName_of nameAndExt e.
Proof.
  intros He. rewrite (newName_of_kept nameAndExt e) at 1.
  pose proof (kept_nonempty "." nameAndExt) as Hne.
  set (np := kept (split "." nameAndExt)) in *.
  assert (Hs : split "." (join "." (np ++ [e])) = np ++ [e]).
  { apply split_join.
    - destruct np; discriminate.
    - apply Forall_app. split; [| now repeat constructor].
      apply kept_Forall, split_segments_free. }
  assert (Hlt : (1 <? length (np ++ [e])) = true).
  { apply Nat.ltb_lt. rewrite length_app. simpl.
    destruct np; [congruence | simpl; lia]. }
  unfold newName_of at 1. cbv zeta. rewrite Hs, Hlt, pop_snoc. reflexivity.
Qed.

(** [newPath_of] in terms of the segments of the path. *)
Lemma newPath_of_segments p e :
  exists dirs nameAndExt,
    split "/" p = dirs ++ [nameAndExt] /\
    newPath_of p e
    = join "/" (List.filter Boolean dirs ++ [newName_of nameAndExt e]).
Proof.
  destruct (pop_split "/" p) as (x & l & E & Hpop).
  exists l, x. split; [exact E |].
  unfold newPath_of. rewrite Hpop. simpl default.
  rewrite List.filter_app. simpl. now rewrite newName_of_Boolean.
Qed.

Lemma filter_Boolean_idempotent (l : list string) :
  List.filter Boolean (List.filter Boolean l) = List.filter Boolean l.
Proof. apply forallb_filter_id, forallb_filter. Qed.

Lemma Forall_filter_keeps (P : string -> Prop) f (l : list string) :
  Forall P l -> Forall P (List.filter f l).
Proof.
  induction 1 as [|x l Hx Hl IH]; simpl; [constructor |].
  destruct (f x); [constructor |]; assumption.
Qed.

Lemma newPath_of_idempotent p e :
  has_char "." e = false -> has_char "/" e = false ->
  newPath_of (newPath_of p e) e = newPath_of p e.
Proof.
  intros Hdot Hslash.
  destruct (newPath_of_segments p e) as (dirs & leaf & E & Hq).
  assert (Hfree : Forall (free "/") (dirs ++ [leaf])).
  { rewrite <- E. apply split_segments_free. }
  apply Forall_app in Hfree. destruct Hfree as [Hdirs Hleaf].
  inversion Hleaf as [|? ? Hleaf' _]; subst.
  assert (Hsplit : split "/" (newPath_of p e)
                   = List.filter Boolean dirs ++ [newName_of leaf e]).
  { rewrite Hq. apply split_join.
    - destruct (List.filter Boolean dirs); discriminate.
    - apply Forall_app. split; [now apply Forall_filter_keeps |].
      repeat constructor. now apply newName_of_free. }
  rewrite Hq at 2.
  unfold newPath_of at 1. unfold pop. rewrite Hsplit.
  rewrite last_snoc, removelast_last. simpl default.
  rewrite newName_of_idempotent by exact Hdot.
  rewrite List.filter_app, filter_Boolean_idempotent. simpl.
  now rewrite newName_of_Boolean.
Qed.

End RenameFacts.

(** ** The code's renaming against the specification's *)

Module RenameRefinement.
Import JS JSFacts App RenameSpec RenameFacts.
#[local] Arguments String.append : simpl nomatch.

(** A text with the separator has two segments or more. *)
Lemma split_has_char sep s :
  has_char sep s = true -> exists h h' t, split sep s = h :: h' :: t.
Proof.
  induction s as [|a s IH]; simpl; [discriminate |].
  destruct (Ascii.eqb a sep).
  - intros _. destruct (split sep s) as [|h t] eqn:E;
      [now destruct (split_nonempty sep s) | eauto].
  - intros H. destruct (IH H) as (h & h' & t & E). rewrite E. eauto.
Qed.

Lemma join_with_slashes sep dirs x :
  join (String sep EmptyString) (dirs ++ [x]) = with_slashes sep dirs +:+ x.
Proof.
  induction dirs as [|d dirs IH]; [reflexivity |].
  change (join (String sep EmptyString) ((d :: dirs) ++ [x]))
    with (join (String sep EmptyString) (d :: (dirs ++ [x]))).
  destruct (dirs ++ [x]) as [|y l] eqn:E; [now destruct dirs |].
  change (join (String sep EmptyString) (d :: y :: l))
    with (d +:+ String sep EmptyString +:+ join (String sep EmptyString) (y :: l)).
  rewrite IH. simpl with_slashes. rewrite !append_assoc. reflexivity.
Qed.

Lemma after_last_split sep s : last (split sep s) = Some (after_last sep s).
Proof.
  induction s as [|a s IH]; [reflexivity |].
  simpl. destruct (Ascii.eqb a sep) eqn:Ha.
  - destruct (split sep s) as [|h t] eqn:E; [now destruct (split_nonempty sep s) |].
    exact IH.
  - destruct (has_char sep s) eqn:Hs.
    + destruct (split_has_char _ _ Hs) as (h & h' & t & E).
      rewrite E in *. exact IH.
    + rewrite (split_free _ _ Hs). reflexivity.
Qed.

Lemma upto_last_split sep s :
  upto_last sep s = with_slashes sep (removelast (split sep s)).
Proof.
  induction s as [|a s IH]; [reflexivity |].
  simpl. destruct (Ascii.eqb a sep) eqn:Ha.
  - apply Ascii.eqb_eq in Ha. subst a.
    destruct (split sep s) as [|h t] eqn:E; [now destruct (split_nonempty sep s) |].
    simpl in IH. simpl. now rewrite IH.
  - destruct (has_char sep s) eqn:Hs.
    + destruct (split_has_char _ _ Hs) as (h & h' & t & E).
      rewrite E in *. simpl in IH. simpl. now rewrite IH.
    + rewrite (split_free _ _ Hs). reflexivity.
Qed.

Lemma before_last_split sep s :
  before_last sep s = join (String sep EmptyString) (kept (split sep s)).
Proof.
  unfold kept, pop.
  induction s as [|a s IH]; [reflexivity |].
  simpl. destruct (Ascii.eqb a sep) eqn:Ha.
  - apply Ascii.eqb_eq in Ha. subst a.
    destruct (has_char sep s) eqn:Hs.
    + destruct (split_has_char _ _ Hs) as (h & h' & t & E).
      rewrite E in *. simpl in IH. simpl. now rewrite IH.
    + rewrite (split_free _ _ Hs). reflexivity.
  - destruct (has_char sep s) eqn:Hs.
    + destruct (split_has_char _ _ Hs) as (h & h' & t & E).
      rewrite E in *. simpl in IH. simpl.
      destruct t as [|h'' t]; simpl in *; now rewrite IH.
    + rewrite (split_free _ _ Hs). reflexivity.
Qed.

(** With no empty directory segment the code's new path is the
    specification's. *)
Lemma newPath_of_replace_extension p e :
  no_empty_directory p = true -> newPath_of p e = replace_extension p e.
Proof.
  unfold no_empty_directory, replace_extension, directory, base, leaf.
  intros Hdirs. destruct (pop_split "/" p) as (x & dirs & E & Hpop).
  rewrite Hpop in Hdirs. simpl in Hdirs.
  unfold newPath_of. rewrite Hpop. simpl default.
  rewrite List.filter_app, (forallb_filter_id _ _ Hdirs). simpl.
  rewrite newName_of_Boolean, join_with_slashes.
  rewrite upto_last_split, before_last_split.
  pose proof (after_last_split "/" p) as Hleaf.
  unfold pop in Hpop. injection Hpop as Hlast Hrem.
  rewrite Hlast in Hleaf. injection Hleaf as <-. rewrite Hrem.
  reflexivity.
Qed.

(** *** What the specification's renaming says *)

(** The directory and the leaf make up the path; the leaf has no
    separator in it, and the directory ends with one or is empty. *)
Lemma upto_after_last c s : upto_last c s +:+ after_last c s = s.
Proof.
  induction s as [|a s IH]; [reflexivity |].
  cbn [upto_last after_last]. destruct (has_char c (String a s)); [| reflexivity].
  simpl. now rewrite IH.
Qed.

Lemma after_last_free c s : has_char c (after_last c s) = false.
Proof.
  induction s as [|a s IH]; [reflexivity |].
  cbn [after_last]. destruct (has_char c (String a s)) eqn:H; [exact IH | exact H].
Qed.

Lemma upto_last_ends c s :
  upto_last c s = EmptyString
  \/ exists d, upto_last c s = d +:+ String c EmptyString.
Proof.
  induction s as [|a s IH]; [now left |].
  cbn [upto_last]. destruct (has_char c (String a s)) eqn:H; [| now left].
  right. destruct IH as [IH | (d & IH)].
  - rewrite IH. exists EmptyString. simpl in H.
    destruct (Ascii.eqb_spec a c) as [-> | _]; [reflexivity |].
    destruct s as [|b s]; [discriminate |]. cbn [upto_last] in IH.
    now rewrite H in IH.
  - rewrite IH. now exists (String a d).
Qed.

(** With a dot in it, the text is what is before the last dot, the
    dot, and an extension without a dot; with none, all of the text is
    before the last dot. *)
Lemma before_last_extension c s :
  has_char c s = true ->
  exists ext, s = before_last c s +:+ String c ext /\ has_char c ext = false.
Proof.
  induction s as [|a s IH]; [discriminate |].
  intros H. cbn [before_last]. destruct (has_char c s) eqn:Hs.
  - destruct (IH eq_refl) as (ext & E & Hext). exists ext. split; [| exact Hext].
    simpl. now rewrite <- E.
  - simpl in H. rewrite Hs in H.
    destruct (Ascii.eqb_spec a c) as [-> | _]; [| discriminate].
    now exists s.
Qed.

Lemma before_last_free c s : has_char c s = false -> before_last c s = s.
Proof.
  destruct s as [|a s]; [reflexivity |]. simpl.
  destruct (Ascii.eqb a c); [discriminate |]. now intros ->.
Qed.

(** The same, for [replace_extension]. *)
Lemma replace_extension_spec p e :
  let dir := directory p in
  p = dir +:+ leaf p
  /\ has_char "/" (leaf p) = false
  /\ (dir = EmptyString \/ exists d, dir = d +:+ "/")
  /\ replace_extension p e = dir +:+ base p +:+ "." +:+ e
  /\ (if has_char "." (leaf p)
      then exists ext, leaf p = base p +:+ "." +:+ ext /\ has_char "." ext = false
      else base p = leaf p).
Proof.
  unfold directory, leaf, base, replace_extension. cbv zeta.
  split; [symmetry; apply upto_after_last |].
  split; [apply after_last_free |].
  split; [apply upto_last_ends |].
  split; [reflexivity |].
  destruct (has_char "." (after_last "/" p)) eqn:H.
  - now apply before_last_extension.
  - now apply before_last_free.
Qed.

End RenameRefinement.

(** ** Base64: decoding undoes encoding *)

Module Base64Facts.
Import Base64.
#[local] Open Scope N_scope.

#[local] Ltac Zify.zify_post_hook ::= Z.to_euclidean_division_equations.

(** Induction on a list three elements at a time. *)
Lemma list_ind3 {A} (P : list A -> Prop) :
  P [] -> (forall a, P [a]) -> (forall a b, P [a; b]) ->
  (forall a b c l, P l -> P (a :: b :: c :: l)) ->
  forall l, P l.
Proof.
  intros H0 H1 H2 H3.
  assert (H : forall l, P l /\ (forall a, P (a :: l)) /\ (forall a b, P (a :: b :: l))).
  { induction l as [|x l (IH0 & IH1 & IH2)]; [auto |].
    repeat split; auto. }
  intros l. apply H.
Qed.

(** A property of every sextet, checked on the sixty-four of them. *)
Lemma sextets_checked (P : N -> bool) :
  forallb P (map N.of_nat (seq 0 64)) = true ->
  forall n, n < 64 -> P n = true.
Proof.
  intros H n Hn. rewrite forallb_forall in H. apply H.
  apply in_map_iff. exists (N.to_nat n). split; [lia |].
  apply in_seq. lia.
Qed.

Lemma sextet_of_char_of_sextet n :
  n < 64 -> sextet_of_char (char_of_sextet n) = Some n.
Proof.
  intros Hn.
  pose proof (sextets_checked
    (fun n => match sextet_of_char (char_of_sextet n) with
              | Some m => m =? n
              | None => false
              end)) as H.
  specialize (H eq_refl n Hn). cbv beta in H.
  destruct (sextet_of_char (char_of_sextet n)); [| discriminate].
  apply N.eqb_eq in H. now subst.
Qed.

Lemma char_of_sextet_large n : 64 <= n -> char_of_sextet n = "/"%char.
Proof.
  intros Hn. unfold char_of_sextet.
  replace (n <? 26) with false by (symmetry; apply N.ltb_ge; lia).
  replace (n <? 52) with false by (symmetry; apply N.ltb_ge; lia).
  replace (n <? 62) with false by (symmetry; apply N.ltb_ge; lia).
  replace (n =? 62) with false by (symmetry; apply N.eqb_neq; lia).
  reflexivity.
Qed.

(** A character of the alphabet is neither white space nor padding. *)
Lemma char_of_sextet_plain n :
  is_ascii_whitespace (char_of_sextet n) = false
  /\ Ascii.eqb (char_of_sextet n) pad = false.
Proof.
  destruct (N.lt_ge_cases n 64) as [Hn | Hn].
  - pose proof (sextets_checked
      (fun n => negb (is_ascii_whitespace (char_of_sextet n))
                && negb (Ascii.eqb (char_of_sextet n) pad))) as H.
    specialize (H eq_refl n Hn). cbv beta in H.
    apply andb_true_iff in H. destruct H as [H1 H2].
    apply negb_true_iff in H1, H2. now split.
  - rewrite (char_of_sextet_large n Hn). now split.
Qed.

Lemma encode_sextets bytes :
  encode bytes = map char_of_sextet (sextets bytes) ++ padding bytes.
Proof.
  induction bytes as [| a | a b | a b c l IH] using list_ind3; try reflexivity.
  change (encode (a :: b :: c :: l))
    with ([char_of_sextet (a / 4); char_of_sextet ((a mod 4) * 16 + b / 16);
           char_of_sextet ((b mod 16) * 4 + c / 64); char_of_sextet (c mod 64)]
          ++ encode l).
  rewrite IH. reflexivity.
Qed.

Lemma sextets_bounded bytes :
  Forall (fun b => b < 256) bytes -> Forall (fun s => s < 64) (sextets bytes).
Proof.
  induction bytes as [| a | a b | a b c l IH] using list_ind3; intros H.
  - constructor.
  - inversion H; subst. repeat constructor; lia.
  - inversion H as [|? ? Ha H']; subst. inversion H'; subst.
    repeat constructor; lia.
  - inversion H as [|? ? Ha H1]; subst. inversion H1 as [|? ? Hb H2]; subst.
    inversion H2 as [|? ? Hc H3]; subst.
    change (sextets (a :: b :: c :: l))
      with ([a / 4; (a mod 4) * 16 + b / 16; (b mod 16) * 4 + c / 64; c mod 64]
            ++ sextets l).
    apply Forall_app. split; [repeat constructor; lia | now apply IH].
Qed.

Lemma decode_sextets bytes :
  Forall (fun b => b < 256) bytes -> decode (sextets bytes) = bytes.
Proof.
  induction bytes as [| a | a b | a b c l IH] using list_ind3; intros H.
  - reflexivity.
  - inversion H; subst. cbn [sextets decode]. f_equal. lia.
  - inversion H as [|? ? Ha H']; subst. inversion H'; subst.
    cbn [sextets decode]. f_equal; [lia |]. f_equal. lia.
  - inversion H as [|? ? Ha H1]; subst. inversion H1 as [|? ? Hb H2]; subst.
    inversion H2 as [|? ? Hc H3]; subst.
    change (decode (sextets (a :: b :: c :: l)))
      with ([a / 4 * 4 + ((a mod 4) * 16 + b / 16) / 16;
             (((a mod 4) * 16 + b / 16) mod 16) * 16 + ((b mod 16) * 4 + c / 64) / 4;
             (((b mod 16) * 4 + c / 64) mod 4) * 64 + c mod 64]
            ++ decode (sextets l)).
    rewrite (IH H3). cbn [app]. f_equal; [lia |]. f_equal; [lia |]. f_equal. lia.
Qed.

Lemma length_sextets bytes : (length (sextets bytes) mod 4 <> 1)%nat.
Proof.
  induction bytes as [| a | a b | a b c l IH] using list_ind3;
    try (cbn; lia).
  change (sextets (a :: b :: c :: l))
    with ([a / 4; (a mod 4) * 16 + b / 16; (b mod 16) * 4 + c / 64; c mod 64]
          ++ sextets l).
  rewrite length_app. cbn [length].
  replace (4 + length (sextets l))%nat with (length (sextets l) + 1 * 4)%nat by lia.
  now rewrite Nat.Div0.mod_add.
Qed.

Lemma length_encode bytes : (length (encode bytes) mod 4 = 0)%nat.
Proof.
  induction bytes as [| a | a b | a b c l IH] using list_ind3;
    try reflexivity.
  change (encode (a :: b :: c :: l))
    with ([char_of_sextet (a / 4); char_of_sextet ((a mod 4) * 16 + b / 16);
           char_of_sextet ((b mod 16) * 4 + c / 64); char_of_sextet (c mod 64)]
          ++ encode l).
  rewrite length_app. cbn [length].
  replace (4 + length (encode l))%nat with (length (encode l) + 1 * 4)%nat by lia.
  now rewrite Nat.Div0.mod_add.
Qed.

Lemma padding_cases bytes :
  padding bytes = [] \/ padding bytes = [pad] \/ padding bytes = [pad; pad].
Proof.
  induction bytes as [| a | a b | a b c l IH] using list_ind3; auto.
Qed.

Lemma strip_padding_plain (body : list ascii) :
  Forall (fun c => Ascii.eqb c pad = false) body ->
  strip_padding body = body
  /\ strip_padding (body ++ [pad]) = body
  /\ strip_padding (body ++ [pad; pad]) = body.
Proof.
  intros H. unfold strip_padding. repeat split.
  - destruct (rev body) as [|c1 [|c2 r]] eqn:E; [reflexivity | |].
    + assert (Hin : In c1 body) by (apply in_rev; rewrite E; now left).
      rewrite List.Forall_forall in H. now rewrite (H c1 Hin).
    + assert (Hin : In c1 body) by (apply in_rev; rewrite E; now left).
      rewrite List.Forall_forall in H. now rewrite (H c1 Hin).
  - rewrite rev_app_distr. cbn [rev app].
    destruct (rev body) as [|c2 r] eqn:E.
    + simpl. apply (f_equal (@rev ascii)) in E. rewrite rev_involutive in E.
      now subst.
    + assert (Hin : In c2 body) by (apply in_rev; rewrite E; now left).
      rewrite List.Forall_forall in H. rewrite (H c2 Hin). simpl.
      apply (f_equal (@rev ascii)) in E. rewrite rev_involutive in E.
      now subst.
  - rewrite rev_app_distr. cbn [rev app]. simpl.
    apply rev_involutive.
Qed.

Lemma alphabet_plain l :
  Forall (fun c => Ascii.eqb c pad = false) (map char_of_sextet l)
  /\ Forall (fun c => is_ascii_whitespace c = false) (map char_of_sextet l).
Proof.
  split; apply Forall_map, Forall_forall; intros n _; apply char_of_sextet_plain.
Qed.

Lemma strip_padding_encode bytes :
  strip_padding (encode bytes) = map char_of_sextet (sextets bytes).
Proof.
  rewrite encode_sextets.
  destruct (strip_padding_plain _ (proj1 (alphabet_plain (sextets bytes))))
    as (H0 & H1 & H2).
  destruct (padding_cases bytes) as [-> | [-> | ->]];
    [rewrite app_nil_r | |]; assumption.
Qed.

Lemma filter_all {A} (f : A -> bool) (l : list A) :
  Forall (fun x => f x = true) l -> List.filter f l = l.
Proof.
  induction 1 as [|x l Hx Hl IH]; simpl; [reflexivity |].
  now rewrite Hx, IH.
Qed.

Lemma encode_no_whitespace bytes :
  List.filter (fun c => negb (is_ascii_whitespace c)) (encode bytes)
  = encode bytes.
Proof.
  apply filter_all. rewrite encode_sextets. apply Forall_app. split.
  - eapply Forall_impl; [apply (proj2 (alphabet_plain (sextets bytes))) |].
    intros c Hc. cbv beta in *. now rewrite Hc.
  - destruct (padding_cases bytes) as [-> | [-> | ->]]; repeat constructor.
Qed.

(** [atob] gives back what [btoa] was given. *)
Lemma atob_btoa (s : string) : atob (btoa s) = Some s.
Proof.
  unfold atob, btoa.
  rewrite list_ascii_of_string_of_list_ascii.
  set (bytes := map N_of_ascii (list_ascii_of_string s)).
  assert (Hbytes : Forall (fun b => b < 256) bytes).
  { apply Forall_map, Forall_forall. intros a _. apply N_ascii_bounded. }
  rewrite encode_no_whitespace, length_encode. cbn [Nat.eqb].
  rewrite strip_padding_encode, length_map.
  pose proof (length_sextets bytes) as Hlen.
  destruct (Nat.eqb_spec (length (sextets bytes) mod 4) 1) as [Heq | _];
    [contradiction |].
  rewrite (mapM_fmap_Forall_Some sextet_of_char char_of_sextet).
  - rewrite (decode_sextets _ Hbytes). unfold bytes.
    rewrite map_map, (map_ext _ (fun a => a)) by apply ascii_N_embedding.
    rewrite map_id. now rewrite string_of_list_ascii_of_string.
  - eapply Forall_impl; [apply sextets_bounded, Hbytes |].
    intros n Hn. now apply sextet_of_char_of_sextet.
Qed.

End Base64Facts.

(** ** JSON: parsing undoes writing *)

Module JSONFacts.
Import JS JSFacts JSON.
#[local] Arguments String.append : simpl nomatch.

(** Reading the escape of one code unit gives the code unit back. *)
Lemma parse_chars_escape_char a tail :
  parse_chars (escape_char a +:+ tail) = prepend (Some a) (parse_chars tail).
Proof.
  destruct a as [b0 b1 b2 b3 b4 b5 b6 b7].
  destruct b0, b1, b2, b3, b4, b5, b6, b7; reflexivity.
Qed.

Lemma parse_chars_escape s rest :
  parse_chars (escape s +:+ String quotation_mark rest) = Some (s, rest).
Proof.
  induction s as [|a s IH].
  - simpl. reflexivity.
  - simpl escape. rewrite append_assoc, parse_chars_escape_char, IH.
    reflexivity.
Qed.

Lemma parse_string_quote s rest :
  parse_string (quote s +:+ rest) = Some (s, rest).
Proof.
  unfold parse_string, quote. simpl.
  rewrite append_assoc. simpl. apply parse_chars_escape.
Qed.

Lemma skip_whitespace_token c tail :
  is_whitespace c = false -> skip_whitespace (String c tail) = String c tail.
Proof. intros H. simpl. now rewrite H. Qed.

Lemma expect_token c tail :
  is_whitespace c = false -> expect c (String c tail) = Some tail.
Proof.
  intros H. unfold expect. rewrite (skip_whitespace_token _ _ H).
  now rewrite Ascii.eqb_refl.
Qed.

Lemma expect_other c a tail :
  is_whitespace a = false -> Ascii.eqb a c = false ->
  expect c (String a tail) = None.
Proof.
  intros H Hac. unfold expect. rewrite (skip_whitespace_token _ _ H).
  now rewrite Hac.
Qed.

(** One member and what follows it. *)
Lemma parse_members_step fuel k v tail :
  parse_members (S fuel) (stringify_member (k, v) +:+ tail)
  = match skip_whitespace tail with
    | String c s4 =>
        if Ascii.eqb c "}" then Some ([(k, v)], s4)
        else if Ascii.eqb c "," then
          match parse_members fuel s4 with
          | Some (o, rest) => Some ((k, v) :: o, rest)
          | None => None
          end
        else None
    | EmptyString => None
    end.
Proof.
  unfold stringify_member. cbn [fst snd parse_members].
  rewrite !append_assoc, parse_string_quote.
  change (":" +:+ quote v +:+ tail) with (String ":" (quote v +:+ tail)).
  rewrite expect_token by reflexivity.
  rewrite parse_string_quote. reflexivity.
Qed.

Lemma parse_members_stringify (ms : object) :
  ms <> [] ->
  forall fuel rest, length ms <= fuel ->
  parse_members fuel (join "," (map stringify_member ms) +:+ String "}" rest)
  = Some (ms, rest).
Proof.
  induction ms as [|[k v] ms IH]; [congruence |].
  intros _ fuel rest Hfuel.
  destruct fuel as [|fuel]; [simpl in Hfuel; lia |].
  destruct ms as [|m ms].
  - cbn [map join]. rewrite parse_members_step. reflexivity.
  - change (join "," (map stringify_member ((k, v) :: m :: ms)))
      with (stringify_member (k, v) +:+ ","
            +:+ join "," (map stringify_member (m :: ms))).
    rewrite !append_assoc, parse_members_step.
    change ("," +:+ join "," (map stringify_member (m :: ms)) +:+ String "}" rest)
      with (String "," (join "," (map stringify_member (m :: ms)) +:+ String "}" rest)).
    rewrite skip_whitespace_token by reflexivity.
    change (Ascii.eqb "," "}") with false. change (Ascii.eqb "," ",") with true.
    cbv iota. rewrite IH; [reflexivity | discriminate | simpl in *; lia].
Qed.

Lemma parse_object_stringify (o : object) fuel rest :
  length o <= fuel ->
  parse_object fuel (stringify_object o +:+ rest) = Some (o, rest).
Proof.
  intros Hfuel. unfold parse_object, stringify_object.
  rewrite !append_assoc.
  change ("{" +:+ join "," (map stringify_member o) +:+ "}" +:+ rest)
    with (String "{" (join "," (map stringify_member o) +:+ String "}" rest)).
  rewrite expect_token by reflexivity.
  destruct o as [|[k v] o].
  - cbn [map join]. change (EmptyString +:+ String "}" rest) with (String "}" rest).
    now rewrite expect_token by reflexivity.
  - replace (expect "}" (join "," (map stringify_member ((k, v) :: o))
                         +:+ String "}" rest)) with (@None string).
    + apply parse_members_stringify; [discriminate | exact Hfuel].
    + symmetry. destruct o as [|m o]; apply expect_other; reflexivity.
Qed.

Lemma length_append (s t : string) :
  String.length (s +:+ t) = String.length s + String.length t.
Proof. induction s as [|a s IH]; simpl; [reflexivity | now rewrite IH]. Qed.

Lemma length_join_members (o : object) :
  length o <= String.length (join "," (map stringify_member o)).
Proof.
  induction o as [|[k v] o IH]; [simpl; lia |].
  destruct o as [|m o].
  - simpl. lia.
  - change (join "," (map stringify_member ((k, v) :: m :: o)))
      with (stringify_member (k, v) +:+ ","
            +:+ join "," (map stringify_member (m :: o))).
    rewrite !length_append. simpl in *. lia.
Qed.

Lemma length_stringify_object (o : object) rest :
  length o <= String.length (stringify_object o +:+ rest).
Proof.
  unfold stringify_object. rewrite !length_append.
  pose proof (length_join_members o). lia.
Qed.

Lemma parse_elements_stringify (doc : list object) :
  doc <> [] ->
  forall fuel rest, length doc <= fuel ->
  parse_elements fuel (join "," (map stringify_object doc) +:+ String "]" rest)
  = Some (doc, rest).
Proof.
  induction doc as [|o doc IH]; [congruence |].
  intros _ fuel rest Hfuel.
  destruct fuel as [|fuel]; [simpl in Hfuel; lia |].
  destruct doc as [|o' doc].
  - cbn [map join parse_elements].
    rewrite parse_object_stringify by apply length_stringify_object.
    reflexivity.
  - change (join "," (map stringify_object (o :: o' :: doc)))
      with (stringify_object o +:+ ","
            +:+ join "," (map stringify_object (o' :: doc))).
    rewrite !append_assoc. cbn [parse_elements].
    rewrite parse_object_stringify by apply length_stringify_object.
    change ("," +:+ join "," (map stringify_object (o' :: doc)) +:+ String "]" rest)
      with (String "," (join "," (map stringify_object (o' :: doc)) +:+ String "]" rest)).
    rewrite skip_whitespace_token by reflexivity.
    change (Ascii.eqb "," "]") with false. change (Ascii.eqb "," ",") with true.
    cbv iota. rewrite IH; [reflexivity | discriminate | simpl in *; lia].
Qed.

Lemma length_join_objects (doc : list object) :
  length doc <= String.length (join "," (map stringify_object doc)).
Proof.
  induction doc as [|o doc IH]; [simpl; lia |].
  destruct doc as [|o' doc].
  - cbn [map join length]. unfold stringify_object. simpl. lia.
  - change (join "," (map stringify_object (o :: o' :: doc)))
      with (stringify_object o +:+ ","
            +:+ join "," (map stringify_object (o' :: doc))).
    rewrite !length_append. simpl in *. lia.
Qed.

(** [JSON.parse(JSON.stringify(doc))] is [doc]. *)
Lemma parse_stringify (doc : list object) : parse (stringify doc) = Some doc.
Proof.
  unfold parse.
  assert (Hlen : length doc <= String.length (stringify doc)).
  { unfold stringify. rewrite !length_append.
    pose proof (length_join_objects doc). lia. }
  revert Hlen. generalize (String.length (stringify doc)) as fuel.
  intros fuel Hlen. unfold stringify.
  change ("[" +:+ join "," (map stringify_object doc) +:+ "]")
    with (String "[" (join "," (map stringify_object doc) +:+ String "]" EmptyString)).
  rewrite expect_token by reflexivity.
  destruct doc as [|o doc].
  - cbn [map join]. change (EmptyString +:+ String "]" EmptyString) with (String "]" EmptyString).
    now rewrite expect_token by reflexivity.
  - replace (expect "]" (join "," (map stringify_object (o :: doc))
                         +:+ String "]" EmptyString)) with (@None string).
    + rewrite parse_elements_stringify; [reflexivity | discriminate | exact Hlen].
    + symmetry. unfold stringify_object.
      destruct doc as [|o' doc]; apply expect_other; reflexivity.
Qed.

End JSONFacts.

(** ** [Promise.all] *)

Module PromiseFacts.
Import JS.

Section Run.
Context {A E : Type}.
Implicit Types (promises : list (outcome A E)) (st : @all_state A E).

(** A settled [Promise.all] stays as it is. *)
Lemma settle_element_settled i r st o :
  settled st = Some o -> settle_element i r st = st.
Proof. intros H. unfold settle_element. now rewrite H. Qed.

Lemma run_settled promises schedule st o :
  settled st = Some o ->
  foldl (fun st i => match promises !! i with
                     | Some r => settle_element i r st
                     | None => st
                     end) st schedule = st.
Proof.
  intros H. induction schedule as [|i schedule IH]; [reflexivity |].
  simpl. destruct (promises !! i); [| exact IH].
  now rewrite (settle_element_settled _ _ _ _ H).
Qed.

Lemma mapM_id_hole (values : list (option A)) k :
  values !! k = Some None -> mapM id values = None.
Proof.
  intros H. apply mapM_None, Exists_exists. exists None. split; [| reflexivity].
  eapply list_elem_of_lookup_2, H.
Qed.

Lemma mapM_id_filled (values : list (option A)) (vs : list A) :
  length values = length vs ->
  (forall i v, vs !! i = Some v -> values !! i = Some (Some v)) ->
  mapM id values = Some vs.
Proof.
  intros Hlen H. replace values with (Some <$> vs).
  - now apply mapM_fmap_Some.
  - apply list_eq. intros i. rewrite list_lookup_fmap.
    destruct (vs !! i) as [v|] eqn:Hv; simpl.
    + symmetry. now apply H.
    + symmetry. apply lookup_ge_None. apply lookup_ge_None in Hv. lia.
Qed.

(** *** Every input fulfilled *)

Lemma filling_start (vs : list A) :
  filling vs [] (all_start (E:=E) (length vs)).
Proof.
  unfold all_start, filling. cbn [values settled]. repeat split.
  - apply length_replicate.
  - intros i v H. apply lookup_replicate in H. destruct H as [H _]. discriminate.
  - intros i v H. now apply elem_of_nil in H.
Qed.

Lemma filling_step (vs : list A) done st i :
  filling vs done st ->
  filling vs (i :: done)
    (match (Fulfilled (E:=E) <$> vs) !! i with
     | Some r => settle_element i r st
     | None => st
     end).
Proof.
  intros (Hlen & Hsound & Hdone & Hset).
  rewrite list_lookup_fmap.
  destruct (vs !! i) as [v|] eqn:Hv; simpl.
  - unfold settle_element. destruct (settled st) as [o|] eqn:Hst.
    + (* already fulfilled: slot [i] was filled before *)
      split; [exact Hlen |]. split; [exact Hsound |].
      split; [| now rewrite Hst].
      intros j w Hj Hw. apply elem_of_cons in Hj. destruct Hj as [-> | Hj];
        [| now apply Hdone].
      destruct (mapM id (values st)) as [ws|] eqn:Hws; [| discriminate].
      apply mapM_Some_1 in Hws.
      destruct (values st !! i) as [[x|]|] eqn:Hx.
      * rewrite (Hsound _ _ Hx) in Hw. now injection Hw as ->.
      * destruct (Forall2_lookup_l _ _ _ _ _ Hws Hx) as (y & _ & Hy). discriminate.
      * apply lookup_ge_None in Hx. apply lookup_lt_Some in Hw. lia.
    + unfold filling. cbn [values settled].
      split; [| split; [| split; [| reflexivity]]].
      * now rewrite length_insert.
      * intros j w Hj. destruct (decide (i = j)) as [<- | Hne].
        -- rewrite list_lookup_insert_eq in Hj by (apply lookup_lt_Some in Hv; lia).
           now injection Hj as <-.
        -- rewrite list_lookup_insert_ne in Hj by exact Hne. now apply Hsound.
      * intros j w Hj Hw. destruct (decide (i = j)) as [<- | Hne].
        -- rewrite list_lookup_insert_eq by (apply lookup_lt_Some in Hv; lia).
           rewrite Hv in Hw. now injection Hw as <-.
        -- rewrite list_lookup_insert_ne by exact Hne.
           apply elem_of_cons in Hj. destruct Hj as [-> | Hj]; [congruence |].
           now apply Hdone.
  - repeat split; try assumption.
    intros j w Hj Hw. apply elem_of_cons in Hj. destruct Hj as [-> | Hj];
      [congruence | now apply Hdone].
Qed.

Lemma filling_run (vs : list A) schedule done st :
  filling vs done st ->
  filling vs (rev schedule ++ done)
    (foldl (fun st i => match (Fulfilled (E:=E) <$> vs) !! i with
                        | Some r => settle_element i r st
                        | None => st
                        end) st schedule).
Proof.
  revert done st. induction schedule as [|i schedule IH]; intros done st H.
  - exact H.
  - simpl. rewrite <- app_assoc. apply IH. now apply filling_step.
Qed.

(** When every input is fulfilled and each of them settles, in any
    order, [Promise.all] is fulfilled with the values in input order. *)
Lemma Promise_all_fulfilled (vs : list A) (schedule : list nat) :
  (forall i, i < length vs -> i ∈ schedule) ->
  Promise_all (Fulfilled (E:=E) <$> vs) schedule = Some (Fulfilled vs).
Proof.
  intros Hall. unfold Promise_all. rewrite length_fmap.
  pose proof (filling_run vs schedule [] _ (filling_start vs))
    as (Hlen & _ & Hdone & Hset).
  rewrite Hset. erewrite mapM_id_filled; [reflexivity | exact Hlen |].
  intros i v Hv. apply Hdone; [| exact Hv].
  rewrite app_nil_r. apply list_elem_of_In. rewrite <- in_rev.
  apply list_elem_of_In, Hall. now apply lookup_lt_Some in Hv.
Qed.

(** *** Some input rejected *)

Lemma failing_step promises k e0 st i :
  promises !! k = Some (Rejected e0) ->
  failing promises k st ->
  failing promises k
    (match promises !! i with
     | Some r => settle_element i r st
     | None => st
     end).
Proof.
  intros Hk (Hhole & Hset).
  destruct (promises !! i) as [r|] eqn:Hi; [| now split].
  unfold settle_element. destruct (settled st) as [o|] eqn:Hst.
  { split; [exact Hhole | rewrite Hst; exact Hset]. }
  destruct r as [v | e]; unfold failing; cbn [values settled]; split.
  - rewrite list_lookup_insert_ne; [exact Hhole | congruence].
  - left. erewrite mapM_id_hole; [reflexivity |].
    rewrite list_lookup_insert_ne; [exact Hhole | congruence].
  - exact Hhole.
  - right. eauto.
Qed.

Lemma failing_run promises k e0 schedule st :
  promises !! k = Some (Rejected e0) ->
  failing promises k st -> k ∈ schedule ->
  exists e j,
    settled (foldl (fun st i => match promises !! i with
                                | Some r => settle_element i r st
                                | None => st
                                end) st schedule) = Some (Rejected e)
    /\ promises !! j = Some (Rejected e).
Proof.
  intros Hk. revert st.
  induction schedule as [|i schedule IH]; intros st Hst Hin.
  - now apply elem_of_nil in Hin.
  - simpl. destruct (decide (i = k)) as [-> | Hne].
    + pose proof (failing_step _ _ _ _ k Hk Hst) as (_ & Hset).
      rewrite Hk in *.
      assert (Hrej : exists e j, settled (settle_element k (Rejected e0) st)
                                 = Some (Rejected e)
                                 /\ promises !! j = Some (Rejected e)).
      { destruct Hset as [Hnone | Hsome]; [| exact Hsome].
        unfold settle_element in Hnone.
        destruct (settled st) eqn:Hs; simpl in Hnone; congruence. }
      destruct Hrej as (e & j & He & Hj). exists e, j.
      now rewrite (run_settled _ _ _ _ He).
    + apply IH.
      * now apply (failing_step _ _ _ _ i Hk).
      * apply elem_of_cons in Hin. destruct Hin as [-> | Hin]; [congruence | exact Hin].
Qed.

Lemma failing_kept promises k e0 schedule st :
  promises !! k = Some (Rejected e0) ->
  failing promises k st ->
  failing promises k
    (foldl (fun st i => match promises !! i with
                        | Some r => settle_element i r st
                        | None => st
                        end) st schedule).
Proof.
  intros Hk. revert st.
  induction schedule as [|i schedule IH]; intros st Hst; [exact Hst |].
  simpl. apply IH. now apply (failing_step _ _ _ _ i Hk).
Qed.

Lemma failing_start promises k e0 :
  promises !! k = Some (Rejected e0) ->
  failing promises k (all_start (length promises)).
Proof.
  intros Hk. unfold failing, all_start. cbn [values settled].
  assert (Hhole : replicate (length promises) (@None A) !! k = Some None).
  { apply lookup_replicate. split; [reflexivity |]. now apply lookup_lt_Some in Hk. }
  split; [exact Hhole |]. left. now rewrite (mapM_id_hole _ _ Hhole).
Qed.

(** When an input is rejected, [Promise.all] is never fulfilled,
    whatever settles and in whatever order. *)
Lemma Promise_all_not_fulfilled promises (schedule : list nat) k e0 vs :
  promises !! k = Some (Rejected e0) ->
  Promise_all promises schedule <> Some (Fulfilled vs).
Proof.
  intros Hk. unfold Promise_all.
  destruct (failing_kept _ _ _ schedule _ Hk (failing_start _ _ _ Hk))
    as (_ & [Hnone | (e & j & Hsome & _)]); congruence.
Qed.

(** When an input is rejected and settles, [Promise.all] is rejected,
    with the reason of a rejected input. *)
Lemma Promise_all_rejected promises (schedule : list nat) k e0 :
  promises !! k = Some (Rejected e0) -> k ∈ schedule ->
  exists e j, Promise_all promises schedule = Some (Rejected e)
              /\ promises !! j = Some (Rejected e).
Proof.
  intros Hk Hin. unfold Promise_all.
  apply (failing_run _ k e0); [exact Hk | | exact Hin].
  now apply (failing_start _ _ e0).
Qed.

(** *** Every input settled *)

Lemma fulfilled_or_rejected (promises : list (outcome A E)) :
  (exists vs, promises = Fulfilled <$> vs)
  \/ (exists k e, promises !! k = Some (Rejected e)).
Proof.
  induction promises as [|[v | e] promises IH].
  - left. now exists [].
  - destruct IH as [(vs & ->) | (k & e & Hk)].
    + left. now exists (v :: vs).
    + right. now exists (S k), e.
  - right. now exists 0, e.
Qed.

(** Once every input has settled, [Promise.all] has. *)
Lemma Promise_all_settles (promises : list (outcome A E)) (schedule : list nat) :
  (forall i, i < length promises -> i ∈ schedule) ->
  exists o, Promise_all promises schedule = Some o.
Proof.
  intros Hall. destruct (fulfilled_or_rejected promises) as [(vs & ->) | (k & e & Hk)].
  - exists (Fulfilled vs). apply Promise_all_fulfilled.
    intros i Hi. apply Hall. now rewrite length_fmap.
  - destruct (Promise_all_rejected promises schedule k e Hk) as (e' & _ & H & _).
    + apply Hall. now apply lookup_lt_Some in Hk.
    + now exists (Rejected e').
Qed.

Lemma Promise_all_in_order_settles (promises : list (outcome A E)) :
  exists o, Promise_all_in_order promises = Some o.
Proof.
  apply Promise_all_settles. intros i Hi.
  apply list_elem_of_In, in_seq. lia.
Qed.

End Run.

End PromiseFacts.

(** ** Directory readers *)

Module ReaderFacts.
Import JS App.

Section Reader.
Context {Reader Ent : Type}.
Variable readEntries : Reader -> outcome (list Ent) DOMException * Reader.

(** Non-empty batches are accumulated in order; the first empty batch
    ends the loop. *)
Lemma readEntries_loop_drains batches :
  Forall (fun entries => entries <> []) batches ->
  forall r r' allEntries fuel,
    returns readEntries r (batches ++ [[]]) r' ->
    length batches < fuel ->
    readEntries_loop readEntries fuel allEntries r
    = Some (Fulfilled (allEntries ++ concat batches)).
Proof.
  induction 1 as [|entries batches Hne Hall IH];
    intros r r' allEntries fuel Hret Hfuel.
  - destruct fuel as [|fuel]; [simpl in Hfuel; lia |].
    inversion Hret as [|? ? ? ? ? Hcall _]; subst.
    simpl. rewrite Hcall. simpl. now rewrite app_nil_r.
  - destruct fuel as [|fuel]; [simpl in Hfuel; lia |].
    inversion Hret as [|? ? r1 ? ? Hcall Hrest]; subst.
    simpl. rewrite Hcall.
    destruct entries as [|e entries]; [congruence |].
    cbn [length Nat.eqb].
    rewrite (IH r1 r' _ fuel Hrest) by (simpl in Hfuel; lia).
    now rewrite <- app_assoc.
Qed.

(** A failed call rejects the whole read. *)
Lemma readEntries_loop_rejects r r' e allEntries fuel :
  readEntries r = (Rejected e, r') ->
  readEntries_loop readEntries (S fuel) allEntries r = Some (Rejected e).
Proof. intros H. simpl. now rewrite H. Qed.

End Reader.

End ReaderFacts.

(** ** The ingestion pipeline and the persisted state *)

Module AppFacts.
Import JS JSFacts App.
#[local] Arguments String.append : simpl nomatch.

(** *** The handlers touch what they are meant to touch *)

Lemma handleFileProcessing_empty schedule w :
  handleFileProcessing schedule [] w = setIsLoading false w.
Proof. reflexivity. Qed.

(** Every read succeeds: the promises are the records, fulfilled. *)
Lemma filePromises_fulfilled e items results :
  Forall2 (fun item result => readAsArrayBuffer (file item) = Fulfilled result)
          items results ->
  map (filePromise e) items
  = Fulfilled <$> zip_with (fun item result => onload item e result) items results.
Proof.
  induction 1 as [|item result items results Hread _ IH]; [reflexivity |].
  simpl. unfold filePromise at 1. rewrite Hread. now rewrite IH.
Qed.

Lemma handleFileProcessing_fulfilled schedule items results w :
  items <> [] ->
  Forall2 (fun item result => readAsArrayBuffer (file item) = Fulfilled result)
          items results ->
  (forall i, i < length items -> i ∈ schedule) ->
  handleFileProcessing schedule items w
  = setIsLoading false
      (setView filesView
         (setProcessedFiles
            (zip_with (fun item result =>
                         onload item (targetConversionType (state w)) result)
                      items results)
            (setIsLoading true w))).
Proof.
  intros Hne Hreads Hsched. unfold handleFileProcessing.
  destruct items as [|item items]; [congruence |].
  cbn [length Nat.eqb].
  change (targetConversionType (state (setIsLoading true w)))
    with (targetConversionType (state w)).
  rewrite (filePromises_fulfilled _ _ _ Hreads).
  rewrite PromiseFacts.Promise_all_fulfilled; [reflexivity |].
  intros i Hi. apply Hsched.
  rewrite length_zip_with in Hi. apply Forall2_length in Hreads.
  cbn [length] in *. lia.
Qed.

Lemma onload_paths e items results :
  length items = length results ->
  map originalPath (zip_with (fun item result => onload item e result) items results)
  = map path items.
Proof.
  revert results. induction items as [|item items IH]; intros [|r results] Hlen;
    simpl in *; try lia; [reflexivity |].
  f_equal. apply IH. lia.
Qed.

(** A failed read: [Promise.all] is never fulfilled, whatever the order
    of completion. *)
Lemma filePromises_rejected e items k item error :
  items !! k = Some item ->
  readAsArrayBuffer (file item) = Rejected error ->
  map (filePromise e) items !! k = Some (Rejected (error, file item)).
Proof.
  intros Hk Hread. change (map (filePromise e) items) with (filePromise e <$> items).
  rewrite list_lookup_fmap, Hk. simpl. unfold filePromise. now rewrite Hread.
Qed.

Lemma handleFileProcessing_failed schedule items w k item error :
  items !! k = Some item ->
  readAsArrayBuffer (file item) = Rejected error ->
  processedFiles (state (handleFileProcessing schedule items w))
  = processedFiles (state w)
  /\ localStorage (handleFileProcessing schedule items w) = localStorage w.
Proof.
  intros Hk Hread. unfold handleFileProcessing.
  destruct items as [|item0 items]; [discriminate |].
  cbn [length Nat.eqb].
  pose proof (filePromises_rejected
                (targetConversionType (state (setIsLoading true w)))
                _ _ _ _ Hk Hread) as Hrej.
  destruct (Promise_all _ schedule) as [[newFiles | [e f]] |] eqn:Hall.
  - now apply PromiseFacts.Promise_all_not_fulfilled with (schedule := schedule)
                                                         (vs := newFiles) in Hrej.
  - now split.
  - now split.
Qed.

Lemma handleFileProcessing_failed_alert schedule items w k item error :
  items !! k = Some item ->
  readAsArrayBuffer (file item) = Rejected error ->
  k ∈ schedule ->
  exists failed e,
    failed ∈ items
    /\ readAsArrayBuffer (file failed) = Rejected e
    /\ handleFileProcessing schedule items w
       = setIsLoading false
           (alert ("An error occurred while reading file: "
                   +:+ fileName (file failed) +:+ ".")
                  (setIsLoading true w)).
Proof.
  intros Hk Hread Hin. unfold handleFileProcessing.
  destruct items as [|item0 items]; [discriminate |].
  cbn [length Nat.eqb].
  set (e := targetConversionType (state (setIsLoading true w))).
  pose proof (filePromises_rejected e _ _ _ _ Hk Hread) as Hrej.
  destruct (PromiseFacts.Promise_all_rejected _ schedule _ _ Hrej Hin)
    as ([e' f] & j & Hall & Hj).
  rewrite Hall.
  change (map (filePromise e) (item0 :: items))
    with (filePromise e <$> (item0 :: items)) in Hj.
  rewrite list_lookup_fmap in Hj.
  destruct ((item0 :: items) !! j) as [failed|] eqn:Hfailed; [| discriminate].
  simpl in Hj. unfold filePromise in Hj.
  destruct (readAsArrayBuffer (file failed)) as [| e''] eqn:Hf; [discriminate |].
  injection Hj as <- <-.
  exists failed, e''. split; [eapply list_elem_of_lookup_2, Hfailed |].
  split; [exact Hf | reflexivity].
Qed.

(** *** Persisted state *)

Lemma binary_string (buffer : list byte) (start : string) :
  fold_left (fun binary b => binary +:+ String (ascii_of_byte b) EmptyString)
            buffer start
  = start +:+ string_of_list_ascii (map ascii_of_byte buffer).
Proof.
  revert start. induction buffer as [|b buffer IH]; intros start; simpl.
  - now rewrite append_nil_r.
  - rewrite IH, append_assoc. reflexivity.
Qed.

(** The buffer read back from its base64 text is the buffer. *)
Lemma base64ToArrayBuffer_arrayBufferToBase64 (buffer : list byte) :
  base64ToArrayBuffer (arrayBufferToBase64 buffer) = Some buffer.
Proof.
  unfold base64ToArrayBuffer, arrayBufferToBase64.
  rewrite Base64Facts.atob_btoa, binary_string. simpl.
  rewrite list_ascii_of_string_of_list_ascii, map_map.
  rewrite (map_ext _ (fun b => b)) by apply byte_of_ascii_of_byte.
  now rewrite map_id.
Qed.

Lemma deserialize_serializable (f : ProcessedFile) :
  deserialize (serializable f) = Loaded f.
Proof.
  unfold deserialize.
  replace (member "content" (serializable f))
    with (Some (arrayBufferToBase64 (content f))) by reflexivity.
  cbn [default from_option]. unfold id.
  rewrite base64ToArrayBuffer_arrayBufferToBase64.
  replace (bool_decide (map fst (serializable f) = memberNames)) with true
    by reflexivity.
  replace (member "id" (serializable f)) with (Some (fileId f)) by reflexivity.
  replace (member "originalPath" (serializable f))
    with (Some (originalPath f)) by reflexivity.
  replace (member "newPath" (serializable f)) with (Some (newPath f)) by reflexivity.
  replace (member "originalType" (serializable f))
    with (Some (originalType f)) by reflexivity.
  replace (member "newType" (serializable f)) with (Some (newType f)) by reflexivity.
  now destruct f.
Qed.

Lemma Boolean_stringify doc : Boolean (JSON.stringify doc) = true.
Proof. reflexivity. Qed.

(** The records written are the records read. *)
Lemma read_serializable (processedFiles : list ProcessedFile) :
  existsb throws (map deserialize (map serializable processedFiles)) = false
  /\ mapM record_of (map deserialize (map serializable processedFiles))
     = Some processedFiles.
Proof.
  induction processedFiles as [|f l [IHthrows IHread]]; [now split |].
  cbn [map existsb]. rewrite deserialize_serializable. cbn [throws orb].
  split; [exact IHthrows |].
  cbn [mapM record_of]. now rewrite IHread.
Qed.

(** A store that holds the text of a working set loads it. *)
Lemma load_stored (processedFiles : list ProcessedFile) localStorage :
  localStorage !! fileConverterState
  = Some (JSON.stringify (map serializable processedFiles)) ->
  loadStateFromLocalStorage localStorage = Some processedFiles.
Proof.
  intros H. unfold loadStateFromLocalStorage.
  rewrite H, Boolean_stringify, JSONFacts.parse_stringify. cbv zeta.
  destruct (read_serializable processedFiles) as [-> ->]. reflexivity.
Qed.

(** The two ends of a save of records: the text is stored, or the
    write is refused and the store is as it was. *)
Lemma save_accepted quota f l localStorage :
  quota (<[fileConverterState := JSON.stringify (map serializable (f :: l))]>
           localStorage) = true ->
  saveStateToLocalStorage quota (f :: l) localStorage
  = <[fileConverterState := JSON.stringify (map serializable (f :: l))]>
      localStorage.
Proof.
  intros H. unfold saveStateToLocalStorage, setItem. cbn [length Nat.eqb].
  cbv zeta. now rewrite H.
Qed.

Lemma save_refused quota f l localStorage :
  quota (<[fileConverterState := JSON.stringify (map serializable (f :: l))]>
           localStorage) = false ->
  saveStateToLocalStorage quota (f :: l) localStorage = localStorage.
Proof.
  intros H. unfold saveStateToLocalStorage, setItem. cbn [length Nat.eqb].
  cbv zeta. now rewrite H.
Qed.

(** What was saved is what is loaded, when the write is accepted. *)
Lemma load_save quota (processedFiles : list ProcessedFile) localStorage :
  processedFiles = []
  \/ quota (<[fileConverterState :=
                JSON.stringify (map serializable processedFiles)]> localStorage)
     = true ->
  loadStateFromLocalStorage
    (saveStateToLocalStorage quota processedFiles localStorage)
  = Some processedFiles.
Proof.
  destruct processedFiles as [|f l]; intros H.
  - unfold loadStateFromLocalStorage, saveStateToLocalStorage. simpl.
    now rewrite lookup_delete_eq.
  - destruct H as [H | H]; [discriminate |].
    rewrite (save_accepted _ _ _ _ H). apply load_stored, lookup_insert_eq.
Qed.

(** After a save the store loads the working set saved, or is as it
    was. *)
Lemma load_save_cases quota (processedFiles : list ProcessedFile) localStorage :
  loadStateFromLocalStorage
    (saveStateToLocalStorage quota processedFiles localStorage)
  = Some processedFiles
  \/ saveStateToLocalStorage quota processedFiles localStorage = localStorage.
Proof.
  destruct processedFiles as [|f l]; [left; apply load_save; now left |].
  destruct (quota (<[fileConverterState :=
                       JSON.stringify (map serializable (f :: l))]> localStorage))
    eqn:H.
  - left. apply load_save. now right.
  - right. now apply save_refused.
Qed.

Lemma saved_empty quota localStorage :
  saveStateToLocalStorage quota [] localStorage !! fileConverterState = None.
Proof. unfold saveStateToLocalStorage. simpl. apply lookup_delete_eq. Qed.

Lemma saved_other_keys quota processedFiles localStorage key :
  key <> fileConverterState ->
  saveStateToLocalStorage quota processedFiles localStorage !! key
  = localStorage !! key.
Proof.
  intros H. unfold saveStateToLocalStorage, setItem.
  destruct (length processedFiles =? 0); [now apply lookup_delete_ne |].
  cbv zeta. destruct (quota _); [now apply lookup_insert_ne | reflexivity].
Qed.

End AppFacts.

(** ** What a drop yields *)

Module ExtractFacts.
Import JS App.

(** From directory entries: no file of the result has a leaf name that
    starts with a dot. *)
Lemma extract_hierarchical_not_hidden fuel dataTransfer result :
  hierarchical dataTransfer = true ->
  extractFilesFromDataTransfer fuel dataTransfer = Some (Fulfilled result) ->
  Forall (fun f => not_hidden f = true) result.
Proof.
  unfold extractFilesFromDataTransfer. intros Hh. rewrite Hh.
  destruct (mapM webkitGetAsEntry (items dataTransfer)) as [got|]; [| discriminate].
  destruct (mapM _ (omap id got)) as [filesPromises|]; [| discriminate].
  destruct (Promise_all_in_order filesPromises) as [[filesArrays | e] |];
    try discriminate.
  intros [= <-]. apply List.Forall_forall. intros f Hf.
  apply filter_In in Hf. tauto.
Qed.

(** From the flat file list: every file of the result has a name that
    does not start with a dot, has bytes, and has its name as path. *)
Lemma extract_flat fuel dataTransfer :
  hierarchical dataTransfer = false ->
  exists result,
    extractFilesFromDataTransfer fuel dataTransfer = Some (Fulfilled result)
    /\ Forall (fun f => startsWith (fileName (file f)) "." = false
                        /\ (0 < fileSize (file f))%N
                        /\ path f = fileName (file f)) result.
Proof.
  unfold extractFilesFromDataTransfer. intros Hh. rewrite Hh.
  eexists. split; [reflexivity |].
  apply Forall_map, List.Forall_forall. intros f Hf.
  apply filter_In in Hf. destruct Hf as [_ Hf].
  apply andb_true_iff in Hf. destruct Hf as [Hdot Hsize].
  apply negb_true_iff in Hdot. apply N.ltb_lt in Hsize. now repeat split.
Qed.

End ExtractFacts.

(** ** The walk comes to an end *)

Module WalkFacts.
Import JS App.

(** More fuel does not change what a read or a walk ends in. *)
Lemma readEntries_loop_more_fuel {Reader Ent : Type}
    (readEntries : Reader -> outcome (list Ent) DOMException * Reader)
    fuel fuel' allEntries r o :
  readEntries_loop readEntries fuel allEntries r = Some o ->
  fuel <= fuel' ->
  readEntries_loop readEntries fuel' allEntries r = Some o.
Proof.
  revert fuel' allEntries r.
  induction fuel as [|fuel IH]; intros fuel' allEntries r H Hle; [discriminate |].
  destruct fuel' as [|fuel']; [lia |].
  simpl in *. destruct (readEntries r) as [[entries | e] r']; [| exact H].
  destruct (length entries =? 0); [exact H |].
  apply IH; [exact H | lia].
Qed.

Lemma getFilesFromEntry_more_fuel fuel :
  forall fuel' entry o,
    getFilesFromEntry fuel entry = Some o ->
    fuel <= fuel' ->
    getFilesFromEntry fuel' entry = Some o.
Proof.
  induction fuel as [|fuel IH]; intros fuel' entry o H Hle; [discriminate |].
  destruct fuel' as [|fuel']; [lia |].
  simpl in *.
  destruct entry as [[fullPath getFile | fullPath reader |] |]; try exact H.
  destruct (readAllDirectoryEntries next_batch fuel reader)
    as [[entries | e] |] eqn:Hread; [| | discriminate].
  - unfold readAllDirectoryEntries in *.
    rewrite (readEntries_loop_more_fuel _ _ fuel' _ _ _ Hread) by lia.
    destruct (mapM _ entries) as [promises |] eqn:Hmap; [| discriminate].
    replace (mapM (fun e => getFilesFromEntry fuel' (Some e)) entries)
      with (Some promises); [exact H |].
    symmetry. apply mapM_Some. apply mapM_Some in Hmap.
    eapply Forall2_impl; [exact Hmap |].
    intros e p Hp. cbv beta in *. apply IH; [exact Hp | lia].
  - unfold readAllDirectoryEntries in *.
    now rewrite (readEntries_loop_more_fuel _ _ fuel' _ _ _ Hread) by lia.
Qed.

(** A read of a directory ends after one call more than the reader has
    replies, and ends in children of the directory. *)
Lemma read_directory_ends reader : forall allEntries,
  exists o,
    readEntries_loop next_batch (S (length reader)) allEntries reader = Some o
    /\ forall entries, o = Fulfilled entries ->
                       forall e, e ∈ entries -> e ∈ allEntries \/ e ∈ children reader.
Proof.
  induction reader as [|[batch | err] reader IH]; intros allEntries.
  - exists (Fulfilled allEntries). split; [reflexivity |].
    intros entries [= <-] e He. now left.
  - cbn [length readEntries_loop next_batch].
    destruct batch as [|e0 batch].
    + exists (Fulfilled allEntries). split; [reflexivity |].
      intros entries [= <-] e He. now left.
    + cbn [length Nat.eqb].
      destruct (IH (allEntries ++ e0 :: batch)) as (o & Ho & Hin).
      exists o. split; [exact Ho |].
      intros entries Hent e He.
      destruct (Hin entries Hent e He) as [H | H].
      * apply elem_of_app in H. destruct H as [H | H]; [now left |].
        right. unfold children. cbn [omap list_omap concat].
        apply elem_of_app. now left.
      * right. unfold children. cbn [omap list_omap concat].
        apply elem_of_app. now right.
  - exists (Rejected err). split; [reflexivity |]. discriminate.
Qed.

(** Induction on an entry and the children of a directory. *)
Lemma Entry_children_ind (P : Entry -> Prop) :
  (forall fullPath getFile, P (FileEntry fullPath getFile)) ->
  (forall fullPath reader,
      Forall P (children reader) -> P (DirectoryEntry fullPath reader)) ->
  P OtherEntry ->
  forall e, P e.
Proof.
  intros Hfile Hdir Hother.
  fix IH 1. intros [fullPath getFile | fullPath reader |].
  - apply Hfile.
  - apply Hdir. unfold children. revert reader.
    fix Freader 1. intros [|reply reader].
    + constructor.
    + destruct reply as [batch | err]; cbn [omap list_omap concat].
      * apply Forall_app. split; [| apply Freader].
        revert batch. fix Fbatch 1. intros [|e0 batch].
        -- constructor.
        -- constructor; [apply IH | apply Fbatch].
      * apply Freader.
  - apply Hother.
Qed.

(** One amount of fuel for all the walks of a list. *)
Lemma walks_end_together (entries : list Entry) :
  (forall e, e ∈ entries -> exists fuel o, getFilesFromEntry fuel (Some e) = Some o) ->
  exists fuel promises,
    forall fuel', fuel <= fuel' ->
      mapM (fun e => getFilesFromEntry fuel' (Some e)) entries = Some promises.
Proof.
  induction entries as [|e entries IH]; intros H.
  - exists 0, []. reflexivity.
  - destruct (H e) as (f1 & o & Ho); [now left |].
    destruct IH as (f2 & promises & Hrest).
    { intros e' He'. apply H. now right. }
    exists (f1 `max` f2), (o :: promises). intros fuel' Hle.
    cbn [mapM]. rewrite (getFilesFromEntry_more_fuel f1 fuel' _ _ Ho) by lia.
    simpl. rewrite Hrest by lia. reflexivity.
Qed.

(** Every walk ends. *)
Lemma getFilesFromEntry_ends (entry : Entry) :
  exists fuel o, getFilesFromEntry fuel (Some entry) = Some o.
Proof.
  induction entry as [fullPath getFile | fullPath reader IH |]
    using Entry_children_ind.
  - exists 1. destruct getFile; simpl; eauto.
  - destruct (read_directory_ends reader []) as (o & Ho & Hin).
    destruct o as [entries | err].
    + destruct (walks_end_together entries) as (f & promises & Hmap).
      { intros e He. rewrite Forall_forall in IH. apply IH.
        destruct (Hin entries eq_refl e He) as [H | H]; [| exact H].
        now apply elem_of_nil in H. }
      destruct (PromiseFacts.Promise_all_in_order_settles promises) as (r & Hr).
      exists (S (f `max` S (length reader))).
      cbn [getFilesFromEntry]. unfold readAllDirectoryEntries.
      rewrite (readEntries_loop_more_fuel _ _ _ _ _ _ Ho) by lia.
      rewrite Hmap by lia. rewrite Hr. destruct r; eauto.
    + exists (S (S (length reader))).
      cbn [getFilesFromEntry]. unfold readAllDirectoryEntries.
      rewrite Ho. eauto.
  - exists 1. simpl. eauto.
Qed.

(** Every extraction ends. *)
Lemma extractFilesFromDataTransfer_ends (dataTransfer : DataTransfer) :
  exists fuel o, extractFilesFromDataTransfer fuel dataTransfer = Some o.
Proof.
  unfold extractFilesFromDataTransfer.
  destruct (hierarchical dataTransfer); [| exists 0; eauto].
  destruct (mapM webkitGetAsEntry (items dataTransfer)) as [got |];
    [| exists 0; eauto].
  destruct (walks_end_together (omap id got)) as (f & promises & Hmap).
  { intros e _. apply getFilesFromEntry_ends. }
  destruct (PromiseFacts.Promise_all_in_order_settles promises) as (r & Hr).
  exists f. rewrite Hmap by lia. rewrite Hr. destruct r; eauto.
Qed.

End WalkFacts.

(** ** The chat panel *)

Module ChatFacts.
Import JS JSFacts Chat.
#[local] Arguments String.append : simpl nomatch.

(** A chunk after the first goes to the last message, the model's. *)
Lemma appendChunk_last chunk (prev : list Message) m :
  role m = model ->
  appendChunk chunk (prev ++ [m])
  = prev ++ [{| role := model; text := text m +:+ chunk; image := image m |}].
Proof.
  intros Hm. unfold appendChunk.
  replace (length (prev ++ [m]) - 1) with (length prev + 0)
    by (rewrite length_app; simpl; lia).
  rewrite lookup_app_r by lia.
  replace (length prev + 0 - length prev) with 0 by lia. simpl.
  rewrite Hm. rewrite insert_app_r. reflexivity.
Qed.

(** After a question nothing but the question is appended by
    [appendChunk]: with no message of the model at the end it does
    nothing. *)
Lemma appendChunk_user chunk (prev : list Message) m :
  role m = user -> appendChunk chunk (prev ++ [m]) = prev ++ [m].
Proof.
  intros Hm. unfold appendChunk.
  replace (length (prev ++ [m]) - 1) with (length prev + 0)
    by (rewrite length_app; simpl; lia).
  rewrite lookup_app_r by lia.
  replace (length prev + 0 - length prev) with 0 by lia. simpl.
  now rewrite Hm.
Qed.

Section Handler.
Variable TextDecoder_decode : list byte -> option string.
Context {Decoder : Type}.
Variable new_TextDecoder : Decoder.
Variable decode_stream : Decoder -> list byte -> string * Decoder.
Variable fetch : list Part -> outcome Response string.

(** The chunks after the first, up to the end of the stream. *)
Lemma readLoop_rest chunks : forall decoder (prev : list Message) m,
  role m = model ->
  readLoop decode_stream decoder false chunks (Fulfilled tt) (prev ++ [m])
  = (prev ++ [{| role := model;
                 text := text m +:+ concat_texts (decoded decode_stream decoder chunks);
                 image := image m |}],
     None).
Proof.
  induction chunks as [|value chunks IH]; intros decoder prev m Hm.
  - simpl. rewrite append_nil_r. destruct m; simpl in *; now subst.
  - simpl. destruct (decode_stream decoder value) as [chunk decoder'].
    rewrite (appendChunk_last _ _ _ Hm), IH by reflexivity.
    simpl. now rewrite append_assoc.
Qed.

(** A stream of one chunk or more, read to its end. *)
Lemma readLoop_stream value chunks (prev : list Message) :
  readLoop decode_stream new_TextDecoder true (value :: chunks) (Fulfilled tt) prev
  = (prev ++ [{| role := model;
                 text := concat_texts
                           (decoded decode_stream new_TextDecoder (value :: chunks));
                 image := None |}],
     None).
Proof.
  simpl. destruct (decode_stream new_TextDecoder value) as [chunk decoder'].
  now rewrite readLoop_rest.
Qed.

(** The state after a question that was sent, in terms of what the
    [try] block did. *)
Lemma handleSendMessage_sent files st :
  (negb (Boolean (trim (input st)))
   && negb (bool_decide (is_Some (attachedImage st)))
   || isLoading st) = false ->
  messages (handleSendMessage TextDecoder_decode new_TextDecoder decode_stream fetch files st)
  = let userMessage :=
      {| role := user; text := trim (input st); image := url <$> attachedImage st |} in
    let (messages, thrown) :=
      tryBlock TextDecoder_decode new_TextDecoder decode_stream fetch files
               (attachedImage st) (trim (input st)) (messages st ++ [userMessage]) in
    match thrown with
    | Some errorMessageText =>
        messages ++ [{| role := model;
                        text := "Sorry, an error occurred: " +:+ errorMessageText;
                        image := None |}]
    | None => messages
    end.
Proof.
  intros Hguard. unfold handleSendMessage. rewrite Hguard. cbv zeta.
  destruct (tryBlock _ _ _ _ _ _ _ _) as [msgs thrown]. reflexivity.
Qed.

(** A question that is not sent changes nothing. *)
Lemma handleSendMessage_not_sent files st :
  (negb (Boolean (trim (input st)))
   && negb (bool_decide (is_Some (attachedImage st)))
   || isLoading st) = true ->
  handleSendMessage TextDecoder_decode new_TextDecoder decode_stream fetch files st = st.
Proof. intros Hguard. unfold handleSendMessage. now rewrite Hguard. Qed.

End Handler.

Lemma includes_suffix (before x : string) : includes (before +:+ x) x.
Proof. exists before, EmptyString. now rewrite append_nil_r. Qed.

Lemma includes_empty (text : string) : includes text EmptyString.
Proof. exists EmptyString, text. reflexivity. Qed.

(** The message of the error holds the [error] member of the body. *)
Lemma responseError_includes response X :
  json response = Fulfilled (Some X) -> includes (responseError response) X.
Proof.
  intros Hjson. unfold responseError. rewrite Hjson. simpl default.
  destruct X as [|a X]; [apply includes_empty |].
  cbn [or_else Boolean]. apply (includes_suffix EmptyString).
Qed.

End ChatFacts.

(** ** Worked examples *)

Module Examples.
Import JS App.

Example rename_button :
  newPath_of "src/components/Button.tsx" "ts" = "src/components/Button.ts"%string.
Proof. reflexivity. Qed.

Example rename_without_extension : newPath_of "Makefile" "md" = "Makefile.md"%string.
Proof. reflexivity. Qed.

Example rename_dotted_directory :
  newPath_of "v1.2/notes" "txt" = "v1.2/notes.txt"%string.
Proof. reflexivity. Qed.

Example rename_leading_slash : newPath_of "/a/b.js" "ts" = "a/b.ts"%string.
Proof. reflexivity. Qed.

Example file_types :
  getFileType "src/Button.tsx" = "tsx"%string
  /\ getFileType "Makefile" = "Makefile"%string
  /\ getFileType "notes." = "file"%string.
Proof. repeat split. Qed.

Example record_of_readme :
  Sample.old_record
  = {| fileId := "README.md-1700000000000-5";
       originalPath := "README.md";
       newPath := "README.md";
       content := Sample.bytes "hello";
       originalType := "md";
       newType := "md" |}.
Proof. reflexivity. Qed.

Example btoa_hello :
  Base64.btoa "Hello" = "SGVsbG8="%string
  /\ Base64.btoa "ab" = "YWI="%string
  /\ Base64.btoa "a" = "YQ=="%string
  /\ Base64.btoa "" = ""%string.
Proof. repeat split. Qed.

Example atob_forgiving :
  Base64.atob "SGVsbG8=" = Some "Hello"%string
  /\ Base64.atob "SGVs bG8" = Some "Hello"%string
  /\ Base64.atob "YQ" = Some "a"%string
  /\ Base64.atob "YQ=" = None
  /\ Base64.atob "SGVsb" = None
  /\ Base64.atob "S*Vs" = None.
Proof. repeat split. Qed.

(** A stored working set with a control character and a backslash. *)
Example stored_and_parsed :
  let doc := [serializable Sample.old_record;
              [("id", String "009" "a\b"); ("newPath", String "001" "")]%string] in
  JSON.parse (JSON.stringify doc) = Some doc.
Proof. vm_compute. reflexivity. Qed.

Example parse_whitespace :
  JSON.parse " [ { } , {} ] " = Some [[]; []]
  /\ JSON.parse "[]" = Some []
  /\ JSON.parse "[{}" = None
  /\ JSON.parse "[1]" = None.
Proof. vm_compute. repeat split. Qed.

(** A dropped directory with a hidden file in it, read in two batches. *)
Example hidden_file_dropped :
  extractFilesFromDataTransfer 4
    {| items :=
         [ {| webkitGetAsEntry :=
                Some (Some (DirectoryEntry "/docs"
                              [ Fulfilled [FileEntry "/docs/.env" (Fulfilled Sample.readme)];
                                Fulfilled [FileEntry "/docs/README.md"
                                                     (Fulfilled Sample.readme)] ])) |};
           {| webkitGetAsEntry := Some None |} ];
       files := [] |}
  = Some (Fulfilled [ {| file := Sample.readme; path := "docs/README.md" |} ]).
Proof. vm_compute. reflexivity. Qed.

(** A file inside a hidden directory is not hidden. *)
Example file_in_hidden_directory :
  not_hidden {| file := Sample.readme; path := ".git/config" |} = true.
Proof. reflexivity. Qed.

(** A stream that fails after its first chunk leaves the message begun
    and the message of the error. *)
Example stream_fails_midway :
  Chat.messages
    (Chat.handleSendMessage Sample.latin1 tt Sample.latin1_stream
       (Sample.answering
          {| Chat.ok := true; Chat.statusText := "OK"; Chat.json := Rejected tt;
             Chat.body := Some {| Chat.chunks := [Sample.bytes "Hel"];
                                  Chat.ending := Rejected "network error"%string |} |})
       [] Sample.asking)
  = [ {| Chat.role := Chat.user; Chat.text := "hi"; Chat.image := None |};
      {| Chat.role := Chat.model; Chat.text := "Hel"; Chat.image := None |};
      {| Chat.role := Chat.model;
         Chat.text := "Sorry, an error occurred: network error";
         Chat.image := None |} ].
Proof. reflexivity. Qed.

(** The flat ingestion of a drop without entries, then the clearing. *)
Example drop_then_clear :
  let w := handleDroppedItems 1 [0]
             {| items := []; files := [Sample.readme; Sample.empty] |}
             Sample.fresh in
  map newPath (processedFiles (state w)) = ["README.ts"%string]
  /\ is_Some (localStorage w !! fileConverterState)
  /\ localStorage (handleClear w) !! fileConverterState = None
  /\ loadStateFromLocalStorage (localStorage w) = Some (processedFiles (state w)).
Proof.
  cbv zeta. split; [reflexivity |]. split; [vm_compute; eauto |].
  split; [apply lookup_delete_eq |]. vm_compute. reflexivity.
Qed.

End Examples.

(** ** More on [Promise.all] *)

Module PromiseOrder.
Import JS PromiseFacts.

Section Run.
Context {A E : Type}.
Implicit Types (promises : list (outcome A E)) (st : @all_state A E).

(** A fulfilled [Promise.all] has the values of its inputs, all of
    them fulfilled. *)
Lemma Promise_all_fulfilled_inv promises (schedule : list nat) (vs : list A) :
  Promise_all promises schedule = Some (Fulfilled vs) ->
  promises = Fulfilled <$> vs.
Proof.
  intros H.
  destruct (fulfilled_or_rejected promises) as [(vs' & ->) | (k & e & Hk)].
  - f_equal. unfold Promise_all in H. rewrite length_fmap in H.
    pose proof (filling_run (E:=E) vs' schedule [] _ (filling_start vs'))
      as (Hlen & Hsound & _ & Hset).
    rewrite Hset in H.
    destruct (mapM id _) as [ws|] eqn:Hm; [| discriminate].
    injection H as ->. apply mapM_Some_1 in Hm.
    pose proof (Forall2_length _ _ _ Hm) as Hlen'.
    apply list_eq_same_length with (length vs); [reflexivity | lia |].
    intros i x y Hi Hx Hy.
    destruct (Forall2_lookup_r _ _ _ _ _ Hm Hy) as (o & Ho & Hid).
    simpl in Hid. subst o. rewrite (Hsound _ _ Ho) in Hx. congruence.
  - now destruct (Promise_all_not_fulfilled _ schedule _ _ vs Hk).
Qed.

Lemma settle_rejected st i e :
  settled st = None -> settled (settle_element i (Rejected e) st) = Some (Rejected e).
Proof. intros H. unfold settle_element. now rewrite H. Qed.

(** While the input [k] has not settled and no input that settles is
    rejected, the whole is pending. *)
Lemma pending_run promises k (schedule : list nat) st :
  (forall j, j ∈ schedule -> j <> k /\ forall e, promises !! j <> Some (Rejected e)) ->
  values st !! k = Some None -> settled st = None ->
  let st' := foldl (fun st i => match promises !! i with
                                | Some r => settle_element i r st
                                | None => st
                                end) st schedule in
  values st' !! k = Some None /\ settled st' = None.
Proof.
  revert st. induction schedule as [|i schedule IH]; intros st Hpre Hhole Hnone.
  - now split.
  - simpl.
    destruct (Hpre i) as [Hne Hrej]; [now left |].
    assert (Hstep : values (match promises !! i with
                            | Some r => settle_element i r st
                            | None => st
                            end) !! k = Some None
                    /\ settled (match promises !! i with
                                | Some r => settle_element i r st
                                | None => st
                                end) = None).
    { destruct (promises !! i) as [[v|e]|] eqn:Hi.
      - unfold settle_element. rewrite Hnone. cbn [values settled].
        assert (Hins : <[i:=Some v]> (values st) !! k = Some None)
          by (rewrite list_lookup_insert_ne; [exact Hhole | exact Hne]).
        split; [exact Hins |]. now rewrite (mapM_id_hole _ _ Hins).
      - now destruct (Hrej e).
      - now split. }
    destruct Hstep as [Hhole' Hnone'].
    apply IH; [| exact Hhole' | exact Hnone'].
    intros j Hj. apply Hpre. now right.
Qed.

(** [Promise.all] is rejected with the reason of the input that is the
    first to be rejected, in the order of settlement. *)
Lemma Promise_all_first_rejection promises (pre post : list nat) k e :
  promises !! k = Some (Rejected e) ->
  (forall j, j ∈ pre -> forall e', promises !! j <> Some (Rejected e')) ->
  Promise_all promises (pre ++ k :: post) = Some (Rejected e).
Proof.
  intros Hk Hpre. unfold Promise_all. rewrite foldl_app. simpl.
  destruct (pending_run promises k pre (all_start (length promises)))
    as [Hhole Hnone].
  - intros j Hj. split; [| now apply Hpre].
    intros Heq. subst j. exact (Hpre k Hj e Hk).
  - apply lookup_replicate. split; [reflexivity |]. now apply lookup_lt_Some in Hk.
  - unfold all_start. cbn [settled]. rewrite (mapM_id_hole _ k); [reflexivity |].
    apply lookup_replicate. split; [reflexivity |]. now apply lookup_lt_Some in Hk.
  - rewrite Hk.
    match goal with
    | |- settled (foldl _ ?st post) = _ =>
        assert (Hs : settled st = Some (Rejected e))
          by (apply settle_rejected; exact Hnone);
        now rewrite (run_settled _ _ _ _ Hs)
    end.
Qed.

End Run.

End PromiseOrder.

(** ** Ingestion as a whole *)

Module IngestFacts.
Import JS App PromiseFacts PromiseOrder AppFacts.

(** Promises that are all fulfilled come from reads that all succeed. *)
Lemma filePromises_fulfilled_inv e items newFiles :
  map (filePromise e) items = Fulfilled <$> newFiles ->
  exists results,
    Forall2 (fun item result => readAsArrayBuffer (file item) = Fulfilled result)
            items results
    /\ newFiles = zip_with (fun item result => onload item e result) items results.
Proof.
  revert newFiles. induction items as [|item items IH]; intros [|f newFiles] H;
    try discriminate.
  - exists []. split; [constructor | reflexivity].
  - cbn in H. injection H as Hitem Hrest.
    destruct (IH _ Hrest) as (results & Hall & ->).
    unfold filePromise in Hitem.
    destruct (readAsArrayBuffer (file item)) as [result|] eqn:Hread; [| discriminate].
    injection Hitem as <-.
    exists (result :: results). split; [now constructor | reflexivity].
Qed.

(** What a call of [handleFileProcessing] can leave: the working set,
    the store and the view as they were, or the records of all the
    items. *)
Lemma handleFileProcessing_cases schedule items w :
  let w' := handleFileProcessing schedule items w in
  (processedFiles (state w') = processedFiles (state w)
   /\ localStorage w' = localStorage w
   /\ view (state w') = view (state w)
   /\ targetConversionType (state w') = targetConversionType (state w))
  \/ (exists results,
        items <> []
        /\ Forall2 (fun item result =>
                      readAsArrayBuffer (file item) = Fulfilled result)
                   items results
        /\ w' = setIsLoading false
                  (setView filesView
                     (setProcessedFiles
                        (zip_with (fun item result =>
                                     onload item (targetConversionType (state w)) result)
                                  items results)
                        (setIsLoading true w)))).
Proof.
  unfold handleFileProcessing.
  destruct (length items =? 0) eqn:Hlen; [left; now repeat split |].
  destruct (Promise_all _ schedule) as [[newFiles | [error f]] |] eqn:Hall;
    [| left; now repeat split | left; now repeat split].
  right. apply Promise_all_fulfilled_inv in Hall.
  destruct (filePromises_fulfilled_inv _ _ _ Hall) as (results & Hreads & ->).
  exists results. split; [| split; [exact Hreads | reflexivity]].
  intros ->. discriminate.
Qed.

Lemma handleDroppedItems_cases fuel schedule dataTransfer w :
  let w' := handleDroppedItems fuel schedule dataTransfer w in
  (processedFiles (state w') = processedFiles (state w)
   /\ localStorage w' = localStorage w
   /\ view (state w') = view (state w)
   /\ targetConversionType (state w') = targetConversionType (state w))
  \/ (exists items results,
        extractFilesFromDataTransfer fuel dataTransfer = Some (Fulfilled items)
        /\ items <> []
        /\ Forall2 (fun item result =>
                      readAsArrayBuffer (file item) = Fulfilled result)
                   items results
        /\ w' = setIsLoading false
                  (setView filesView
                     (setProcessedFiles
                        (zip_with (fun item result =>
                                     onload item (targetConversionType (state w)) result)
                                  items results)
                        (setIsLoading true (setIsLoading true (setIsDragging false w)))))).
Proof.
  unfold handleDroppedItems.
  destruct (extractFilesFromDataTransfer fuel dataTransfer) as [[items | e] |];
    [| left; now repeat split | left; now repeat split].
  destruct (handleFileProcessing_cases schedule items
              (setIsLoading true (setIsDragging false w)))
    as [(Hf & Hs & Hv & Ht) | (results & Hne & Hreads & Heq)].
  - left. rewrite Hf, Hs, Hv, Ht. now repeat split.
  - right. exists items, results. now repeat split.
Qed.

End IngestFacts.

(** ** The paths of the records *)

Module NamedFacts.
Import JS App Walk RenameSpec PromiseFacts PromiseOrder WalkFacts IngestFacts.

(** The record of an item whose path has no empty directory segment has
    only the extension replaced. *)
Lemma onload_replaces_extension item e result :
  no_empty_directory (path item) = true ->
  let r := onload item e result in
  newPath r = replace_extension (originalPath r) (newType r).
Proof.
  intros H r. subst r. cbn [onload newPath originalPath newType].
  now apply RenameRefinement.newPath_of_replace_extension.
Qed.

(** A path with an empty directory segment, which neither the full
    paths of the entries nor the names of the files give, would lose
    the segment. *)
Remark empty_segment_is_dropped :
  let r := onload Sample.doubled_slash "ts" [] in
  originalPath r = "a//b.txt"%string
  /\ newPath r = "a/b.ts"%string
  /\ replace_extension (originalPath r) (newType r) = "a//b.ts"%string.
Proof. repeat split. Qed.

Lemma onload_records e items results :
  Forall (fun item => no_empty_directory (path item) = true) items ->
  Forall (fun r => newPath r = replace_extension (originalPath r) (newType r))
         (zip_with (fun item result => onload item e result) items results).
Proof.
  intros H. revert results.
  induction H as [|item items Hitem _ IH]; intros [|result results];
    try constructor.
  - now apply onload_replaces_extension.
  - apply IH.
Qed.

Lemma Forall_filter_list {A} (P : A -> Prop) (f : A -> bool) (l : list A) :
  Forall P l -> Forall P (List.filter f l).
Proof.
  induction 1 as [|x l Hx _ IH]; simpl; [constructor |].
  destruct (f x); [now constructor | exact IH].
Qed.

(** The entries a read of a directory ends in are children of it. *)
Lemma read_children fuel reader entries :
  readAllDirectoryEntries next_batch fuel reader = Some (Fulfilled entries) ->
  forall e, e ∈ entries -> e ∈ children reader.
Proof.
  unfold readAllDirectoryEntries. intros H e He.
  destruct (read_directory_ends reader []) as (o & Ho & Hin).
  pose proof (readEntries_loop_more_fuel _ _ (fuel + S (length reader)) _ _ _ H
                ltac:(lia)) as H1.
  pose proof (readEntries_loop_more_fuel _ _ (fuel + S (length reader)) _ _ _ Ho
                ltac:(lia)) as H2.
  rewrite H1 in H2. injection H2 as <-.
  destruct (Hin entries eq_refl e He) as [Hnil | Hchild]; [| exact Hchild].
  now apply elem_of_nil in Hnil.
Qed.

Lemma named_children reader :
  forallb (fun reply => match reply with
                        | Fulfilled entries => forallb named entries
                        | Rejected _ => true
                        end) reader = true ->
  forall e, e ∈ children reader -> named e = true.
Proof.
  unfold children. induction reader as [|[entries | err] reader IH];
    intros H e He; cbn in H, He.
  - now apply elem_of_nil in He.
  - apply andb_prop in H as [Hentries Hrest].
    apply elem_of_app in He as [He | He]; [| now apply IH].
    rewrite forallb_forall in Hentries. apply Hentries.
    now apply list_elem_of_In.
  - now apply IH.
Qed.

(** The walk of a named entry gives paths without an empty directory
    segment. *)
Lemma walk_named fuel : forall entry files,
  named entry = true ->
  getFilesFromEntry fuel (Some entry) = Some (Fulfilled files) ->
  Forall (fun f => no_empty_directory (path f) = true) files.
Proof.
  induction fuel as [|fuel IH]; intros entry files Hnamed H; [discriminate |].
  destruct entry as [fullPath [f | err] | fullPath reader |]; simpl in H.
  - injection H as <-. repeat constructor. exact Hnamed.
  - discriminate.
  - destruct (readAllDirectoryEntries next_batch fuel reader)
      as [[entries | err] |] eqn:Hread; try discriminate.
    destruct (mapM _ entries) as [promises |] eqn:Hmap; [| discriminate].
    destruct (Promise_all_in_order promises) as [[nested | err] |] eqn:Hall;
      try discriminate.
    injection H as <-.
    apply Promise_all_fulfilled_inv in Hall. subst promises.
    apply mapM_Some_1 in Hmap.
    apply Forall_concat, Forall_forall. intros files Hfiles.
    apply list_elem_of_lookup in Hfiles as [k Hk].
    assert (Hk' : (Fulfilled (E:=DOMException) <$> nested) !! k
                  = Some (Fulfilled files)) by (now rewrite list_lookup_fmap, Hk).
    destruct (Forall2_lookup_r _ _ _ _ _ Hmap Hk') as (e & He & Hwalk).
    apply (IH e); [| exact Hwalk].
    apply (named_children reader Hnamed).
    apply (read_children fuel reader entries Hread).
    now apply list_elem_of_lookup_2 in He.
  - injection H as <-. constructor.
Qed.

(** So does the extraction of a named drop. *)
Lemma extract_named fuel dataTransfer items :
  named_drop dataTransfer = true ->
  extractFilesFromDataTransfer fuel dataTransfer = Some (Fulfilled items) ->
  Forall (fun f => no_empty_directory (path f) = true) items.
Proof.
  unfold named_drop, extractFilesFromDataTransfer.
  intros Hnamed H. apply andb_prop in Hnamed as [Hitems Hfiles].
  destruct (hierarchical dataTransfer).
  - destruct (mapM webkitGetAsEntry (App.items dataTransfer)) as [got |] eqn:Hgot;
      [| discriminate].
    destruct (mapM _ (omap id got)) as [promises |] eqn:Hmap; [| discriminate].
    destruct (Promise_all_in_order promises) as [[nested | err] |] eqn:Hall;
      try discriminate.
    injection H as <-. apply Forall_filter_list.
    apply Promise_all_fulfilled_inv in Hall. subst promises.
    apply mapM_Some_1 in Hmap. apply mapM_Some_1 in Hgot.
    apply Forall_concat, Forall_forall. intros files Hin.
    apply list_elem_of_lookup in Hin as [k Hk].
    assert (Hk' : (Fulfilled (E:=DOMException) <$> nested) !! k
                  = Some (Fulfilled files)) by (now rewrite list_lookup_fmap, Hk).
    destruct (Forall2_lookup_r _ _ _ _ _ Hmap Hk') as (e & He & Hwalk).
    apply (walk_named fuel e); [| exact Hwalk].
    apply list_elem_of_lookup_2, list_elem_of_omap in He as (g & Hg & Hid).
    unfold id in Hid. subst g.
    apply list_elem_of_lookup in Hg as [j Hj].
    destruct (Forall2_lookup_r _ _ _ _ _ Hgot Hj) as (item & Hitem & Hentry).
    rewrite forallb_forall in Hitems.
    specialize (Hitems item). rewrite Hentry in Hitems. apply Hitems.
    apply list_elem_of_lookup_2 in Hitem. now apply list_elem_of_In.
  - injection H as <-. apply Forall_map, Forall_filter_list.
    apply List.Forall_forall. intros f Hf.
    rewrite forallb_forall in Hfiles. now apply Hfiles.
Qed.

(** The records after [handleFileProcessing] are those of before, or
    records of the items. *)
Lemma handleFileProcessing_records (P : ProcessedFile -> Prop) schedule items w :
  Forall P (processedFiles (state w)) ->
  (forall results,
      Forall P (zip_with (fun item result =>
                            onload item (targetConversionType (state w)) result)
                         items results)) ->
  Forall P (processedFiles (state (handleFileProcessing schedule items w))).
Proof.
  intros Hold Hnew.
  destruct (handleFileProcessing_cases schedule items w)
    as [(-> & _) | (results & _ & _ & ->)]; [exact Hold |].
  apply Hnew.
Qed.

End NamedFacts.

(* ================================================================= *)
(** * The claims *)

Import JS App.

(** C1, as stated, fails on a stream without chunks.  The endpoint
    closes the stream without a chunk when the model yields no text;
    the loop then ends at once and the conversation has gained the
    question and no message of the model. *)
Lemma C1_empty_stream_gains_no_message :
  let st' := Chat.handleSendMessage Sample.latin1 tt Sample.latin1_stream
               (Sample.answering Sample.nothing) [] Sample.asking in
  Chat.messages st'
  = [{| Chat.role := Chat.user; Chat.text := "hi"; Chat.image := None |}]
  /\ ~ (exists m, Chat.role m = Chat.model /\ In m (Chat.messages st')).
Proof.
  split; [reflexivity |].
  intros (m & Hm & [<- | []]). discriminate.
Qed.

(** C1 (amended): for every stream of one chunk or more that is read to
    its end, the conversation gains the question and exactly one
    message of the model after it, and the text of that message is the
    decoded texts of all chunks, one after another in arrival order. *)
Theorem C1_stream_reassembled
    (TextDecoder_decode : list byte -> option string) {Decoder : Type}
    (new_TextDecoder : Decoder)
    (decode_stream : Decoder -> list byte -> string * Decoder)
    (fetch : list Chat.Part -> outcome Chat.Response string)
    (files : list ProcessedFile) (st : Chat.State)
    (contents : list Chat.Part) (response : Chat.Response)
    (stream : Chat.ReadableStream) (first : list byte) (rest : list (list byte)) :
  (negb (Boolean (Chat.trim (Chat.input st)))
   && negb (bool_decide (is_Some (Chat.attachedImage st)))
   || Chat.isLoading st) = false ->
  Chat.contents_of TextDecoder_decode files (Chat.attachedImage st)
                   (Chat.trim (Chat.input st)) = Fulfilled contents ->
  fetch contents = Fulfilled response ->
  Chat.ok response = true ->
  Chat.body response = Some stream ->
  Chat.chunks stream = first :: rest ->
  Chat.ending stream = Fulfilled tt ->
  Chat.messages
    (Chat.handleSendMessage TextDecoder_decode new_TextDecoder decode_stream
                            fetch files st)
  = Chat.messages st
    ++ [ {| Chat.role := Chat.user; Chat.text := Chat.trim (Chat.input st);
            Chat.image := Chat.url <$> Chat.attachedImage st |};
         {| Chat.role := Chat.model;
            Chat.text :=
              Chat.concat_texts
                (Chat.decoded decode_stream new_TextDecoder (first :: rest));
            Chat.image := None |} ].
Proof.
  intros Hguard Hcontents Hfetch Hok Hbody Hchunks Hend.
  rewrite ChatFacts.handleSendMessage_sent by exact Hguard. cbv zeta.
  unfold Chat.tryBlock. rewrite Hcontents, Hfetch, Hok, Hbody, Hchunks, Hend.
  rewrite ChatFacts.readLoop_stream. rewrite <- app_assoc. reflexivity.
Qed.

(** The chunks ["> "], ["Hel"], ["lo wo"], ["rld"] make the one message
    ["> Hello world"]. *)
Lemma C1_hello_world :
  Chat.messages
    (Chat.handleSendMessage Sample.latin1 tt Sample.latin1_stream
       (Sample.answering Sample.hello_world) [] Sample.asking)
  = [ {| Chat.role := Chat.user; Chat.text := "hi"; Chat.image := None |};
      {| Chat.role := Chat.model; Chat.text := "> Hello world";
         Chat.image := None |} ].
Proof.
  exact (C1_stream_reassembled Sample.latin1 tt Sample.latin1_stream
           (Sample.answering Sample.hello_world) [] Sample.asking
           [Chat.textPart "hi"] Sample.hello_world
           {| Chat.chunks := [Sample.bytes "> "; Sample.bytes "Hel";
                              Sample.bytes "lo wo"; Sample.bytes "rld"];
              Chat.ending := Fulfilled tt |}
           (Sample.bytes "> ")
           [Sample.bytes "Hel"; Sample.bytes "lo wo"; Sample.bytes "rld"]
           eq_refl eq_refl eq_refl eq_refl eq_refl eq_refl eq_refl).
Defined.

(** C2, as stated, fails for a target extension with a dot in it: the
    second renaming takes the first part of the extension for a part of
    the name. *)
Lemma C2_dotted_extension_not_idempotent :
  newPath_of "a.txt" "tar.gz" = "a.tar.gz"%string
  /\ newPath_of (newPath_of "a.txt" "tar.gz") "tar.gz" = "a.tar.tar.gz"%string
  /\ ~ (forall p e, newPath_of (newPath_of p e) e = newPath_of p e).
Proof.
  split; [reflexivity |]. split; [reflexivity |].
  intros H. specialize (H "a.txt" "tar.gz")%string. discriminate H.
Qed.

(** C2 (amended): for every path [p] and every target extension [e]
    with neither ['.'] nor ['/'] in it, renaming the renamed path again
    gives the renamed path. *)
Theorem C2_rename_idempotent (p e : string) :
  has_char "." e = false -> has_char "/" e = false ->
  newPath_of (newPath_of p e) e = newPath_of p e.
Proof. apply RenameFacts.newPath_of_idempotent. Qed.

(** A path with dots in a directory name and in the leaf name. *)
Lemma C2_rename_idempotent_witness :
  newPath_of (newPath_of "src/v1.2/Button.test.tsx" "ts") "ts"
  = newPath_of "src/v1.2/Button.test.tsx" "ts".
Proof.
  exact (C2_rename_idempotent "src/v1.2/Button.test.tsx" "ts" eq_refl eq_refl).
Defined.

(** Every extension the selector offers is one of those. *)
Lemma ConversionOptions_idempotent (p e : string) :
  In e ConversionOptions ->
  newPath_of (newPath_of p e) e = newPath_of p e.
Proof.
  intros He. apply RenameFacts.newPath_of_idempotent;
    simpl in He; intuition (subst; reflexivity).
Qed.

(** C3 fails on the code: a file of no bytes that is dropped as a
    directory entry is part of the result, while the same file dropped
    as a flat file is not. *)
Lemma C3_zero_byte_entry_is_kept :
  extractFilesFromDataTransfer 1 Sample.drop_with_entries
  = Some (Fulfilled [ {| file := Sample.empty; path := "empty.txt" |} ])
  /\ fileSize Sample.empty = 0%N
  /\ extractFilesFromDataTransfer 1 Sample.drop_without_entries
     = Some (Fulfilled []).
Proof. repeat split. Qed.

(** C4: when the calls of [readEntries] return the non-empty batches
    [batches], in this order, and then an empty batch,
    [readAllDirectoryEntries] resolves with the batches one after
    another, in the order they were returned. *)
Theorem C4_all_batches_in_order {Reader Ent : Type}
    (readEntries : Reader -> outcome (list Ent) DOMException * Reader)
    (r r' : Reader) (batches : list (list Ent)) (fuel : nat) :
  Forall (fun entries => entries <> []) batches ->
  returns readEntries r (batches ++ [[]]) r' ->
  length batches < fuel ->
  readAllDirectoryEntries readEntries fuel r = Some (Fulfilled (concat batches)).
Proof.
  intros Hne Hret Hfuel. unfold readAllDirectoryEntries.
  now rewrite (ReaderFacts.readEntries_loop_drains _ _ Hne r r' [] fuel Hret Hfuel).
Qed.

(** Two batches, then the empty one: the first batch followed by the
    second. *)
Lemma C4_two_batches :
  readAllDirectoryEntries next_batch 3 Sample.two_batches
  = Some (Fulfilled (Sample.first_batch ++ Sample.second_batch)).
Proof.
  apply (C4_all_batches_in_order next_batch Sample.two_batches []
           [Sample.first_batch; Sample.second_batch] 3).
  - repeat constructor; discriminate.
  - repeat econstructor.
  - simpl. lia.
Defined.

(** C5, as stated, fails on the empty list of items: the handler
    returns at once and the working set held before stays, with a
    record that no item stands for. *)
Lemma C5_empty_list_keeps_the_working_set :
  processedFiles (state (handleFileProcessing [] [] Sample.loaded))
  = [Sample.old_record]
  /\ map originalPath
       (processedFiles (state (handleFileProcessing [] [] Sample.loaded)))
     <> map path [].
Proof. split; [reflexivity | discriminate]. Qed.

(** C5 (amended): for every non-empty list of items whose reads all
    succeed, and whatever the order in which the reads complete, the
    working set becomes the records of the items, one per item and in
    the order of the list. *)
Theorem C5_working_set_in_input_order
    (schedule : list nat) (items : list FileWithRelativePath)
    (results : list (list byte)) (w : World) :
  items <> [] ->
  Forall2 (fun item result => readAsArrayBuffer (file item) = Fulfilled result)
          items results ->
  Permutation schedule (seq 0 (length items)) ->
  let w' := handleFileProcessing schedule items w in
  processedFiles (state w')
  = zip_with (fun item result =>
                onload item (targetConversionType (state w)) result)
             items results
  /\ map originalPath (processedFiles (state w')) = map path items
  /\ map content (processedFiles (state w')) = results.
Proof.
  intros Hne Hreads Hperm w'. subst w'.
  rewrite (AppFacts.handleFileProcessing_fulfilled _ _ _ _ Hne Hreads).
  - cbn [setIsLoading setView setProcessedFiles state processedFiles].
    pose proof (Forall2_length _ _ _ Hreads) as Hlen.
    split; [reflexivity |]. split; [now apply AppFacts.onload_paths |].
    clear Hreads Hperm Hne. revert results Hlen.
    induction items as [|item items IH]; intros [|result results] Hlen;
      simpl in *; try lia; [reflexivity |].
    f_equal. apply IH. lia.
  - intros i Hi. apply list_elem_of_In.
    apply (Permutation_in _ (Permutation_sym Hperm)). apply in_seq. lia.
Qed.

(** The second read completes before the first. *)
Lemma C5_second_read_first :
  map newPath
    (processedFiles (state (handleFileProcessing [1; 0] Sample.two_items Sample.fresh)))
  = ["src/components/Button.ts"; "README.ts"]%string.
Proof.
  exact (f_equal (map newPath)
           (proj1 (C5_working_set_in_input_order [1; 0] Sample.two_items
                     [Sample.bytes "tsx"; Sample.bytes "hello"] Sample.fresh
                     ltac:(discriminate) ltac:(repeat constructor)
                     (perm_swap 0 1 [])))).
Defined.

(** C6: when a read of the batch fails, the working set and the stored
    state stay as they were, whatever the order in which the reads
    complete; once the failed read has completed, the handler has shown
    one alert, for the file of a failed read, and has done nothing
    else. *)
Theorem C6_failed_read_fails_the_batch
    (schedule : list nat) (items : list FileWithRelativePath) (w : World)
    (k : nat) (item : FileWithRelativePath) (error : DOMException) :
  items !! k = Some item ->
  readAsArrayBuffer (file item) = Rejected error ->
  let w' := handleFileProcessing schedule items w in
  processedFiles (state w') = processedFiles (state w)
  /\ localStorage w' = localStorage w
  /\ (k ∈ schedule ->
      exists failed e,
        failed ∈ items
        /\ readAsArrayBuffer (file failed) = Rejected e
        /\ w' = setIsLoading false
                  (alert ("An error occurred while reading file: "
                          +:+ fileName (file failed) +:+ ".")
                         (setIsLoading true w))).
Proof.
  intros Hk Hread w'. subst w'.
  destruct (AppFacts.handleFileProcessing_failed schedule _ w _ _ _ Hk Hread)
    as [Hfiles Hstore].
  split; [exact Hfiles |]. split; [exact Hstore |].
  intros Hin. now apply (AppFacts.handleFileProcessing_failed_alert _ _ _ k item error).
Qed.

(** The second of three reads fails and is the last to complete. *)
Lemma C6_locked_file :
  processedFiles
    (state (handleFileProcessing [2; 0; 1] Sample.three_items Sample.loaded))
  = [Sample.old_record]
  /\ alerts (handleFileProcessing [2; 0; 1] Sample.three_items Sample.loaded)
     = ["An error occurred while reading file: locked.bin."%string].
Proof.
  split.
  - exact (proj1 (C6_failed_read_fails_the_batch [2; 0; 1] Sample.three_items
                    Sample.loaded 1 _ _ eq_refl eq_refl)).
  - reflexivity.
Defined.

(** C7: a response that is not [ok] and whose body is the object
    [{error: X}] makes the conversation gain the question and one
    message of the model, and the text of that message holds [X]. *)
Theorem C7_error_response_one_message
    (TextDecoder_decode : list byte -> option string) {Decoder : Type}
    (new_TextDecoder : Decoder)
    (decode_stream : Decoder -> list byte -> string * Decoder)
    (fetch : list Chat.Part -> outcome Chat.Response string)
    (files : list ProcessedFile) (st : Chat.State)
    (contents : list Chat.Part) (response : Chat.Response) (X : string) :
  (negb (Boolean (Chat.trim (Chat.input st)))
   && negb (bool_decide (is_Some (Chat.attachedImage st)))
   || Chat.isLoading st) = false ->
  Chat.contents_of TextDecoder_decode files (Chat.attachedImage st)
                   (Chat.trim (Chat.input st)) = Fulfilled contents ->
  fetch contents = Fulfilled response ->
  Chat.ok response = false ->
  Chat.json response = Fulfilled (Some X) ->
  let errorText :=
    "Sorry, an error occurred: " +:+ Chat.responseError response in
  Chat.messages
    (Chat.handleSendMessage TextDecoder_decode new_TextDecoder decode_stream
                            fetch files st)
  = Chat.messages st
    ++ [ {| Chat.role := Chat.user; Chat.text := Chat.trim (Chat.input st);
            Chat.image := Chat.url <$> Chat.attachedImage st |};
         {| Chat.role := Chat.model; Chat.text := errorText;
            Chat.image := None |} ]
  /\ Chat.includes errorText X.
Proof.
  intros Hguard Hcontents Hfetch Hok Hjson errorText. subst errorText. split.
  - rewrite ChatFacts.handleSendMessage_sent by exact Hguard. cbv zeta.
    unfold Chat.tryBlock. rewrite Hcontents, Hfetch, Hok.
    rewrite <- app_assoc. reflexivity.
  - destruct (ChatFacts.responseError_includes _ _ Hjson) as (b & a & ->).
    exists ("Sorry, an error occurred: " +:+ b)%string, a.
    now rewrite JSFacts.append_assoc.
Qed.

(** The server has no key. *)
Lemma C7_no_key :
  Chat.messages
    (Chat.handleSendMessage Sample.latin1 tt Sample.latin1_stream
       (Sample.answering Sample.no_key) [] Sample.asking)
  = [ {| Chat.role := Chat.user; Chat.text := "hi"; Chat.image := None |};
      {| Chat.role := Chat.model;
         Chat.text := "Sorry, an error occurred: API_KEY environment variable not set on the server.";
         Chat.image := None |} ].
Proof.
  exact (proj1 (C7_error_response_one_message Sample.latin1 tt Sample.latin1_stream
                  (Sample.answering Sample.no_key) [] Sample.asking
                  [Chat.textPart "hi"] Sample.no_key
                  "API_KEY environment variable not set on the server."
                  eq_refl eq_refl eq_refl eq_refl eq_refl)).
Defined.

(** C8: every record of the working set has, as new path, its original
    path with only the extension of the leaf name replaced by the
    target extension (put after the leaf name where it has no dot), the
    directory segments kept as they are.  The invariant is kept by
    every handler that sets the working set: by [handleFileProcessing]
    on items whose paths have no empty directory segment, by
    [handleDroppedItems] on a drop in which the full paths of the
    entries, less their first ['/'], and the names of the files have no
    empty directory segment, by [handleFileChange] on picked files with
    such paths, and by [handleClear]. *)
Theorem C8_records_replace_only_the_extension (w : World) :
  Forall (fun r => newPath r
                   = RenameSpec.replace_extension (originalPath r) (newType r))
         (processedFiles (state w)) ->
  (forall schedule items,
      Forall (fun item => RenameSpec.no_empty_directory (path item) = true)
             items ->
      Forall (fun r => newPath r
                       = RenameSpec.replace_extension (originalPath r) (newType r))
             (processedFiles (state (handleFileProcessing schedule items w))))
  /\ (forall fuel schedule dataTransfer,
        Walk.named_drop dataTransfer = true ->
        Forall (fun r => newPath r
                         = RenameSpec.replace_extension (originalPath r) (newType r))
               (processedFiles
                  (state (handleDroppedItems fuel schedule dataTransfer w))))
  /\ (forall schedule files,
        Forall (fun item => RenameSpec.no_empty_directory (path item) = true)
               (Shell.filesWithPaths files) ->
        Forall (fun r => newPath r
                         = RenameSpec.replace_extension (originalPath r) (newType r))
               (processedFiles
                  (state (Shell.handleFileChange schedule (Some files) w))))
  /\ Forall (fun r => newPath r
                      = RenameSpec.replace_extension (originalPath r) (newType r))
            (processedFiles (state (handleClear w))).
Proof.
  intros Hold.
  assert (Hprocessing :
            forall schedule items w0,
              processedFiles (state w0) = processedFiles (state w) ->
              targetConversionType (state w0) = targetConversionType (state w) ->
              Forall (fun item => RenameSpec.no_empty_directory (path item) = true)
                     items ->
              Forall (fun r => newPath r
                               = RenameSpec.replace_extension (originalPath r)
                                                              (newType r))
                     (processedFiles (state (handleFileProcessing schedule items w0)))).
  { intros schedule items w0 Hfiles Htarget Hitems.
    apply NamedFacts.handleFileProcessing_records; [now rewrite Hfiles |].
    intros results. now apply NamedFacts.onload_records. }
  split; [| split; [| split]].
  - intros schedule items. now apply Hprocessing.
  - intros fuel schedule dataTransfer Hnamed. unfold handleDroppedItems.
    destruct (extractFilesFromDataTransfer fuel dataTransfer)
      as [[items | err] |] eqn:Hextract; try exact Hold.
    apply Hprocessing; [reflexivity | reflexivity |].
    now apply (NamedFacts.extract_named fuel dataTransfer).
  - intros schedule files Hfiles. unfold Shell.handleFileChange.
    destruct files as [|f files]; [exact Hold |]. now apply Hprocessing.
  - constructor.
Qed.

(** The tree [docs] with two files, dropped on a working set of one
    record. *)
Lemma C8_dropped_docs :
  Forall (fun r => newPath r
                   = RenameSpec.replace_extension (originalPath r) (newType r))
         (processedFiles
            (state (handleDroppedItems 5 [1; 0] Fixtures.docs_drop Sample.loaded))).
Proof.
  apply (proj1 (proj2 (C8_records_replace_only_the_extension Sample.loaded
                         ltac:(repeat constructor)))
           5 [1; 0] Fixtures.docs_drop).
  reflexivity.
Defined.

(** C9, as stated, fails on a store that is full: the write of the
    serialized state is refused, the error is caught, and the key of
    the working set holds nothing although the working set has a
    record. *)
Lemma C9_full_store_refuses_the_write :
  let w := setProcessedFiles [Sample.old_record] Fixtures.full in
  processedFiles (state w) = [Sample.old_record]
  /\ localStorage w !! fileConverterState = None
  /\ localStorage w = localStorage Fixtures.full.
Proof. vm_compute. repeat split. Qed.

(** C9 (amended): setting the working set to the empty one, as the
    clear operation does, leaves no value under the key of the working
    set.  Setting it to one with records stores, where the store
    accepts the write, the text of the array of the records, each
    with its six members and the content in base64, under that key;
    where the store refuses the write the store is as it was.  No other
    key is touched. *)
Theorem C9_working_set_key (w : World) :
  localStorage (handleClear w) !! fileConverterState = None
  /\ localStorage (setProcessedFiles [] w) !! fileConverterState = None
  /\ (forall f l,
        let text :=
          JSON.stringify
            (map (fun r => [ ("id", fileId r);
                             ("originalPath", originalPath r);
                             ("newPath", newPath r);
                             ("content", arrayBufferToBase64 (content r));
                             ("originalType", originalType r);
                             ("newType", newType r) ]%string)
                 (f :: l)) in
        let w' := setProcessedFiles (f :: l) w in
        if quota w (<[fileConverterState := text]> (localStorage w))
        then localStorage w' !! fileConverterState = Some text
        else localStorage w' = localStorage w)
  /\ (forall newFiles key,
        key <> fileConverterState ->
        localStorage (setProcessedFiles newFiles w) !! key
        = localStorage w !! key).
Proof.
  unfold handleClear, setProcessedFiles. cbn [localStorage].
  split; [apply AppFacts.saved_empty |].
  split; [apply AppFacts.saved_empty |].
  split.
  - intros f l. cbv zeta.
    change (map (fun r => [ ("id", fileId r);
                            ("originalPath", originalPath r);
                            ("newPath", newPath r);
                            ("content", arrayBufferToBase64 (content r));
                            ("originalType", originalType r);
                            ("newType", newType r) ]%string) (f :: l))
      with (map serializable (f :: l)).
    destruct (quota w _) eqn:Hquota.
    + rewrite (AppFacts.save_accepted _ _ _ _ Hquota). apply lookup_insert_eq.
    + apply (AppFacts.save_refused _ _ _ _ Hquota).
  - intros newFiles key. apply AppFacts.saved_other_keys.
Qed.

(** C10, as stated, fails on a store that is full: the working set
    saved there and loaded back is the empty one. *)
Lemma C10_refused_write_loads_nothing :
  loadStateFromLocalStorage
    (saveStateToLocalStorage Fixtures.forty [Sample.old_record] ∅)
  = Some []
  /\ content Sample.old_record = Sample.bytes "hello".
Proof. vm_compute. split; reflexivity. Qed.

(** C10 (amended): the buffer read back from its base64 text has the
    bytes of the buffer; and where the store accepts the write (or the
    working set is empty), the working set loaded from the store after
    it was saved there is the working set, record by record and byte
    by byte.  Where the store refuses the write, it is as it was. *)
Theorem C10_accepted_write_loads_back :
  (forall buffer : list byte,
      base64ToArrayBuffer (arrayBufferToBase64 buffer) = Some buffer)
  /\ (forall (quota : gmap string string -> bool)
             (processedFiles : list ProcessedFile) (store : gmap string string),
        processedFiles = []
        \/ quota (<[fileConverterState :=
                      JSON.stringify (map serializable processedFiles)]> store)
           = true ->
        loadStateFromLocalStorage
          (saveStateToLocalStorage quota processedFiles store)
        = Some processedFiles)
  /\ (forall (quota : gmap string string -> bool)
             (processedFiles : list ProcessedFile) (store : gmap string string),
        processedFiles <> [] ->
        quota (<[fileConverterState :=
                   JSON.stringify (map serializable processedFiles)]> store)
        = false ->
        saveStateToLocalStorage quota processedFiles store = store).
Proof.
  split; [apply AppFacts.base64ToArrayBuffer_arrayBufferToBase64 |].
  split; [apply AppFacts.load_save |].
  intros quota [|f l] store Hne Hquota; [now destruct Hne |].
  now apply AppFacts.save_refused.
Qed.

(** One record saved to a store of five MiB and loaded back. *)
Lemma C10_readme_loads_back :
  loadStateFromLocalStorage
    (saveStateToLocalStorage Sample.five_MiB [Sample.old_record] ∅)
  = Some [Sample.old_record].
Proof.
  apply (proj1 (proj2 C10_accepted_write_loads_back) Sample.five_MiB
           [Sample.old_record] ∅).
  right. reflexivity.
Defined.

(* ================================================================= *)
(** * Further properties *)

(** ** Paths, types and identifiers of the records *)

Module RecordFacts.
Import JS JSFacts App RenameSpec RenameFacts.
#[local] Arguments String.append : simpl nomatch.

Lemma split_app sep (s t : string) :
  split sep (s +:+ String sep t) = split sep s ++ split sep t.
Proof.
  induction s as [|a s IH]; cbn.
  - now rewrite Ascii.eqb_refl.
  - destruct (Ascii.eqb a sep) eqn:Ha.
    + now rewrite IH.
    + rewrite IH. destruct (split sep s) as [|h l] eqn:Hs.
      * now destruct (split_nonempty sep s).
      * reflexivity.
Qed.

Lemma last_app_split sep (s t : string) :
  has_char sep t = false ->
  last (split sep (s +:+ String sep t)) = Some t.
Proof.
  intros Ht. rewrite split_app, (split_free _ _ Ht).
  now rewrite last_snoc.
Qed.

Lemma join_ends sep (l : list string) x :
  exists stem, join sep (l ++ [x]) = stem +:+ x.
Proof.
  destruct l as [|a l].
  - now exists EmptyString.
  - exists (join sep (a :: l) +:+ sep).
    rewrite join_snoc by discriminate. now rewrite append_assoc.
Qed.

Lemma newName_of_ends nameAndExt e :
  exists stem, newName_of nameAndExt e = stem +:+ "." +:+ e.
Proof. eexists. reflexivity. Qed.

Lemma newPath_of_ends p e :
  exists stem, newPath_of p e = stem +:+ "." +:+ e.
Proof.
  destruct (newPath_of_segments p e) as (dirs & leaf & _ & ->).
  destruct (join_ends "/" (List.filter Boolean dirs) (newName_of leaf e))
    as [stem ->].
  destruct (newName_of_ends leaf e) as [stem' ->].
  exists (stem +:+ stem'). now rewrite append_assoc.
Qed.

Lemma digits_free_of_hyphen d :
  has_char "-" (NilEmpty.string_of_uint d) = false.
Proof. induction d; cbn; auto. Qed.

Lemma String_of_N_free n : has_char "-" (String_of_N n) = false.
Proof.
  unfold String_of_N, NilZero.string_of_uint.
  destruct (N.to_uint n); try reflexivity; apply digits_free_of_hyphen.
Qed.

Lemma String_of_N_inj n m : String_of_N n = String_of_N m -> n = m.
Proof.
  unfold String_of_N. intros H.
  assert (Hnil : forall k, N.to_uint k <> Decimal.Nil).
  { intros [|p]; [discriminate|apply DecimalPos.Unsigned.to_uint_nonnil]. }
  apply DecimalN.Unsigned.to_uint_inj.
  assert (Hn := NilZero.usu _ (Hnil n)).
  assert (Hm := NilZero.usu _ (Hnil m)).
  rewrite H in Hn. congruence.
Qed.

Lemma String_of_Z_nonneg z :
  (0 <= z)%Z -> String_of_Z z = String_of_N (Z.to_N z).
Proof.
  intros H. unfold String_of_Z. destruct (Z.ltb_spec z 0); [lia | reflexivity].
Qed.

(** A time stamp before 1970 is written with a sign, and the sign can be
    read as the end of the path. *)
Remark negative_time_stamp_shares_an_id :
  ("a" +:+ "-" +:+ String_of_Z (-1) +:+ "-" +:+ String_of_N 2
   = "a-" +:+ "-" +:+ String_of_Z 1 +:+ "-" +:+ String_of_N 2)%string.
Proof. reflexivity. Qed.

Lemma split_fileId p n m :
  split "-" (p +:+ "-" +:+ String_of_N n +:+ "-" +:+ String_of_N m)
  = split "-" p ++ [String_of_N n; String_of_N m].
Proof.
  change (p +:+ "-" +:+ String_of_N n +:+ "-" +:+ String_of_N m)
    with (p +:+ String "-" (String_of_N n +:+ String "-" (String_of_N m))).
  rewrite !split_app.
  now rewrite !(split_free _ _ (String_of_N_free _)).
Qed.

Lemma fileId_inj p n m p' n' m' :
  p +:+ "-" +:+ String_of_N n +:+ "-" +:+ String_of_N m
  = p' +:+ "-" +:+ String_of_N n' +:+ "-" +:+ String_of_N m' ->
  p = p' /\ n = n' /\ m = m'.
Proof.
  intros H. apply (f_equal (split "-")) in H.
  rewrite !split_fileId in H.
  change [String_of_N n; String_of_N m]
    with ([String_of_N n] ++ [String_of_N m]) in H.
  change [String_of_N n'; String_of_N m']
    with ([String_of_N n'] ++ [String_of_N m']) in H.
  rewrite !app_assoc in H.
  apply app_inj_tail in H as [H Hm].
  apply app_inj_tail in H as [H Hn].
  apply (f_equal (join "-")) in H. rewrite !join_split in H.
  auto using String_of_N_inj.
Qed.

Lemma newPath_of_split p e dirs leaf :
  has_char "/" e = false ->
  split "/" p = dirs ++ [leaf] ->
  split "/" (newPath_of p e) = List.filter Boolean dirs ++ [newName_of leaf e].
Proof.
  intros He Hp.
  destruct (newPath_of_segments p e) as (dirs' & leaf' & Hp' & ->).
  rewrite Hp in Hp'. apply app_inj_tail in Hp' as [<- <-].
  assert (Hfree := split_segments_free "/" p). rewrite Hp in Hfree.
  apply Forall_app in Hfree as [Hdirs Hleaf].
  apply split_join.
  - now destruct (List.filter Boolean dirs).
  - apply Forall_app. split.
    + now apply Forall_filter_keeps.
    + constructor; [|constructor].
      apply newName_of_free; auto. now inversion Hleaf.
Qed.

Lemma getFileType_ends stem e :
  has_char "." e = false -> Boolean e = true ->
  getFileType (stem +:+ "." +:+ e) = e.
Proof.
  intros He Hb. unfold getFileType, pop. cbn [fst].
  change (stem +:+ "." +:+ e) with (stem +:+ String "." e).
  rewrite (last_app_split _ _ _ He). cbn. unfold or_else. now rewrite Hb.
Qed.

End RecordFacts.

(** X1.  Whatever the path and the target extension, the new path ends
    with a dot and the target extension, which is the new type of the
    record. *)
Theorem new_path_ends_with_new_type
    (item : FileWithRelativePath) (targetConversionType : string)
    (result : list byte) :
  let r := App.onload item targetConversionType result in
  exists stem, App.newPath r = stem +:+ "." +:+ App.newType r.
Proof. intros r. exact (RecordFacts.newPath_of_ends _ _). Qed.

(** X2.  For a target extension without ['/'], the segments of the new
    path are the directory segments of the path that are not empty, in
    their order, and then the new leaf name: no directory is added,
    renamed or moved. *)
Theorem new_path_keeps_the_directories
    (p e : string) (dirs : list string) (leaf : string) :
  JS.has_char "/" e = false ->
  JS.split "/" p = dirs ++ [leaf] ->
  JS.split "/" (App.newPath_of p e)
  = List.filter JS.Boolean dirs ++ [App.newName_of leaf e].
Proof. apply RecordFacts.newPath_of_split. Qed.

Lemma new_path_keeps_the_directories_witness :
  JS.split "/" (App.newPath_of "/src//v1.2/Button.test.tsx" "ts")
  = ["src"; "v1.2"; "Button.test.ts"]%string.
Proof.
  apply (new_path_keeps_the_directories
           "/src//v1.2/Button.test.tsx" "ts" [EmptyString; "src"; EmptyString; "v1.2"]%string
           "Button.test.tsx"); reflexivity.
Defined.

(** X3.  For a target extension that is not empty and has no dot, the
    type read from the new path of a record is its new type: a record
    made from the converted file would have it as original type. *)
Theorem type_of_new_path_is_new_type
    (item : App.FileWithRelativePath) (targetConversionType : string)
    (result : list byte) :
  JS.has_char "." targetConversionType = false ->
  JS.Boolean targetConversionType = true ->
  let r := App.onload item targetConversionType result in
  App.getFileType (App.newPath r) = App.newType r.
Proof.
  intros He Hb r. subst r. unfold onload. cbn [newPath newType].
  destruct (RecordFacts.newPath_of_ends (path item) targetConversionType)
    as [stem ->].
  now apply RecordFacts.getFileType_ends.
Qed.

Lemma type_of_new_path_is_new_type_witness :
  App.getFileType
    (App.newPath (App.onload {| App.file := Sample.readme; App.path := "v1.2/notes" |}
                             "txt" []))
  = "txt"%string.
Proof.
  apply (type_of_new_path_is_new_type
           {| App.file := Sample.readme; App.path := "v1.2/notes" |} "txt" []);
    reflexivity.
Defined.

(** X4.  Two records of files whose time stamps are not before 1970
    have the same [id] exactly when their items agree on the path, the
    time stamp and the size. *)
Theorem record_id_identifies_path_time_size
    (item item' : App.FileWithRelativePath) (e e' : string)
    (result result' : list byte) :
  (0 <= App.lastModified (App.file item))%Z ->
  (0 <= App.lastModified (App.file item'))%Z ->
  App.fileId (App.onload item e result) = App.fileId (App.onload item' e' result')
  <-> App.path item = App.path item'
      /\ App.lastModified (App.file item) = App.lastModified (App.file item')
      /\ App.fileSize (App.file item) = App.fileSize (App.file item').
Proof.
  intros Hz Hz'. cbn. rewrite !(RecordFacts.String_of_Z_nonneg _ Hz),
    !(RecordFacts.String_of_Z_nonneg _ Hz'). split.
  - intros H. apply RecordFacts.fileId_inj in H as (Hp & Hn & Hm).
    split; [exact Hp |]. split; [lia | exact Hm].
  - now intros (-> & -> & ->).
Qed.

Lemma record_id_identifies_path_time_size_witness :
  App.fileId (App.onload {| App.file := Sample.readme; App.path := "README.md" |}
                         "ts" [])
  = App.fileId (App.onload {| App.file := Sample.button; App.path := "README.md" |}
                           "md" (Sample.bytes "x"))
  <-> "README.md"%string = "README.md"%string
      /\ App.lastModified Sample.readme = App.lastModified Sample.button
      /\ App.fileSize Sample.readme = App.fileSize Sample.button.
Proof.
  apply (record_id_identifies_path_time_size
           {| App.file := Sample.readme; App.path := "README.md" |}
           {| App.file := Sample.button; App.path := "README.md" |}
           "ts" "md" [] (Sample.bytes "x")); vm_compute; discriminate.
Defined.

(** X5.  A drop is taken in as a whole or not at all: after
    [handleDroppedItems], whatever the drop, the fuel and the order in
    which the reads complete, either the working set and the store are
    as they were, or the working set is the records of all the files
    extracted, one per file and in their order; the store then holds
    it, or, where it refused the write, is as it was. *)
Theorem drop_is_all_or_nothing
    (fuel : nat) (schedule : list nat) (dataTransfer : DataTransfer) (w : World) :
  let w' := handleDroppedItems fuel schedule dataTransfer w in
  (processedFiles (state w') = processedFiles (state w)
   /\ localStorage w' = localStorage w)
  \/ (exists items results,
        extractFilesFromDataTransfer fuel dataTransfer = Some (Fulfilled items)
        /\ Forall2 (fun item result =>
                      readAsArrayBuffer (file item) = Fulfilled result)
                   items results
        /\ processedFiles (state w')
           = zip_with (fun item result =>
                         onload item (targetConversionType (state w)) result)
                      items results
        /\ (loadStateFromLocalStorage (localStorage w')
            = Some (processedFiles (state w'))
            \/ localStorage w' = localStorage w)).
Proof.
  intros w'. subst w'.
  destruct (IngestFacts.handleDroppedItems_cases fuel schedule dataTransfer w)
    as [(Hf & Hs & _) | (items & results & Hex & _ & Hreads & ->)].
  - left. now split.
  - right. exists items, results. split; [exact Hex |]. split; [exact Hreads |].
    split; [reflexivity |]. cbn. apply AppFacts.load_save_cases.
Qed.

(** X6.  When reads of a batch fail, the alert names the file whose
    read is the first to fail, in the order in which the reads
    complete; nothing else is done. *)
Theorem alert_names_the_first_failed_read
    (pre post : list nat) (k : nat) (items : list FileWithRelativePath)
    (w : World) (item : FileWithRelativePath) (error : DOMException) :
  items !! k = Some item ->
  readAsArrayBuffer (file item) = Rejected error ->
  (forall j earlier, j ∈ pre -> items !! j = Some earlier ->
     exists result, readAsArrayBuffer (file earlier) = Fulfilled result) ->
  handleFileProcessing (pre ++ k :: post) items w
  = setIsLoading false
      (alert ("An error occurred while reading file: "
              +:+ fileName (file item) +:+ ".")
             (setIsLoading true w)).
Proof.
  intros Hk Hread Hpre. unfold handleFileProcessing.
  destruct (length items =? 0) eqn:Hlen.
  { apply Nat.eqb_eq in Hlen. apply lookup_lt_Some in Hk. lia. }
  rewrite (PromiseOrder.Promise_all_first_rejection _ pre post k (error, file item)).
  - reflexivity.
  - now apply (AppFacts.filePromises_rejected _ _ _ item).
  - intros j Hj e' Hrej. rewrite list_lookup_fmap in Hrej.
    destruct (items !! j) as [earlier|] eqn:Hearlier; [| discriminate].
    destruct (Hpre j earlier Hj Hearlier) as [result Hresult].
    cbn in Hrej. unfold filePromise in Hrej. rewrite Hresult in Hrej. discriminate.
Qed.

Lemma alert_names_the_first_failed_read_witness :
  handleFileProcessing [0; 2; 1] Fixtures.two_failures Sample.fresh
  = setIsLoading false
      (alert "An error occurred while reading file: gone.bin."
             (setIsLoading true Sample.fresh)).
Proof.
  apply (alert_names_the_first_failed_read [0] [1] 2 Fixtures.two_failures
           Sample.fresh {| file := Fixtures.gone; path := "gone.bin" |}
           "NotFoundError"%string).
  - reflexivity.
  - reflexivity.
  - intros j earlier Hj Hearlier. apply list_elem_of_singleton in Hj. subst j.
    injection Hearlier as <-. now eexists.
Defined.

(** ** A walk that meets a failure *)

Module UnreadableFacts.
Import JS App Walk PromiseFacts ReaderFacts WalkFacts.

(** A reader whose next replies are non-empty batches returns them. *)
Lemma returns_batches batches rest :
  returns next_batch (batches_then batches rest) batches rest.
Proof.
  induction batches as [|entries batches IH]; [constructor |].
  now apply (returns_cons _ _ entries (batches_then batches rest)).
Qed.

Lemma returns_app {Reader Ent : Type}
    (readEntries : Reader -> outcome (list Ent) DOMException * Reader)
    r batches r' batches' r'' :
  returns readEntries r batches r' -> returns readEntries r' batches' r'' ->
  returns readEntries r (batches ++ batches') r''.
Proof.
  induction 1 as [| ? ? ? ? ? Hcall _ IH]; intros H'; [exact H' |].
  simpl. eapply returns_cons; [exact Hcall | now apply IH].
Qed.

(** The read of a directory whose batches are followed by an empty one,
    or by nothing, ends in the batches and in nothing else. *)
Lemma read_batches batches rest fuel o :
  Forall (fun entries => entries <> []) batches ->
  rest = [] \/ (exists rest', rest = Fulfilled [] :: rest') ->
  readAllDirectoryEntries next_batch fuel (batches_then batches rest) = Some o ->
  o = Fulfilled (concat batches).
Proof.
  intros Hne Hrest H. unfold readAllDirectoryEntries in *.
  assert (Hret : exists r', returns next_batch (batches_then batches rest)
                                    (batches ++ [[]]) r').
  { destruct Hrest as [-> | (rest' & ->)].
    - exists []. eapply returns_app; [apply returns_batches |].
      now apply (returns_cons _ _ [] []); [| constructor].
    - exists rest'. eapply returns_app; [apply returns_batches |].
      now apply (returns_cons _ _ [] rest'); [| constructor]. }
  destruct Hret as [r' Hret].
  pose proof (readEntries_loop_more_fuel _ fuel (fuel + S (length batches)) _ _ _ H)
    as Hmore.
  rewrite (readEntries_loop_drains next_batch batches Hne _ r' [] _ Hret) in Hmore
    by lia.
  specialize (Hmore ltac:(lia)). now injection Hmore as <-.
Qed.

(** The read of a directory whose batches are followed by an error ends
    in the error. *)
Lemma read_error batches e rest :
  Forall (fun entries => entries <> []) batches ->
  forall fuel allEntries o,
    readEntries_loop next_batch fuel allEntries
                     (batches_then batches (Rejected e :: rest)) = Some o ->
    o = Rejected e.
Proof.
  induction 1 as [|entries batches Hne _ IH]; intros [|fuel] allEntries o H;
    try discriminate.
  - simpl in H. congruence.
  - cbn in H. destruct entries as [|x entries]; [congruence |].
    cbn in H. now apply IH in H.
Qed.

(** Where one of the walks is rejected, the walks together are. *)
Lemma walks_rejected fuel (entries : list Entry) child promises :
  In child entries ->
  (forall o, getFilesFromEntry fuel (Some child) = Some o ->
             exists err, o = Rejected err) ->
  mapM (fun e => getFilesFromEntry fuel (Some e)) entries = Some promises ->
  exists err, Promise_all_in_order promises = Some (Rejected err).
Proof.
  intros Hin Hchild Hmap. apply mapM_Some_1 in Hmap.
  apply list_elem_of_In, list_elem_of_lookup in Hin as [k Hk].
  destruct (Forall2_lookup_l _ _ _ _ _ Hmap Hk) as (p & Hp & Hwalk).
  destruct (Hchild _ Hwalk) as [err ->].
  destruct (Promise_all_rejected promises (seq 0 (length promises)) k err Hp)
    as (e & _ & He & _).
  - apply list_elem_of_In, in_seq. apply lookup_lt_Some in Hp. lia.
  - now exists e.
Qed.

(** The walk of an entry that cannot be read, where it ends, is
    rejected. *)
Lemma unreadable_rejected entry :
  unreadable entry ->
  forall fuel o, getFilesFromEntry fuel (Some entry) = Some o ->
                 exists err, o = Rejected err.
Proof.
  induction 1 as [fullPath e | fullPath batches e rest Hne
                  | fullPath batches rest child Hne Hrest Hin _ IH];
    intros [|fuel] o H; try discriminate; simpl in H.
  - injection H as <-. now exists e.
  - destruct (readAllDirectoryEntries next_batch fuel _) as [r|] eqn:Hread;
      [| discriminate].
    apply (read_error _ _ _ Hne) in Hread. subst r.
    injection H as <-. now exists e.
  - destruct (readAllDirectoryEntries next_batch fuel _) as [r|] eqn:Hread;
      [| discriminate].
    apply (read_batches _ _ _ _ Hne Hrest) in Hread. subst r.
    destruct (mapM _ (concat batches)) as [promises|] eqn:Hmap; [| discriminate].
    destruct (walks_rejected fuel _ child promises Hin (IH fuel) Hmap) as [err Herr].
    rewrite Herr in H. injection H as <-. now exists err.
Qed.

(** The extraction of a drop with an entry that cannot be read, where
    it ends, is rejected. *)
Lemma extract_unreadable fuel dataTransfer item entry o :
  hierarchical dataTransfer = true ->
  In item (items dataTransfer) ->
  webkitGetAsEntry item = Some (Some entry) ->
  unreadable entry ->
  extractFilesFromDataTransfer fuel dataTransfer = Some o ->
  exists err, o = Rejected err.
Proof.
  intros Hh Hin Hitem Hbad. unfold extractFilesFromDataTransfer. rewrite Hh.
  destruct (mapM webkitGetAsEntry (items dataTransfer)) as [got|] eqn:Hgot.
  - intros H.
    destruct (mapM _ (omap id got)) as [promises|] eqn:Hmap; [| discriminate].
    assert (Hentry : In entry (omap id got)).
    { apply list_elem_of_In, list_elem_of_omap. exists (Some entry).
      split; [| reflexivity].
      apply mapM_Some_1 in Hgot.
      apply list_elem_of_In, list_elem_of_lookup in Hin as [k Hk].
      destruct (Forall2_lookup_l _ _ _ _ _ Hgot Hk) as (g & Hg & Heq).
      rewrite Hitem in Heq. injection Heq as <-.
      now apply list_elem_of_lookup_2 in Hg. }
    destruct (walks_rejected fuel _ entry promises Hentry
                (unreadable_rejected _ Hbad fuel) Hmap) as [err Herr].
    rewrite Herr in H. injection H as <-. now exists err.
  - intros [= <-]. now eexists.
Qed.

End UnreadableFacts.

(** X7.  A drop with an entry that cannot be read (a file whose [File]
    cannot be got, or a directory whose reader fails, at any depth) is
    refused as a whole: the working set and the store stay as they
    were, and once the extraction has ended the only thing shown is the
    alert that the dropped items could not be read. *)
Theorem unreadable_entry_refuses_the_drop
    (schedule : list nat) (dataTransfer : DataTransfer)
    (item : DataTransferItem) (entry : Entry) (w : World) :
  hierarchical dataTransfer = true ->
  In item (items dataTransfer) ->
  webkitGetAsEntry item = Some (Some entry) ->
  Walk.unreadable entry ->
  (forall fuel,
     let w' := handleDroppedItems fuel schedule dataTransfer w in
     processedFiles (state w') = processedFiles (state w)
     /\ localStorage w' = localStorage w)
  /\ (exists fuel,
        handleDroppedItems fuel schedule dataTransfer w
        = setIsLoading false
            (alert "Could not read dropped items."
                   (setIsLoading true (setIsDragging false w)))).
Proof.
  intros Hh Hin Hitem Hbad. split.
  - intros fuel. cbn zeta. unfold handleDroppedItems.
    destruct (extractFilesFromDataTransfer fuel dataTransfer) as [o|] eqn:Hex;
      [| now split].
    destruct (UnreadableFacts.extract_unreadable _ _ _ _ _ Hh Hin Hitem Hbad Hex)
      as [err ->].
    now split.
  - destruct (WalkFacts.extractFilesFromDataTransfer_ends dataTransfer)
      as (fuel & o & Hex).
    exists fuel. unfold handleDroppedItems. rewrite Hex.
    destruct (UnreadableFacts.extract_unreadable _ _ _ _ _ Hh Hin Hitem Hbad Hex)
      as [err ->].
    reflexivity.
Qed.

Lemma unreadable_entry_refuses_the_drop_witness :
  (forall fuel,
     let w' := handleDroppedItems fuel [] Fixtures.broken_drop Sample.loaded in
     processedFiles (state w') = processedFiles (state Sample.loaded)
     /\ localStorage w' = localStorage Sample.loaded)
  /\ (exists fuel,
        handleDroppedItems fuel [] Fixtures.broken_drop Sample.loaded
        = setIsLoading false
            (alert "Could not read dropped items."
                   (setIsLoading true (setIsDragging false Sample.loaded)))).
Proof.
  apply (unreadable_entry_refuses_the_drop [] Fixtures.broken_drop
           {| webkitGetAsEntry := Some (Some Fixtures.broken_tree) |}
           Fixtures.broken_tree Sample.loaded).
  - reflexivity.
  - now left.
  - reflexivity.
  - apply (Walk.unreadable_child "/top"
             [[FileEntry "/top/ok.txt" (Fulfilled Sample.readme);
               DirectoryEntry "/top/sub"
                 [Fulfilled [FileEntry "/top/sub/bad.bin"
                                       (Rejected "NotFoundError"%string)]]]]
             []
             (DirectoryEntry "/top/sub"
                 [Fulfilled [FileEntry "/top/sub/bad.bin"
                                       (Rejected "NotFoundError"%string)]])).
    + repeat constructor; discriminate.
    + now left.
    + right. now left.
    + apply (Walk.unreadable_child "/top/sub"
               [[FileEntry "/top/sub/bad.bin" (Rejected "NotFoundError"%string)]]
               [] (FileEntry "/top/sub/bad.bin" (Rejected "NotFoundError"%string))).
      * repeat constructor; discriminate.
      * now left.
      * now left.
      * constructor.
Defined.

(** ** The store and the component *)

Module ShellFacts.
Import JS App Shell AppFacts IngestFacts.


















Lemma one_bad_record store doc bad :
  store !! fileConverterState = Some (JSON.stringify doc) ->
  In bad doc -> deserialize bad = Throws ->
  loadStateFromLocalStorage store = Some [].
Proof.
  intros Hstore Hin Hbad. unfold loadStateFromLocalStorage.
  rewrite Hstore, Boolean_stringify, JSONFacts.parse_stringify. cbv zeta.
  replace (existsb throws (map deserialize doc)) with true; [reflexivity |].
  symmetry. apply existsb_exists. exists (deserialize bad).
  split; [now apply in_map | now rewrite Hbad].
Qed.

Lemma deserialize_throws o :
  base64ToArrayBuffer (default "undefined"%string (member "content" o)) = None ->
  deserialize o = Throws.
Proof. intros H. unfold deserialize. now rewrite H. Qed.

(** The fixture of a drop after two settings, and its reload. *)
Example dropped_in_holds_docs :
  map originalPath (processedFiles (state (world Fixtures.dropped_in)))
  = ["docs/README.md"; "docs/Button.tsx"]%string
  /\ view (state (world Fixtures.dropped_in)) = filesView
  /\ mount Sample.five_MiB (localStorage (world Fixtures.dropped_in))
     = Live Fixtures.reloaded.
Proof.
  split; [vm_compute; reflexivity |].
  split; [vm_compute; reflexivity | reflexivity].
Qed.

(** On a store that takes nothing, the first render removes the
    application: the write of a setting throws outside any [try]. *)
Example mount_on_a_full_store :
  mount (fun _ => false) ∅ = Removed.
Proof. reflexivity. Qed.

End ShellFacts.





(** X10.  One record that cannot be read back loses the stored working
    set: when the stored document has a record whose content is
    missing or is not base64, the working set loaded is empty, whatever
    the other records. *)
Theorem one_bad_record_empties_the_load
    (store : gmap string string) (doc : list JSON.object) (bad : JSON.object) :
  store !! fileConverterState = Some (JSON.stringify doc) ->
  In bad doc ->
  base64ToArrayBuffer (default "undefined"%string (member "content" bad)) = None ->
  loadStateFromLocalStorage store = Some [].
Proof.
  intros Hstore Hin Hbad.
  apply (ShellFacts.one_bad_record store doc bad Hstore Hin).
  now apply ShellFacts.deserialize_throws.
Qed.

Lemma one_bad_record_empties_the_load_witness :
  loadStateFromLocalStorage
    (<[fileConverterState :=
         JSON.stringify [serializable Sample.old_record; Fixtures.no_content]]> ∅)
  = Some [].
Proof.
  apply (one_bad_record_empties_the_load _
           [serializable Sample.old_record; Fixtures.no_content]
           Fixtures.no_content).
  - apply lookup_insert_eq.
  - right. now left.
  - reflexivity.
Defined.

(** ** The file picker, the downloads and the drags *)

Module DownloadFacts.
Import JS JSFacts App Shell RenameSpec RenameFacts RenameRefinement RecordFacts.
#[local] Arguments String.append : simpl nomatch.

Lemma filesWithPaths_relative (files : list PickedFile) :
  Forall (fun f => Boolean (webkitRelativePath f) = true) files ->
  filesWithPaths files
  = map (fun f => {| file := picked f; path := webkitRelativePath f |}) files.
Proof.
  unfold filesWithPaths. induction 1 as [|f files Hf _ IH]; [reflexivity |].
  cbn [List.filter]. destruct (webkitRelativePath f) as [|a s] eqn:Hpath;
    [discriminate |].
  cbn. rewrite Hpath. cbn. f_equal. exact IH.
Qed.

Lemma zipped_last preserveFolders zip before file after :
  Forall (fun later => zipPath preserveFolders later
                       <> zipPath preserveFolders file) after ->
  zipped preserveFolders zip (before ++ file :: after)
    !! zipPath preserveFolders file
  = Some (content file).
Proof.
  intros Hafter. unfold zipped. rewrite foldl_app. cbn [foldl].
  generalize (foldl (fun zip file => <[zipPath preserveFolders file := content file]> zip)
                    zip before).
  intros zip0.
  assert (H : <[zipPath preserveFolders file := content file]> zip0
              !! zipPath preserveFolders file = Some (content file))
    by apply lookup_insert_eq.
  revert H. generalize (<[zipPath preserveFolders file := content file]> zip0).
  induction Hafter as [|later after Hne _ IH]; intros zip1 H; [exact H |].
  cbn [foldl]. apply IH. now rewrite lookup_insert_ne.
Qed.

Lemma zipped_from preserveFolders files : forall zip name data,
  zipped preserveFolders zip files !! name = Some data ->
  zip !! name = Some data
  \/ exists file, In file files /\ zipPath preserveFolders file = name
                  /\ content file = data.
Proof.
  induction files as [|file files IH]; intros zip name data H; [now left |].
  cbn in H. apply IH in H as [H | (g & Hin & Hname & Hdata)].
  - destruct (decide (zipPath preserveFolders file = name)) as [Heq | Hne].
    + rewrite <- Heq, lookup_insert_eq in H. injection H as <-.
      right. exists file. split; [now left | now split].
    + rewrite lookup_insert_ne in H by exact Hne. now left.
  - right. exists g. split; [now right | now split].
Qed.

(** The leaf of a path has no ['/']. *)
Lemma leaf_free p :
  has_char "/" (default EmptyString (fst (pop (split "/" p)))) = false.
Proof.
  unfold pop. cbn [fst]. rewrite after_last_split. cbn. apply after_last_free.
Qed.

Lemma combined (decode : list byte -> string) files : forall start,
  fold_left
    (fun combinedContent file =>
       let combinedContent :=
         combinedContent
         +:+ ("--- START OF FILE: " +:+ originalPath file +:+ " ---"
              +:+ LF +:+ LF) in
       let combinedContent := combinedContent +:+ decode (content file) in
       combinedContent
       +:+ (LF +:+ LF +:+ "--- END OF FILE: " +:+ originalPath file
            +:+ " ---" +:+ LF +:+ LF))
    files start
  = start +:+ Chat.concat_texts (map (section_of decode) files).
Proof.
  induction files as [|file files IH]; intros start.
  - cbn. now rewrite append_nil_r.
  - cbn [fold_left map Chat.concat_texts fold_right]. rewrite IH.
    unfold section_of. now rewrite !append_assoc.
Qed.

(** The counter after the events. *)
Lemma dragCounter_depth events : forall c n,
  foldl (fun n e => match e with
                    | dragenter _ => n + 1
                    | dragleave => n - 1
                    end%Z) n events
  = (n + depth events)%Z
  /\ dragCounter (foldl on_drag c events) = (dragCounter c + depth events)%Z.
Proof.
  unfold depth. induction events as [|e events IH] using rev_ind; intros c n.
  - cbn. lia.
  - rewrite !foldl_app. cbn [foldl].
    destruct (IH c n) as [Hn Hc]. destruct (IH c 0%Z) as [H0 _].
    rewrite Hn, H0. split; [destruct e; lia |].
    destruct e; cbn [on_drag handleDragEnter handleDragLeave dragCounter];
      rewrite Hc; lia.
Qed.

End DownloadFacts.

(** X11.  Files picked with their directory are all kept, with the
    relative path as path: the picker drops neither hidden files nor
    files of no bytes when the relative path is not empty. *)
Theorem picked_directory_is_kept_whole
    (schedule : list nat) (files : list Shell.PickedFile) (w : World) :
  files <> [] ->
  Forall (fun f => Boolean (Shell.webkitRelativePath f) = true) files ->
  Shell.handleFileChange schedule (Some files) w
  = handleFileProcessing schedule
      (map (fun f => {| file := Shell.picked f;
                        path := Shell.webkitRelativePath f |}) files)
      w.
Proof.
  intros Hne Hall. destruct files as [|f files]; [now destruct Hne |].
  unfold Shell.handleFileChange.
  now rewrite (DownloadFacts.filesWithPaths_relative _ Hall).
Qed.

Lemma picked_directory_is_kept_whole_witness :
  map originalPath
    (processedFiles
       (state (Shell.handleFileChange [0; 1] (Some Fixtures.picked_directory)
                                      Sample.fresh)))
  = ["proj/.env"; "proj/README.md"]%string.
Proof.
  rewrite (picked_directory_is_kept_whole [0; 1] Fixtures.picked_directory
             Sample.fresh).
  - reflexivity.
  - discriminate.
  - repeat constructor.
Defined.

(** X12.  In the archive a record is found under its name with its
    bytes, unless a later record has the same name: a later record
    replaces an earlier one of the same name. *)
Theorem archive_holds_the_last_record_of_a_name
    (preserveFolders : bool) (before after : list ProcessedFile)
    (file : ProcessedFile) :
  Forall (fun later => Shell.zipPath preserveFolders later
                       <> Shell.zipPath preserveFolders file) after ->
  exists zip,
    Shell.handleDownloadZip preserveFolders (before ++ file :: after) = Some zip
    /\ zip !! Shell.zipPath preserveFolders file = Some (content file).
Proof.
  intros Hafter. unfold Shell.handleDownloadZip.
  rewrite length_app. cbn [length].
  replace (length before + S (length after) =? 0) with false
    by (symmetry; apply Nat.eqb_neq; lia).
  eexists. split; [reflexivity |].
  now apply (DownloadFacts.zipped_last preserveFolders ∅).
Qed.

(** Without the folders, [a/index.ts] and [b/index.ts] are one file of
    the archive, with the bytes of the second. *)
Lemma archive_holds_the_last_record_of_a_name_witness :
  exists zip,
    Shell.handleDownloadZip false [Fixtures.index_a; Fixtures.index_b] = Some zip
    /\ zip !! "index.ts"%string = Some (Sample.bytes "B").
Proof.
  apply (archive_holds_the_last_record_of_a_name false [Fixtures.index_a] []
           Fixtures.index_b).
  constructor.
Defined.

(** X13.  Every file that the handler adds to the archive with
    [zip.file] holds the bytes of a record, under the archive name of
    that record: the handler adds no file of its own.  (The entries
    that JSZip makes for the folders of a name are not files, and are
    not among the files of [Shell.zipped].) *)
Theorem archive_holds_records_only
    (preserveFolders : bool) (processedFiles : list ProcessedFile)
    (zip : gmap string (list byte)) (name : string) (data : list byte) :
  Shell.handleDownloadZip preserveFolders processedFiles = Some zip ->
  zip !! name = Some data ->
  exists file, In file processedFiles
               /\ Shell.zipPath preserveFolders file = name
               /\ content file = data.
Proof.
  unfold Shell.handleDownloadZip.
  destruct (length processedFiles =? 0); [discriminate |].
  intros [= <-] H.
  apply (DownloadFacts.zipped_from preserveFolders processedFiles ∅) in H
    as [H | H]; [| exact H].
  now rewrite lookup_empty in H.
Qed.

Lemma archive_holds_records_only_witness :
  exists file, In file [Fixtures.index_a; Fixtures.index_b]
               /\ Shell.zipPath true file = "a/index.ts"%string
               /\ content file = Sample.bytes "A".
Proof.
  apply (archive_holds_records_only true [Fixtures.index_a; Fixtures.index_b]
           (<["b/index.ts"%string := Sample.bytes "B"]>
              (<["a/index.ts"%string := Sample.bytes "A"]> ∅))).
  - reflexivity.
  - now rewrite lookup_insert_ne, lookup_insert_eq.
Defined.

(** X14.  The name of a single download is never empty and has no
    ['/'], whatever the new path of the record. *)
Theorem download_name_is_a_leaf_name (file : ProcessedFile) :
  let name := fst (Shell.handleSingleFileDownload file) in
  Boolean name = true /\ has_char "/" name = false.
Proof.
  intros name. subst name. unfold Shell.handleSingleFileDownload.
  cbn [fst]. unfold or_else.
  destruct (Boolean (default EmptyString (fst (pop (split "/" (newPath file))))))
    eqn:Hb.
  - split; [exact Hb | apply DownloadFacts.leaf_free].
  - now split.
Qed.

(** X15.  For a record made by the application with a target extension
    without ['/'], the single download and the archive without folders
    are both named after the new leaf name: the fallbacks of the two
    handlers are not used. *)
Theorem downloads_are_named_after_the_new_leaf_name
    (item : FileWithRelativePath) (e : string) (result : list byte)
    (dirs : list string) (leaf : string) :
  has_char "/" e = false ->
  split "/" (path item) = dirs ++ [leaf] ->
  let r := onload item e result in
  Shell.handleSingleFileDownload r = (newName_of leaf e, result)
  /\ Shell.zipPath false r = newName_of leaf e.
Proof.
  intros He Hsplit r. subst r.
  unfold Shell.handleSingleFileDownload, Shell.zipPath, onload.
  cbn [newPath content].
  rewrite (RecordFacts.newPath_of_split _ _ _ _ He Hsplit).
  rewrite JSFacts.pop_snoc. cbn [fst default]. unfold or_else, id.
  now rewrite RenameFacts.newName_of_Boolean.
Qed.

Lemma downloads_are_named_after_the_new_leaf_name_witness :
  Shell.handleSingleFileDownload Fixtures.index_a
  = ("index.ts"%string, Sample.bytes "A")
  /\ Shell.zipPath false Fixtures.index_a = "index.ts"%string.
Proof.
  apply (downloads_are_named_after_the_new_leaf_name
           {| file := Sample.button; path := "a/index.js" |} "ts"
           (Sample.bytes "A") ["a"%string] "index.js"); reflexivity.
Defined.

(** X16.  The combined text is the heading followed by one section per
    record, in the order of the working set; there is no text for an
    empty working set. *)
Theorem combined_text_has_the_sections_in_order
    (TextDecoder_decode : list byte -> string)
    (processedFiles : list ProcessedFile) :
  Shell.handleDownloadAsTxt TextDecoder_decode processedFiles
  = match processedFiles with
    | [] => None
    | _ :: _ =>
        Some ("Generated by File Converter & AI Analyst" +:+ Shell.LF +:+ Shell.LF
              +:+ Chat.concat_texts
                    (map (Shell.section_of TextDecoder_decode) processedFiles))
    end.
Proof.
  unfold Shell.handleDownloadAsTxt.
  destruct processedFiles as [|file processedFiles]; [reflexivity |].
  cbn [length Nat.eqb]. rewrite DownloadFacts.combined.
  now rewrite !JSFacts.append_assoc.
Qed.

(** X17.  After a drag over the window that has left every element it
    has entered, and no element before it has entered it, the drop zone
    is not marked and the counter is where it was. *)
Theorem balanced_drag_ends_unmarked
    (events : list Shell.DragEvent) (c : Shell.Component) :
  Shell.dragCounter c = 0%Z ->
  events <> [] ->
  (forall n, (0 <= Shell.depth (take n events))%Z) ->
  Shell.depth events = 0%Z ->
  let c' := foldl Shell.on_drag c events in
  isDragging (state (Shell.world c')) = false /\ Shell.dragCounter c' = 0%Z.
Proof.
  intros Hc Hne Hprefix Hdepth c'. subst c'.
  destruct (DownloadFacts.dragCounter_depth events c 0%Z) as [_ Hcounter].
  split; [| lia].
  destruct events as [|e events _] using rev_ind; [now destruct Hne |].
  specialize (Hprefix (length events)). rewrite take_app_length in Hprefix.
  destruct (DownloadFacts.dragCounter_depth events c 0%Z) as [_ Hbefore].
  assert (Hlast : Shell.depth (events ++ [e])
                  = match e with
                    | Shell.dragenter _ => Shell.depth events + 1
                    | Shell.dragleave => Shell.depth events - 1
                    end%Z).
  { unfold Shell.depth. now rewrite foldl_app. }
  rewrite foldl_app. cbn [foldl].
  destruct e as [hasItems|]; [lia |].
  cbn [Shell.on_drag]. unfold Shell.handleDragLeave. cbn [Shell.world].
  replace (Shell.dragCounter (foldl Shell.on_drag c events) - 1 =? 0)%Z with true
    by (symmetry; apply Z.eqb_eq; lia).
  reflexivity.
Qed.

Lemma balanced_drag_ends_unmarked_witness :
  let c' := foldl Shell.on_drag Fixtures.mounted
              [Shell.dragenter true; Shell.dragenter true; Shell.dragleave;
               Shell.dragleave] in
  isDragging (state (Shell.world c')) = false /\ Shell.dragCounter c' = 0%Z.
Proof.
  apply (balanced_drag_ends_unmarked
           [Shell.dragenter true; Shell.dragenter true; Shell.dragleave;
            Shell.dragleave] Fixtures.mounted).
  - reflexivity.
  - discriminate.
  - intros [|[|[|[|[|n]]]]]; cbn; lia.
  - reflexivity.
Defined.

(** ** The chat panel, whatever the response *)

Module SendFacts.
Import JS JSFacts Chat ChatFacts Sending.
#[local] Arguments String.append : simpl nomatch.

Section Handler.
Variable TextDecoder_decode : list byte -> option string.
Context {Decoder : Type}.
Variable new_TextDecoder : Decoder.
Variable decode_stream : Decoder -> list byte -> string * Decoder.
Variable fetch : list Part -> outcome Response string.

Lemma readLoop_rest_any chunks ending : forall decoder (prev : list Message) m,
  role m = model ->
  readLoop decode_stream decoder false chunks ending (prev ++ [m])
  = (prev ++ [{| role := model;
                 text := text m +:+ concat_texts (decoded decode_stream decoder chunks);
                 image := image m |}],
     thrown_at ending).
Proof.
  induction chunks as [|value chunks IH]; intros decoder prev m Hm.
  - simpl. rewrite append_nil_r. destruct m; simpl in *; now subst.
  - simpl. destruct (decode_stream decoder value) as [chunk decoder'].
    rewrite (appendChunk_last _ _ _ Hm), IH by reflexivity.
    simpl. now rewrite append_assoc.
Qed.

(** The loop on any stream: no message for no chunk, one message for
    the chunks there are, and the error of the stream thrown. *)
Lemma readLoop_any chunks ending (prev : list Message) :
  readLoop decode_stream new_TextDecoder true chunks ending prev
  = (prev ++ match chunks with
             | [] => []
             | _ :: _ =>
                 [answer (concat_texts (decoded decode_stream new_TextDecoder chunks))]
             end,
     thrown_at ending).
Proof.
  destruct chunks as [|value chunks].
  - simpl. now rewrite app_nil_r.
  - simpl. destruct (decode_stream new_TextDecoder value) as [chunk decoder'].
    now rewrite readLoop_rest_any.
Qed.

Lemma guard_open st :
  isLoading st = false ->
  Boolean (trim (input st)) = true \/ is_Some (attachedImage st) ->
  (negb (Boolean (trim (input st)))
   && negb (bool_decide (is_Some (attachedImage st)))
   || isLoading st) = false.
Proof.
  intros -> [-> | Himg]; [reflexivity |].
  rewrite (bool_decide_eq_true_2 _ Himg). now destruct (Boolean _).
Qed.

(** What the [try] block can leave after the question. *)
Lemma tryBlock_cases files img userMessageText (prev : list Message) :
  exists added thrown,
    tryBlock TextDecoder_decode new_TextDecoder decode_stream fetch files img
             userMessageText prev
    = (prev ++ added, thrown)
    /\ (added = [] \/ exists t, added = [answer t]).
Proof.
  unfold tryBlock.
  destruct (contents_of _ _ _ _) as [contents | e].
  2: { exists [], (Some e). rewrite app_nil_r. split; [reflexivity | now left]. }
  destruct (fetch contents) as [response | e].
  2: { exists [], (Some e). rewrite app_nil_r. split; [reflexivity | now left]. }
  destruct (ok response), (body response) as [stream|];
    try (exists [], (Some (responseError response)); rewrite app_nil_r;
         split; [reflexivity | now left]).
  rewrite readLoop_any. do 2 eexists. split; [reflexivity |].
  destruct (chunks stream); [now left | right; now eexists].
Qed.

End Handler.

(** Blank text trims to nothing. *)
Lemma trimStart_blank s :
  forallb is_space (list_ascii_of_string s) = true -> trimStart s = EmptyString.
Proof.
  induction s as [|c s IH]; [reflexivity |].
  cbn. destruct (is_space c); [exact IH | discriminate].
Qed.

End SendFacts.

(** X18.  A question that is sent never touches the messages before
    it: whatever the request and the response, the conversation after
    is the conversation before, the question, and at most two messages
    of the model (the answer begun, the error); the input is cleared,
    the image detached and the panel no longer loading. *)
Theorem sending_keeps_the_conversation
    (TextDecoder_decode : list byte -> option string) {Decoder : Type}
    (new_TextDecoder : Decoder)
    (decode_stream : Decoder -> list byte -> string * Decoder)
    (fetch : list Chat.Part -> outcome Chat.Response string)
    (files : list ProcessedFile) (st : Chat.State) :
  Chat.isLoading st = false ->
  Boolean (Chat.trim (Chat.input st)) = true \/ is_Some (Chat.attachedImage st) ->
  let st' := Chat.handleSendMessage TextDecoder_decode new_TextDecoder
               decode_stream fetch files st in
  exists added,
    Chat.messages st'
    = Chat.messages st
      ++ {| Chat.role := Chat.user; Chat.text := Chat.trim (Chat.input st);
            Chat.image := Chat.url <$> Chat.attachedImage st |} :: added
    /\ length added <= 2
    /\ Forall (fun m => Chat.role m = Chat.model /\ Chat.image m = None) added
    /\ Chat.input st' = EmptyString
    /\ Chat.isLoading st' = false
    /\ Chat.attachedImage st' = None.
Proof.
  intros Hidle Hfilled st'. subst st'.
  pose proof (SendFacts.guard_open st Hidle Hfilled) as Hguard.
  unfold Chat.handleSendMessage. rewrite Hguard. cbv zeta.
  destruct (SendFacts.tryBlock_cases TextDecoder_decode new_TextDecoder
              decode_stream fetch files (Chat.attachedImage st)
              (Chat.trim (Chat.input st))
              (Chat.messages st
               ++ [{| Chat.role := Chat.user; Chat.text := Chat.trim (Chat.input st);
                      Chat.image := Chat.url <$> Chat.attachedImage st |}]))
    as (added & thrown & -> & Hadded).
  cbn [Chat.messages Chat.input Chat.isLoading Chat.attachedImage].
  destruct thrown as [e|].
  - exists (added ++ [Sending.answer ("Sorry, an error occurred: " +:+ e)]).
    rewrite <- !app_assoc. split; [reflexivity |].
    destruct Hadded as [-> | (t & ->)]; cbn; repeat split; auto; repeat constructor.
  - exists added. rewrite <- !app_assoc. split; [reflexivity |].
    destruct Hadded as [-> | (t & ->)]; cbn; repeat split; auto; repeat constructor.
Qed.

Lemma sending_keeps_the_conversation_witness :
  let st' := Chat.handleSendMessage Sample.latin1 tt Sample.latin1_stream
               (Sample.answering Sample.hello_world) [] Sample.asking in
  exists added,
    Chat.messages st'
    = Chat.messages Sample.asking
      ++ {| Chat.role := Chat.user; Chat.text := Chat.trim (Chat.input Sample.asking);
            Chat.image := Chat.url <$> Chat.attachedImage Sample.asking |} :: added
    /\ length added <= 2
    /\ Forall (fun m => Chat.role m = Chat.model /\ Chat.image m = None) added
    /\ Chat.input st' = EmptyString
    /\ Chat.isLoading st' = false
    /\ Chat.attachedImage st' = None.
Proof.
  apply (sending_keeps_the_conversation Sample.latin1 tt Sample.latin1_stream
           (Sample.answering Sample.hello_world) [] Sample.asking).
  - reflexivity.
  - now left.
Defined.

(** X19.  A request that fails before a response (the network is down)
    leaves the question and one message of the model, with the message
    of the error. *)
Theorem failed_request_leaves_one_error_message
    (TextDecoder_decode : list byte -> option string) {Decoder : Type}
    (new_TextDecoder : Decoder)
    (decode_stream : Decoder -> list byte -> string * Decoder)
    (fetch : list Chat.Part -> outcome Chat.Response string)
    (files : list ProcessedFile) (st : Chat.State)
    (contents : list Chat.Part) (e : string) :
  Chat.isLoading st = false ->
  Boolean (Chat.trim (Chat.input st)) = true \/ is_Some (Chat.attachedImage st) ->
  Chat.contents_of TextDecoder_decode files (Chat.attachedImage st)
                   (Chat.trim (Chat.input st)) = Fulfilled contents ->
  fetch contents = Rejected e ->
  Chat.messages
    (Chat.handleSendMessage TextDecoder_decode new_TextDecoder decode_stream
                            fetch files st)
  = Chat.messages st
    ++ [ {| Chat.role := Chat.user; Chat.text := Chat.trim (Chat.input st);
            Chat.image := Chat.url <$> Chat.attachedImage st |};
         {| Chat.role := Chat.model;
            Chat.text := "Sorry, an error occurred: " +:+ e;
            Chat.image := None |} ].
Proof.
  intros Hidle Hfilled Hcontents Hfetch.
  pose proof (SendFacts.guard_open st Hidle Hfilled) as Hguard.
  unfold Chat.handleSendMessage. rewrite Hguard. cbv zeta.
  unfold Chat.tryBlock. rewrite Hcontents, Hfetch.
  cbn [Chat.messages]. now rewrite <- app_assoc.
Qed.

Lemma failed_request_leaves_one_error_message_witness :
  Chat.messages
    (Chat.handleSendMessage Sample.latin1 tt Sample.latin1_stream
       (fun _ => Rejected "Failed to fetch"%string) [] Sample.asking)
  = [ {| Chat.role := Chat.user; Chat.text := "hi"; Chat.image := None |};
      {| Chat.role := Chat.model;
         Chat.text := "Sorry, an error occurred: Failed to fetch";
         Chat.image := None |} ].
Proof.
  apply (failed_request_leaves_one_error_message Sample.latin1 tt
           Sample.latin1_stream (fun _ => Rejected "Failed to fetch"%string)
           [] Sample.asking [Chat.textPart "hi"] "Failed to fetch").
  - reflexivity.
  - now left.
  - reflexivity.
  - reflexivity.
Defined.

(** X20.  A stream that fails after chunks were read leaves the answer
    begun, with the texts of the chunks read, and after it the message
    of the error: two messages of the model.  A stream that fails
    before its first chunk leaves the message of the error only. *)
Theorem broken_stream_leaves_the_answer_begun
    (TextDecoder_decode : list byte -> option string) {Decoder : Type}
    (new_TextDecoder : Decoder)
    (decode_stream : Decoder -> list byte -> string * Decoder)
    (fetch : list Chat.Part -> outcome Chat.Response string)
    (files : list ProcessedFile) (st : Chat.State)
    (contents : list Chat.Part) (response : Chat.Response)
    (stream : Chat.ReadableStream) (e : string) :
  Chat.isLoading st = false ->
  Boolean (Chat.trim (Chat.input st)) = true \/ is_Some (Chat.attachedImage st) ->
  Chat.contents_of TextDecoder_decode files (Chat.attachedImage st)
                   (Chat.trim (Chat.input st)) = Fulfilled contents ->
  fetch contents = Fulfilled response ->
  Chat.ok response = true ->
  Chat.body response = Some stream ->
  Chat.ending stream = Rejected e ->
  Chat.messages
    (Chat.handleSendMessage TextDecoder_decode new_TextDecoder decode_stream
                            fetch files st)
  = Chat.messages st
    ++ [ {| Chat.role := Chat.user; Chat.text := Chat.trim (Chat.input st);
            Chat.image := Chat.url <$> Chat.attachedImage st |} ]
    ++ match Chat.chunks stream with
       | [] => []
       | _ :: _ =>
           [ {| Chat.role := Chat.model;
                Chat.text :=
                  Chat.concat_texts
                    (Chat.decoded decode_stream new_TextDecoder (Chat.chunks stream));
                Chat.image := None |} ]
       end
    ++ [ {| Chat.role := Chat.model;
            Chat.text := "Sorry, an error occurred: " +:+ e;
            Chat.image := None |} ].
Proof.
  intros Hidle Hfilled Hcontents Hfetch Hok Hbody Hending.
  pose proof (SendFacts.guard_open st Hidle Hfilled) as Hguard.
  unfold Chat.handleSendMessage. rewrite Hguard. cbv zeta.
  unfold Chat.tryBlock. rewrite Hcontents, Hfetch, Hok, Hbody.
  rewrite SendFacts.readLoop_any, Hending.
  cbn [Chat.messages Sending.thrown_at]. now rewrite <- !app_assoc.
Qed.

Lemma broken_stream_leaves_the_answer_begun_witness :
  Chat.messages
    (Chat.handleSendMessage Sample.latin1 tt Sample.latin1_stream
       (Sample.answering Fixtures.cut_off) [] Sample.asking)
  = [ {| Chat.role := Chat.user; Chat.text := "hi"; Chat.image := None |};
      {| Chat.role := Chat.model; Chat.text := "Hello"; Chat.image := None |};
      {| Chat.role := Chat.model;
         Chat.text := "Sorry, an error occurred: network error";
         Chat.image := None |} ].
Proof.
  apply (broken_stream_leaves_the_answer_begun Sample.latin1 tt
           Sample.latin1_stream (Sample.answering Fixtures.cut_off) []
           Sample.asking [Chat.textPart "hi"] Fixtures.cut_off
           {| Chat.chunks := [Sample.bytes "Hel"; Sample.bytes "lo"];
              Chat.ending := Rejected "network error"%string |}
           "network error").
  - reflexivity.
  - now left.
  - reflexivity.
  - reflexivity.
  - reflexivity.
  - reflexivity.
  - reflexivity.
Defined.

(** X21.  A question of white space only, with no image attached, is
    not sent, and nothing is sent while an answer is awaited: the state
    stays as it is. *)
Theorem blank_or_busy_sends_nothing
    (TextDecoder_decode : list byte -> option string) {Decoder : Type}
    (new_TextDecoder : Decoder)
    (decode_stream : Decoder -> list byte -> string * Decoder)
    (fetch : list Chat.Part -> outcome Chat.Response string)
    (files : list ProcessedFile) (st : Chat.State) :
  (forallb Chat.is_space (list_ascii_of_string (Chat.input st)) = true
   /\ Chat.attachedImage st = None)
  \/ Chat.isLoading st = true ->
  Chat.handleSendMessage TextDecoder_decode new_TextDecoder decode_stream
                         fetch files st
  = st.
Proof.
  intros H. apply ChatFacts.handleSendMessage_not_sent.
  destruct H as [[Hblank Himg] | ->]; [| apply orb_true_r].
  unfold Chat.trim. rewrite (SendFacts.trimStart_blank _ Hblank), Himg.
  reflexivity.
Qed.

Lemma blank_or_busy_sends_nothing_witness :
  let st := {| Chat.messages := []; Chat.input := String "009" "  ";
               Chat.isLoading := false; Chat.attachedImage := None |} in
  Chat.handleSendMessage Sample.latin1 tt Sample.latin1_stream
                         (Sample.answering Sample.hello_world) [] st
  = st.
Proof.
  apply (blank_or_busy_sends_nothing Sample.latin1 tt Sample.latin1_stream
           (Sample.answering Sample.hello_world) []).
  left. split; reflexivity.
Defined.

(** ** The stored conversation and the endpoint *)

Module ChatStoreFacts.
Import JS JSFacts Chat ChatStore.
#[local] Arguments String.append : simpl nomatch.

Lemma message_of_serializable (m : Message) :
  message_of (serializable m) = Some m.
Proof. destruct m as [[] t [i|]]; reflexivity. Qed.

Lemma loadChat_saveChat quota (messages : list Message) store :
  messages = []
  \/ quota (<[chatHistory := JSON.stringify (map serializable messages)]> store)
     = true ->
  loadChatFromLocalStorage (saveChatToLocalStorage quota messages store)
  = Some messages.
Proof.
  unfold loadChatFromLocalStorage, saveChatToLocalStorage, App.setItem.
  destruct messages as [|m messages]; intros H.
  - cbn. now rewrite lookup_delete_eq.
  - destruct H as [H | H]; [discriminate |].
    cbn [length Nat.eqb]. rewrite H, lookup_insert_eq.
    rewrite AppFacts.Boolean_stringify, JSONFacts.parse_stringify.
    rewrite mapM_fmap_Some; [reflexivity |].
    intros x. apply message_of_serializable.
Qed.

Lemma saveChat_refused quota (messages : list Message) store :
  messages <> [] ->
  quota (<[chatHistory := JSON.stringify (map serializable messages)]> store)
  = false ->
  saveChatToLocalStorage quota messages store = store.
Proof.
  unfold saveChatToLocalStorage, App.setItem.
  destruct messages as [|m messages]; intros Hne H; [now destruct Hne |].
  cbn [length Nat.eqb]. now rewrite H.
Qed.

Lemma saveChat_other_keys quota (messages : list Message) store key :
  key <> chatHistory ->
  saveChatToLocalStorage quota messages store !! key = store !! key.
Proof.
  intros H. unfold saveChatToLocalStorage, App.setItem.
  destruct (length messages =? 0); [now apply lookup_delete_ne |].
  destruct (quota _); [now apply lookup_insert_ne | reflexivity].
Qed.

End ChatStoreFacts.

Module ApiFacts.
Import JS JSFacts Chat Api.
#[local] Arguments String.append : simpl nomatch.

Lemma enqueued_Boolean texts : Forall (fun t => Boolean t = true) (enqueued texts).
Proof.
  induction texts as [|[t|] texts IH]; cbn; [constructor | | exact IH].
  destruct (Boolean t) eqn:Ht; [now constructor | exact IH].
Qed.

Lemma concat_enqueued texts :
  concat_texts (enqueued texts) = concat_texts (map (default EmptyString) texts).
Proof.
  unfold concat_texts, enqueued.
  induction texts as [|[t|] texts IH]; cbn; [reflexivity | | exact IH].
  destruct t as [|a t]; cbn; [exact IH | now rewrite IH].
Qed.

Section Server.
Variable TextEncoder_encode : string -> list byte.
Context {Decoder : Type}.
Variable decode_stream : Decoder -> list byte -> string * Decoder.


Lemma POST_streams env apiKey contents texts :
  API_KEY env = Some apiKey ->
  Boolean apiKey = true ->
  generateContentStream env apiKey contents = Fulfilled texts ->
  POST TextEncoder_encode env {| json := Fulfilled (Some contents) |}
  = {| status := 200;
       contentType := "text/plain; charset=utf-8";
       body := StreamBody
                 {| Chat.chunks := map TextEncoder_encode (enqueued texts);
                    Chat.ending := Fulfilled tt |} |}.
Proof.
  intros Hkey Hb Hcall. unfold POST. cbn [json]. rewrite Hkey.
  cbv zeta. cbn [default]. unfold id. rewrite Hb. cbn [negb]. now rewrite Hcall.
Qed.

(** The page reads the error of a JSON response. *)
Lemma received_error statusText status error :
  Chat.json (received TextEncoder_encode statusText (json_response status error))
  = Fulfilled (Some error).
Proof.
  unfold received, json_response, error_object. cbn [body Chat.json].
  pose proof (JSONFacts.parse_object_stringify [("error"%string, error)]
                (String.length (JSON.stringify_object [("error"%string, error)]))
                EmptyString) as Hparse.
  rewrite append_nil_r in Hparse. rewrite Hparse.
  - reflexivity.
  - pose proof (JSONFacts.length_stringify_object [("error"%string, error)]
                  EmptyString) as Hlen.
    now rewrite append_nil_r in Hlen.
Qed.

Lemma responseError_received statusText status error :
  Boolean error = true ->
  (200 <=? status) && (status <=? 299) = false ->
  let response := received TextEncoder_encode statusText (json_response status error) in
  Chat.ok response = false /\ responseError response = error.
Proof.
  intros Hb Hstatus response. subst response. split; [exact Hstatus |].
  unfold responseError. rewrite received_error. cbn [default].
  unfold or_else, id. now rewrite Hb, Hb.
Qed.

End Server.

End ApiFacts.

(** X22.  Where the store accepts the write (or the conversation is
    empty), the conversation loaded from the store after it was saved
    there is the conversation, message by message, with the images of
    the questions; where the store refuses the write, the error is
    caught and the store is as it was.  The conversation and the
    working set do not disturb each other in the store. *)
Theorem saved_conversation_loads_back :
  (forall (quota : gmap string string -> bool) (messages : list Chat.Message)
          (store : gmap string string),
      messages = []
      \/ quota (<[ChatStore.chatHistory :=
                    JSON.stringify (map ChatStore.serializable messages)]> store)
         = true ->
      ChatStore.loadChatFromLocalStorage
        (ChatStore.saveChatToLocalStorage quota messages store)
      = Some messages)
  /\ (forall (quota : gmap string string -> bool) (messages : list Chat.Message)
             (store : gmap string string),
        messages <> [] ->
        quota (<[ChatStore.chatHistory :=
                   JSON.stringify (map ChatStore.serializable messages)]> store)
        = false ->
        ChatStore.saveChatToLocalStorage quota messages store = store)
  /\ (forall (quota : gmap string string -> bool) (messages : list Chat.Message)
             (store : gmap string string),
        loadStateFromLocalStorage
          (ChatStore.saveChatToLocalStorage quota messages store)
        = loadStateFromLocalStorage store)
  /\ (forall (quota : gmap string string -> bool)
             (processedFiles : list ProcessedFile) (store : gmap string string),
        ChatStore.loadChatFromLocalStorage
          (saveStateToLocalStorage quota processedFiles store)
        = ChatStore.loadChatFromLocalStorage store).
Proof.
  split; [exact ChatStoreFacts.loadChat_saveChat |].
  split; [exact ChatStoreFacts.saveChat_refused |]. split.
  - intros quota messages store. unfold loadStateFromLocalStorage.
    now rewrite ChatStoreFacts.saveChat_other_keys by discriminate.
  - intros quota processedFiles store.
    unfold ChatStore.loadChatFromLocalStorage.
    now rewrite AppFacts.saved_other_keys by discriminate.
Qed.

(** A question with an image and its answer, saved to a store of five
    MiB and loaded back. *)
Lemma saved_conversation_loads_back_witness :
  ChatStore.loadChatFromLocalStorage
    (ChatStore.saveChatToLocalStorage Sample.five_MiB Fixtures.conversation ∅)
  = Some Fixtures.conversation.
Proof.
  apply (proj1 saved_conversation_loads_back Sample.five_MiB
           Fixtures.conversation ∅).
  right. reflexivity.
Defined.

(** X23.  The endpoint with a key, when the call of the model succeeds,
    answers 200 with one chunk per text of the model that is not empty,
    in their order: no chunk is empty, and the texts of the chunks one
    after another are the texts of the model one after another. *)
Theorem endpoint_streams_the_texts
    (TextEncoder_encode : string -> list byte) (env : Api.Env)
    (apiKey : string) (contents : list Chat.Part)
    (texts : list (option string)) :
  Api.API_KEY env = Some apiKey ->
  Boolean apiKey = true ->
  Api.generateContentStream env apiKey contents = Fulfilled texts ->
  Api.POST TextEncoder_encode env {| Api.json := Fulfilled (Some contents) |}
  = {| Api.status := 200;
       Api.contentType := "text/plain; charset=utf-8";
       Api.body :=
         Api.StreamBody
           {| Chat.chunks := map TextEncoder_encode (Api.enqueued texts);
              Chat.ending := Fulfilled tt |} |}
  /\ Forall (fun t => Boolean t = true) (Api.enqueued texts)
  /\ Chat.concat_texts (Api.enqueued texts)
     = Chat.concat_texts (map (default EmptyString) texts).
Proof.
  intros Hkey Hb Hcall. split; [| split].
  - now apply (ApiFacts.POST_streams _ _ apiKey).
  - apply ApiFacts.enqueued_Boolean.
  - apply ApiFacts.concat_enqueued.
Qed.

Lemma endpoint_streams_the_texts_witness :
  Api.POST Sample.bytes Fixtures.answering_server
           {| Api.json := Fulfilled (Some [Chat.textPart "hi"]) |}
  = {| Api.status := 200;
       Api.contentType := "text/plain; charset=utf-8";
       Api.body :=
         Api.StreamBody
           {| Chat.chunks := [Sample.bytes "Hel"; Sample.bytes "lo"];
              Chat.ending := Fulfilled tt |} |}
  /\ Forall (fun t => Boolean t = true) ["Hel"; "lo"]%string
  /\ "Hello"%string = "Hello"%string.
Proof.
  apply (endpoint_streams_the_texts Sample.bytes Fixtures.answering_server
           "secret" [Chat.textPart "hi"] [Some "Hel"; None; Some EmptyString; Some "lo"]%string);
    reflexivity.
Defined.



Module EndToEnd.
Import JS JSFacts Chat Api ApiFacts SendFacts Sending.
#[local] Arguments String.append : simpl nomatch.

Section Page.
Variable TextDecoder_decode : list byte -> option string.
Context {Decoder : Type}.
Variable new_TextDecoder : Decoder.
Variable decode_stream : Decoder -> list byte -> string * Decoder.
Variable TextEncoder_encode : string -> list byte.

(** An error answered by the endpoint is the error shown. *)
Lemma error_shown env statusText files st contents status error :
  isLoading st = false ->
  Boolean (trim (input st)) = true \/ is_Some (attachedImage st) ->
  contents_of TextDecoder_decode files (attachedImage st) (trim (input st))
  = Fulfilled contents ->
  POST TextEncoder_encode env {| Api.json := Fulfilled (Some contents) |}
  = json_response status error ->
  Boolean error = true ->
  (200 <=? status) && (status <=? 299) = false ->
  messages
    (handleSendMessage TextDecoder_decode new_TextDecoder decode_stream
       (Api.fetch TextEncoder_encode env statusText) files st)
  = messages st
    ++ [ {| role := user; text := trim (input st);
            image := url <$> attachedImage st |};
         {| role := model; text := "Sorry, an error occurred: " +:+ error;
            image := None |} ].
Proof.
  intros Hidle Hfilled Hcontents Hpost Hb Hstatus.
  pose proof (guard_open st Hidle Hfilled) as Hguard.
  unfold handleSendMessage. rewrite Hguard. cbv zeta.
  unfold tryBlock. rewrite Hcontents. unfold Api.fetch. rewrite Hpost.
  destruct (responseError_received TextEncoder_encode statusText status error
              Hb Hstatus) as [Hok Herror].
  rewrite Hok, Herror. cbn [messages]. now rewrite <- app_assoc.
Qed.

End Page.

Lemma POST_without_key TextEncoder_encode env req contents :
  Api.json req = Fulfilled contents ->
  API_KEY env = None \/ API_KEY env = Some EmptyString ->
  POST TextEncoder_encode env req
  = json_response 500 "API_KEY environment variable not set on the server.".
Proof.
  intros Hreq Hkey. unfold POST. rewrite Hreq.
  now destruct Hkey as [-> | ->].
Qed.

Lemma POST_model_fails TextEncoder_encode env apiKey contents message :
  API_KEY env = Some apiKey -> Boolean apiKey = true ->
  generateContentStream env apiKey contents = Rejected message ->
  POST TextEncoder_encode env {| Api.json := Fulfilled (Some contents) |}
  = caught message.
Proof.
  intros Hkey Hb Hcall. unfold POST. cbn [Api.json]. rewrite Hkey.
  cbv zeta. cbn [default]. unfold id. rewrite Hb. cbn [negb]. now rewrite Hcall.
Qed.

End EndToEnd.

(** X25.  A server without a key, or with an empty one: whatever the
    question, the conversation gains the question and one message of
    the model saying that the key is not set on the server. *)
Theorem missing_key_reaches_the_conversation
    (TextDecoder_decode : list byte -> option string) {Decoder : Type}
    (new_TextDecoder : Decoder)
    (decode_stream : Decoder -> list byte -> string * Decoder)
    (TextEncoder_encode : string -> list byte)
    (env : Api.Env) (statusText : string)
    (files : list ProcessedFile) (st : Chat.State) (contents : list Chat.Part) :
  Chat.isLoading st = false ->
  Boolean (Chat.trim (Chat.input st)) = true \/ is_Some (Chat.attachedImage st) ->
  Chat.contents_of TextDecoder_decode files (Chat.attachedImage st)
                   (Chat.trim (Chat.input st)) = Fulfilled contents ->
  Api.API_KEY env = None \/ Api.API_KEY env = Some EmptyString ->
  Chat.messages
    (Chat.handleSendMessage TextDecoder_decode new_TextDecoder decode_stream
       (Api.fetch TextEncoder_encode env statusText) files st)
  = Chat.messages st
    ++ [ {| Chat.role := Chat.user; Chat.text := Chat.trim (Chat.input st);
            Chat.image := Chat.url <$> Chat.attachedImage st |};
         {| Chat.role := Chat.model;
            Chat.text := "Sorry, an error occurred: API_KEY environment variable not set on the server.";
            Chat.image := None |} ].
Proof.
  intros Hidle Hfilled Hcontents Hkey.
  apply (EndToEnd.error_shown _ _ _ _ env statusText files st contents 500);
    try assumption; try reflexivity.
  now apply (EndToEnd.POST_without_key _ _ _ (Some contents)).
Qed.

Lemma missing_key_reaches_the_conversation_witness :
  Chat.messages
    (Chat.handleSendMessage Sample.latin1 tt Sample.latin1_stream
       (Api.fetch Sample.bytes Fixtures.keyless_server EmptyString) [] Sample.asking)
  = [ {| Chat.role := Chat.user; Chat.text := "hi"; Chat.image := None |};
      {| Chat.role := Chat.model;
         Chat.text := "Sorry, an error occurred: API_KEY environment variable not set on the server.";
         Chat.image := None |} ].
Proof.
  apply (missing_key_reaches_the_conversation Sample.latin1 tt
           Sample.latin1_stream Sample.bytes Fixtures.keyless_server EmptyString []
           Sample.asking [Chat.textPart "hi"]).
  - reflexivity.
  - now left.
  - reflexivity.
  - now left.
Defined.

(** X26.  When the call of the model throws, the conversation gains the
    question and one message of the model with the message of the
    error after the words of the server, or [Unknown error] for an
    error without a message. *)
Theorem model_failure_reaches_the_conversation
    (TextDecoder_decode : list byte -> option string) {Decoder : Type}
    (new_TextDecoder : Decoder)
    (decode_stream : Decoder -> list byte -> string * Decoder)
    (TextEncoder_encode : string -> list byte)
    (env : Api.Env) (statusText : string)
    (files : list ProcessedFile) (st : Chat.State) (contents : list Chat.Part)
    (apiKey message : string) :
  Chat.isLoading st = false ->
  Boolean (Chat.trim (Chat.input st)) = true \/ is_Some (Chat.attachedImage st) ->
  Chat.contents_of TextDecoder_decode files (Chat.attachedImage st)
                   (Chat.trim (Chat.input st)) = Fulfilled contents ->
  Api.API_KEY env = Some apiKey ->
  Boolean apiKey = true ->
  Api.generateContentStream env apiKey contents = Rejected message ->
  Chat.messages
    (Chat.handleSendMessage TextDecoder_decode new_TextDecoder decode_stream
       (Api.fetch TextEncoder_encode env statusText) files st)
  = Chat.messages st
    ++ [ {| Chat.role := Chat.user; Chat.text := Chat.trim (Chat.input st);
            Chat.image := Chat.url <$> Chat.attachedImage st |};
         {| Chat.role := Chat.model;
            Chat.text := "Sorry, an error occurred: An error occurred on the server: "
                         +:+ or_else message "Unknown error";
            Chat.image := None |} ].
Proof.
  intros Hidle Hfilled Hcontents Hkey Hb Hcall.
  apply (EndToEnd.error_shown _ _ _ _ env statusText files st contents 500
           ("An error occurred on the server: " +:+ or_else message "Unknown error"));
    try assumption; try reflexivity.
  now apply (EndToEnd.POST_model_fails _ _ apiKey).
Qed.

Lemma model_failure_reaches_the_conversation_witness :
  Chat.messages
    (Chat.handleSendMessage Sample.latin1 tt Sample.latin1_stream
       (Api.fetch Sample.bytes Fixtures.failing_server EmptyString) [] Sample.asking)
  = [ {| Chat.role := Chat.user; Chat.text := "hi"; Chat.image := None |};
      {| Chat.role := Chat.model;
         Chat.text := "Sorry, an error occurred: An error occurred on the server: Unknown error";
         Chat.image := None |} ].
Proof.
  apply (model_failure_reaches_the_conversation Sample.latin1 tt
           Sample.latin1_stream Sample.bytes Fixtures.failing_server EmptyString []
           Sample.asking [Chat.textPart "hi"] "secret" EmptyString).
  - reflexivity.
  - now left.
  - reflexivity.
  - reflexivity.
  - reflexivity.
  - reflexivity.
Defined.

(** X27.  The endpoint answers 400 exactly for a request that has no
    contents on a server that has a key: the key is looked at first,
    and a body that cannot be read is a 500. *)
Theorem bad_request_needs_a_key
    (TextEncoder_encode : string -> list byte) (env : Api.Env)
    (req : Api.Request) :
  Api.status (Api.POST TextEncoder_encode env req) = 400
  <-> Api.json req = Fulfilled None
      /\ Boolean (default EmptyString (Api.API_KEY env)) = true.
Proof.
  unfold Api.POST.
  destruct (Api.json req) as [[contents|]|message]; cbn [Api.status Api.caught Api.json_response];
    destruct (Boolean (default EmptyString (Api.API_KEY env))) eqn:Hb;
    cbn [negb Api.status Api.json_response];
    try (split; [discriminate | intros [H1 H2]; discriminate]).
  - destruct (Api.generateContentStream env _ contents);
      cbn [Api.status Api.caught Api.json_response];
      (split; [discriminate | intros [H1 H2]; discriminate]).
  - now split.
Qed.

(** X28.  Every extraction ends, whatever is dropped: there is an
    amount of fuel from which on the extraction has its result, a list
    of files or a rejection. *)
Theorem every_extraction_ends (dataTransfer : DataTransfer) :
  exists fuel o,
    forall fuel', fuel <= fuel' ->
      extractFilesFromDataTransfer fuel' dataTransfer = Some o.
Proof.
  unfold extractFilesFromDataTransfer.
  destruct (hierarchical dataTransfer); [| exists 0; eauto].
  destruct (mapM webkitGetAsEntry (items dataTransfer)) as [got |];
    [| exists 0; eauto].
  destruct (WalkFacts.walks_end_together (omap id got)) as (f & promises & Hmap).
  { intros e _. apply WalkFacts.getFilesFromEntry_ends. }
  destruct (PromiseFacts.Promise_all_in_order_settles promises) as (r & Hr).
  exists f.
  exists (match r with
          | Fulfilled filesArrays =>
              Fulfilled (List.filter not_hidden (concat filesArrays))
          | Rejected e => Rejected e
          end).
  intros fuel' Hle. rewrite Hmap by exact Hle. rewrite Hr. now destruct r.
Qed.

(** X29.  When a call of the reader fails after batches were returned,
    the read of the directory is rejected with the error of the call,
    and the entries of the batches are not delivered. *)
Theorem failed_call_rejects_the_read {Reader Ent : Type}
    (readEntries : Reader -> outcome (list Ent) DOMException * Reader)
    (r r' r'' : Reader) (batches : list (list Ent)) (e : DOMException)
    (fuel : nat) :
  Forall (fun entries => entries <> []) batches ->
  returns readEntries r batches r' ->
  readEntries r' = (Rejected e, r'') ->
  length batches < fuel ->
  readAllDirectoryEntries readEntries fuel r = Some (Rejected e).
Proof.
  intros Hne Hret Hcall. unfold readAllDirectoryEntries.
  generalize (@nil Ent). revert fuel.
  induction Hret as [r | r entries r1 batches r' Hfirst _ IH];
    intros [|fuel] allEntries Hfuel; try (simpl in Hfuel; lia).
  - simpl. now rewrite Hcall.
  - inversion Hne as [|? ? Hentries Hrest]; subst.
    simpl. rewrite Hfirst.
    destruct entries as [|x entries]; [congruence |].
    cbn [length Nat.eqb]. apply IH; [exact Hrest | exact Hcall |].
    simpl in Hfuel. lia.
Qed.

Lemma failed_call_rejects_the_read_witness :
  readAllDirectoryEntries next_batch 2
    [Fulfilled Sample.first_batch; Rejected "InvalidStateError"%string]
  = Some (Rejected "InvalidStateError"%string).
Proof.
  apply (failed_call_rejects_the_read next_batch
           [Fulfilled Sample.first_batch; Rejected "InvalidStateError"%string]
           [Rejected "InvalidStateError"%string] []
           [Sample.first_batch] "InvalidStateError"%string 2).
  - repeat constructor. discriminate.
  - apply (returns_cons _ _ Sample.first_batch
             [Rejected "InvalidStateError"%string]); [reflexivity | constructor].
  - reflexivity.
  - simpl. lia.
Defined.

(** X30.  The loader goes away: once every read of a batch has
    completed, with success or not, and in whatever order,
    [handleFileProcessing] leaves the application not loading. *)
Theorem loader_goes_away
    (schedule : list nat) (items : list FileWithRelativePath) (w : World) :
  (forall i, i < length items -> i ∈ schedule) ->
  isLoading (state (handleFileProcessing schedule items w)) = false.
Proof.
  intros Hall. unfold handleFileProcessing.
  destruct (length items =? 0); [reflexivity |].
  destruct (PromiseFacts.Promise_all_settles
              (map (filePromise (targetConversionType (state (setIsLoading true w))))
                   items) schedule) as [o Ho].
  { intros i Hi. apply Hall. now rewrite length_map in Hi. }
  rewrite Ho. now destruct o as [newFiles | [error f]].
Qed.

Lemma loader_goes_away_witness :
  isLoading (state (handleFileProcessing [2; 0; 1] Sample.three_items Sample.fresh))
  = false.
Proof.
  apply (loader_goes_away [2; 0; 1] Sample.three_items Sample.fresh).
  intros i Hi. simpl in Hi.
  destruct i as [|[|[|i]]]; [| | | lia]; apply list_elem_of_In; simpl; auto.
Defined.
